(** * optimize_images.py: a shallow embedding and its verified properties

    The script walks a folder tree, converts every eligible raster image to
    WebP through Pillow, optionally backs the original up and deletes it.
    The embedding below follows [src/images/optimize_images.py] function by
    function.  File system, console and Pillow are the script's
    collaborators: the file system and the console are modelled by an
    explicit world (a finite map from paths to nodes, and the chronological
    list of the effects performed), Pillow by an interface whose operations
    may raise. *)

From Stdlib Require Import Ascii String QArith Qround Qabs Qpower Lqa.
From Stdlib Require Strings.Byte Floats.SpecFloat.
From stdpp Require Import gmap strings list fin_maps.

Local Open Scope string_scope.
Local Open Scope list_scope.

(** ** Strings

    Python [str] values are modelled as strings of 8-bit characters.  Case
    conversion acts on the ASCII letters; the white space of [str.strip] is
    the set [str.isspace] accepts below code point 256. *)

Module Str.

Definition lower_ascii (c : ascii) : ascii :=
  let n := nat_of_ascii c in
  if (65 <=? n)%nat && (n <=? 90)%nat then ascii_of_nat (n + 32) else c.

Definition upper_ascii (c : ascii) : ascii :=
  let n := nat_of_ascii c in
  if (97 <=? n)%nat && (n <=? 122)%nat then ascii_of_nat (n - 32) else c.

Fixpoint map_string (f : ascii -> ascii) (s : string) : string :=
  match s with
  | EmptyString => EmptyString
  | String c r => String (f c) (map_string f r)
  end.

(** [str.lower()] and [str.upper()]. *)
Definition lower : string -> string := map_string lower_ascii.
Definition upper : string -> string := map_string upper_ascii.

(** [str.isspace] on one character: TAB..CR, FS..US, space, NEL, NBSP. *)
Definition is_space (c : ascii) : bool :=
  let n := nat_of_ascii c in
  ((9 <=? n)%nat && (n <=? 13)%nat) || ((28 <=? n)%nat && (n <=? 32)%nat)
  || (n =? 133)%nat || (n =? 160)%nat.

Fixpoint lstrip (s : string) : string :=
  match s with
  | EmptyString => EmptyString
  | String c r => if is_space c then lstrip r else s
  end.

(** [rstrip] drops the white space at the end: a character is kept when
    it is not white space or something is kept after it. *)
Fixpoint rstrip (s : string) : string :=
  match s with
  | EmptyString => EmptyString
  | String c r =>
    match rstrip r with
    | EmptyString => if is_space c then EmptyString else String c EmptyString
    | r' => String c r'
    end
  end.

(** [str.strip()]. *)
Definition strip (s : string) : string := rstrip (lstrip s).

(** [s.rfind(c)]: the index of the last occurrence, [None] for Python's -1. *)
Fixpoint rfind (c : ascii) (s : string) : option nat :=
  match s with
  | EmptyString => None
  | String a r =>
    match rfind c r with
    | Some i => Some (S i)
    | None => if Ascii.eqb a c then Some 0%nat else None
    end
  end.

(** [s[i:]] and [s[:i]]. *)
Fixpoint drop (i : nat) (s : string) : string :=
  match i, s with
  | O, _ => s
  | S i', String _ r => drop i' r
  | S _, EmptyString => EmptyString
  end.

Fixpoint take (i : nat) (s : string) : string :=
  match i, s with
  | O, _ => EmptyString
  | S i', String a r => String a (take i' r)
  | S _, EmptyString => EmptyString
  end.

End Str.

(** ** Paths ([pathlib.PurePath])

    An absolute path is the list of its components below the anchor, the
    outermost first; [[]] is the anchor itself. *)

Definition Path := list string.

Module PathLib.

(** [path.name]: the last component, empty for the anchor. *)
Definition name (p : Path) : string := List.last p "".

(** [path.parent]; the anchor is its own parent. *)
Definition parent (p : Path) : Path := removelast p.

(** [path.parts]: the anchor, then the components. *)
Definition parts (p : Path) : list string := "/" :: p.

(** [path / child] for a relative [child]. *)
Definition joinpath (p rel : Path) : Path := p ++ rel.

(** The [suffix] property on a name:
    [i = name.rfind('.')], the suffix is [name[i:]] when
    [0 < i < len(name) - 1] and empty otherwise. *)
Definition suffix_of_name (n : string) : string :=
  match Str.rfind "." n with
  | Some i =>
    if (0 <? i)%nat && (i <? String.length n - 1)%nat then Str.drop i n
    else ""
  | None => ""
  end.

Definition suffix (p : Path) : string := suffix_of_name (name p).

(** [with_suffix] on a name: the old suffix is cut off (nothing, when it
    is empty) and the new one appended. *)
Definition name_with_suffix (n new : string) : string :=
  let old := suffix_of_name n in
  match old with
  | EmptyString => n ++ new
  | _ => Str.take (String.length n - String.length old) n ++ new
  end.

(** [path.with_suffix(new)] for a well-formed [new] suffix; [None] is the
    [ValueError] pathlib raises for a path with an empty name. *)
Definition with_suffix (p : Path) (new : string) : option Path :=
  match name p with
  | EmptyString => None
  | n => Some (parent p ++ [name_with_suffix n new])
  end.

(** [p.relative_to(root)]; [None] is the [ValueError] raised when [p] is
    not below [root]. *)
Fixpoint relative_to (p root : Path) : option Path :=
  match root, p with
  | [], _ => Some p
  | r :: root', c :: p' => if String.eqb r c then relative_to p' root' else None
  | _ :: _, [] => None
  end.

End PathLib.

(** ** Configuration

    The module-level constants of the script.  They are gathered in a record
    so that statements can range over the settings a claim speaks about
    ("when deletion is enabled", "when either maximum is unset");
    [source_config] holds the values the script is shipped with. *)

Record Config := {
  WEBP_QUALITY : Z;
  WEBP_METHOD : Z;
  MAX_WIDTH : option Z;
  MAX_HEIGHT : option Z;
  RECURSIVE : bool;
  DELETE_ORIGINALS : bool;
  MAKE_BACKUP : bool;
  BACKUP_FOLDER_NAME : string;
  SUPPORTED_EXTENSIONS : list string;
}.

Definition source_config : Config := {|
  WEBP_QUALITY := 82;
  WEBP_METHOD := 6;
  MAX_WIDTH := Some 1920%Z;
  MAX_HEIGHT := Some 1920%Z;
  RECURSIVE := true;
  DELETE_ORIGINALS := true;
  MAKE_BACKUP := true;
  BACKUP_FOLDER_NAME := "_backup_originals";
  SUPPORTED_EXTENSIONS := [".jpg"; ".jpeg"; ".png"; ".bmp"; ".tif"; ".tiff"; ".gif"];
|}.

(** ** Exceptions

    The classes the script's handlers tell apart.  Pillow's
    [UnidentifiedImageError] derives from [OSError]; everything here derives
    from [Exception]. *)

Inductive Exception :=
  | UnidentifiedImageError
  | OSError (errno : string)
  | ValueError
  | ZeroDivisionError
  | OtherException (what : string).

Definition is_OSError (e : Exception) : bool :=
  match e with
  | UnidentifiedImageError | OSError _ => true
  | _ => false
  end.

Inductive Result (A : Type) :=
  | Ok (a : A)
  | Raise (e : Exception).
Arguments Ok {A} a.
Arguments Raise {A} e.

(** ** File system

    A node is a regular file with its bytes or a directory.  The anchor
    [[]] is always a directory. *)

Definition Bytes := list Byte.byte.

Inductive Node :=
  | File (content : Bytes)
  | Dir.

#[export] Instance byte_eq_dec : EqDecision Byte.byte := Strings.Byte.byte_eq_dec.

#[export] Instance node_eq_dec : EqDecision Node.
Proof. solve_decision. Defined.

Abbreviation FS := (gmap Path Node).

Module Fs.

Definition node_at (fs : FS) (p : Path) : option Node :=
  match p with
  | [] => Some Dir
  | _ => fs !! p
  end.

(** [path.exists()], [path.is_file()], [path.is_dir()]. *)
Definition exists_ (fs : FS) (p : Path) : bool :=
  match node_at fs p with Some _ => true | None => false end.

Definition is_file (fs : FS) (p : Path) : bool :=
  match node_at fs p with Some (File _) => true | _ => false end.

Definition is_dir (fs : FS) (p : Path) : bool :=
  match node_at fs p with Some Dir => true | _ => false end.

(** [path.stat().st_size]: the length of a file; what a directory
    reports is left to the file system and fixed to one block here. *)
Definition st_size (fs : FS) (p : Path) : Result Z :=
  match node_at fs p with
  | Some (File b) => Ok (Z.of_nat (length b))
  | Some Dir => Ok 4096%Z
  | None => Raise (OSError "ENOENT")
  end.

(** [path.read_bytes()]. *)
Definition read_bytes (fs : FS) (p : Path) : Result Bytes :=
  match node_at fs p with
  | Some (File b) => Ok b
  | Some Dir => Raise (OSError "EISDIR")
  | None => Raise (OSError "ENOENT")
  end.

(** Opening [p] for writing and storing [b]: the parent must be a
    directory and [p] itself must not be one. *)
Definition write_file (fs : FS) (p : Path) (b : Bytes) : Result FS :=
  match node_at fs p with
  | Some Dir => Raise (OSError "EISDIR")
  | _ =>
    match node_at fs (PathLib.parent p) with
    | Some Dir => Ok (<[p := File b]> fs)
    | Some (File _) => Raise (OSError "ENOTDIR")
    | None => Raise (OSError "ENOENT")
    end
  end.

(** [path.unlink()]. *)
Definition unlink (fs : FS) (p : Path) : Result FS :=
  match node_at fs p with
  | Some (File _) => Ok (delete p fs)
  | Some Dir => Raise (OSError "EISDIR")
  | None => Raise (OSError "ENOENT")
  end.

(** [path.mkdir(exist_ok=True)]: an existing directory is accepted, an
    existing file is not; the parent must be a directory. *)
Definition mkdir (fs : FS) (p : Path) : Result FS :=
  match node_at fs p with
  | Some Dir => Ok fs
  | Some (File _) => Raise (OSError "EEXIST")
  | None =>
    match node_at fs (PathLib.parent p) with
    | Some Dir => Ok (<[p := Dir]> fs)
    | Some (File _) => Raise (OSError "ENOTDIR")
    | None => Raise (OSError "ENOENT")
    end
  end.

(** [path.mkdir(parents=True, exist_ok=True)]: the missing ancestors are
    created from the outermost one; [pre] is the part of the path already
    known to be a directory. *)
Fixpoint mkdir_from (fs : FS) (pre rest : Path) : Result FS :=
  match rest with
  | [] => Ok fs
  | c :: rest' =>
    match mkdir fs (pre ++ [c]) with
    | Ok fs' => mkdir_from fs' (pre ++ [c]) rest'
    | Raise e => Raise e
    end
  end.

Definition mkdir_parents (fs : FS) (p : Path) : Result FS :=
  mkdir_from fs [] p.

(** [root.glob("*")]: the entries directly in [root];
    [root.rglob("*")]: every entry below it.  The order is the file
    system's. *)
Definition glob (fs : FS) (root : Path) : list Path :=
  filter (fun p => PathLib.parent p = root /\ p <> []) (map fst (map_to_list fs)).

Definition rglob (fs : FS) (root : Path) : list Path :=
  filter (fun p => root `prefix_of` p /\ p <> root) (map fst (map_to_list fs)).

End Fs.

(** ** Floating point

    A Python [float] is an IEEE 754 binary64 number.  The finite ones are
    rationals; an operation returns the exact result rounded to the nearest
    number with a 53-bit significand, ties to the even significand.  The
    exponent range is not modelled: the quotients and products the script
    forms from image sides and limits stay far inside it. *)

Module Float.

(** [2^e] for an integer exponent of either sign. *)
Definition pow2 (e : Z) : Q := Qpower 2 e.

(** The exponent [e] of the last place of a positive [x]:
    [2^52 <= x / 2^e < 2^53].  The quotient of the integer logarithms of
    numerator and denominator is right or one too large. *)
Definition ulp_exp (x : Q) : Z :=
  let e0 := (Z.log2 (Qnum x) - Z.log2 (Zpos (Qden x)) - 52)%Z in
  if Qle_bool (pow2 52) (x * pow2 (- e0)) then e0 else (e0 - 1)%Z.

(** The integer nearest to [q], the even one of two that are equally near. *)
Definition nearest_even (q : Q) : Z :=
  let f := Qfloor q in
  match Qcompare (q - inject_Z f) (1 # 2) with
  | Lt => f
  | Gt => (f + 1)%Z
  | Eq => if Z.even f then f else (f + 1)%Z
  end.

(** A positive [x] rounded to 53 significant bits. *)
Definition round_pos (x : Q) : Q :=
  inject_Z (nearest_even (x * pow2 (- ulp_exp x))) * pow2 (ulp_exp x).

(** Rounding to nearest, ties to even. *)
Definition round (x : Q) : Q :=
  match Qnum x with
  | Z0 => 0
  | Zpos _ => Qred (round_pos x)
  | Zneg _ => Qred (- round_pos (- x))
  end.

(** [float(n)]. *)
Definition of_int (n : Z) : Q := round (inject_Z n).

(** [a / b] on two [int]s: the correctly rounded quotient. *)
Definition truediv (a b : Z) : Result Q :=
  if (b =? 0)%Z then Raise ZeroDivisionError
  else Ok (round (inject_Z a / inject_Z b)).

(** [n * s] for an [int] and a [float]: [n] is converted first. *)
Definition int_mul (n : Z) (s : Q) : Q := round (of_int n * s).

(** [x < y]. *)
Definition ltb (x y : Q) : bool :=
  match Qcompare x y with Lt => true | _ => false end.

(** [min(a, b, c)]: the first of the smallest arguments. *)
Definition min3 (a b c : Q) : Q :=
  let m := if ltb b a then b else a in
  if ltb c m then c else m.

(** [int(x)]: truncation towards zero. *)
Definition to_int (x : Q) : Z := Z.quot (Qnum x) (Zpos (Qden x)).

End Float.

(** The same operations in the Standard Library's specification of IEEE 754
    arithmetic, at the parameters of binary64, to compare [Float] with. *)
Module Binary64.

Import SpecFloat.

Definition of_int (n : Z) : spec_float := binary_normalize 53 1024 n 0 false.
Definition div : spec_float -> spec_float -> spec_float := SFdiv 53 1024.
Definition mul : spec_float -> spec_float -> spec_float := SFmul 53 1024.

(** The rational a finite number stands for. *)
Definition to_Q (x : spec_float) : option Q :=
  match x with
  | S754_zero _ => Some 0%Q
  | S754_finite s m e =>
    Some (Qred ((if s then -1 else 1) * inject_Z (Zpos m) * Float.pow2 e))%Q
  | _ => None
  end.

(** [limit / side] and [side * (limit / side)] come out the same in both. *)
Definition agrees (limit side : Z) : bool :=
  match Float.truediv limit side with
  | Ok scale =>
    let scale64 := div (of_int limit) (of_int side) in
    match to_Q scale64, to_Q (mul (of_int side) scale64) with
    | Some q, Some p => Qeq_bool scale q && Qeq_bool (Float.int_mul side scale) p
    | _, _ => false
    end
  | Raise _ => false
  end.

End Binary64.

(** ** Console *)

Inductive Status := INFO | SUCCESS | WARNING | ERROR.

(** The lines [print_status] is called with, one constructor per format
    string of the script, with the values it interpolates. *)
Inductive Message :=
  | MsgRule
  | MsgRuleEnd
  | MsgStarting
  | MsgRootFolder (root : Path)
  | MsgStrategy (quality method : Z) (max_width max_height : option Z)
  | MsgDeleteWarning
  | MsgBackupNotice (folder : string)
  | MsgCancelled
  | MsgNoImages
  | MsgFinished (count : nat)
  | MsgReminder
  | MsgSkipping (file_path : Path)
  | MsgProcessing (file_path : Path)
  | MsgResized (width height : Z)
  | MsgAnimation (name : string)
  | MsgBackup (rel : Path)
  | MsgBackupExisted (rel : Path)
  | MsgOptimized (name output_name : string) (old_size new_size : Z)
  | MsgOriginalDeleted (name : string)
  | MsgDeleteFailed (name : string) (e : Exception)
  | MsgWebpFailed (name : string)
  | MsgUnidentified (file_path : Path)
  | MsgUnexpected (file_path : Path) (e : Exception).

(** ** Pillow

    The keyword arguments of [Image.save]; [save_all] and [loop] are only
    present for animations. *)
Record SaveKwargs := {
  kw_format : string;
  kw_quality : Z;
  kw_method : Z;
  kw_optimize : bool;
  kw_save_all : option bool;
  kw_loop : option Z;
}.

(** What [Image.save] does to the output file: it writes the encoded bytes,
    or raises and leaves either nothing or a partial file behind. *)
Inductive SaveOutcome :=
  | Saved (encoded : Bytes)
  | SaveFailed (e : Exception) (left_behind : option Bytes).

(** The operations of Pillow the script calls.  Images and pixel data are
    opaque; every operation may raise. *)
Class Pillow := {
  Image : Type;
  PixelData : Type;
  (** [Image.open], given the bytes of the file *)
  Image_open : Bytes -> Result Image;
  (** the [is_animated] attribute, when the image has one *)
  attr_is_animated : Image -> option bool;
  Image_mode : Image -> string;
  Image_size : Image -> Z * Z;
  ImageOps_exif_transpose : Image -> Result Image;
  (** [img.resize(size, Image.LANCZOS)] *)
  Image_resize : Image -> Z * Z -> Result Image;
  Image_getdata : Image -> Result PixelData;
  Image_new : string -> Z * Z -> Result Image;
  Image_putdata : Image -> PixelData -> Result Image;
  Image_convert : Image -> string -> Result Image;
  Image_save : Image -> SaveKwargs -> SaveOutcome;
}.

(** ** The world and the effects performed on it *)

Section Script.

Context {pil : Pillow}.

(** The calls that reach a collaborator, in the order they are made.  A
    call is recorded when it is made, whether or not it succeeds. *)
Inductive Effect :=
  | EPrint (status : Status) (message : Message)
  | EInput
  | EOpen (p : Path)
  | EExifTranspose
  | EResize (new_size : Z * Z)
  | EGetData
  | ENew (mode : string) (size : Z * Z)
  | EPutData
  | EConvert (mode : string)
  | ESave (img : Image) (p : Path) (kwargs : SaveKwargs)
  | EMkdir (p : Path)
  | EReadBytes (p : Path)
  | EWriteBytes (p : Path) (b : Bytes)
  | EUnlink (p : Path).

Record World := {
  fs : FS;
  stdin : list string;
  trace : list Effect;
}.

(** Computations: a world in, a result or an exception and a world out. *)
Definition M (A : Type) : Type := World -> Result A * World.

Definition ret {A} (a : A) : M A := fun w => (Ok a, w).

Definition bind {A B} (m : M A) (k : A -> M B) : M B :=
  fun w => match m w with
         | (Ok a, w') => k a w'
         | (Raise e, w') => (Raise e, w')
         end.

Definition raise {A} (e : Exception) : M A := fun w => (Raise e, w).

(** [try: m except Exception as e: h e] *)
Definition try_except {A} (m : M A) (h : Exception -> M A) : M A :=
  fun w => match m w with
         | (Ok a, w') => (Ok a, w')
         | (Raise e, w') => h e w'
         end.

Definition lift {A} (r : Result A) : M A :=
  match r with Ok a => ret a | Raise e => raise e end.

Definition emit (e : Effect) : M unit :=
  fun w => (Ok tt, {| fs := fs w; stdin := stdin w; trace := trace w ++ [e] |}).

Definition get_fs : M FS := fun w => (Ok (fs w), w).

Definition put_fs (f : FS) : M unit :=
  fun w => (Ok tt, {| fs := f; stdin := stdin w; trace := trace w |}).

End Script.

Declare Scope script_scope.
Delimit Scope script_scope with script.
Notation "x <- m ;; k" := (bind m (fun x => k))
  (at level 100, m at next level, right associativity) : script_scope.
Notation "m ;; k" := (bind m (fun _ => k))
  (at level 100, right associativity) : script_scope.

(** ** The script *)

Section Functions.

Context {pil : Pillow}.
Variable cfg : Config.

Local Open Scope script_scope.

(** [print_status(message, status)] *)
Definition print_status (message : Message) (status : Status) : M unit :=
  emit (EPrint status message).

(** [input(prompt)]: the next line of the standard input, [EOFError]
    when there is none. *)
Definition input : M string :=
  fun w => match stdin w with
         | line :: rest =>
             (Ok line, {| fs := fs w; stdin := rest; trace := trace w ++ [EInput] |})
         | [] =>
             (Raise (OtherException "EOFError"),
              {| fs := fs w; stdin := []; trace := trace w ++ [EInput] |})
         end.

(** File-system calls of the script, recorded in the trace. *)
Definition path_exists (p : Path) : M bool :=
  f <- get_fs ;; ret (Fs.exists_ f p).

Definition stat_size (p : Path) : M Z :=
  f <- get_fs ;; lift (Fs.st_size f p).

Definition read_bytes (p : Path) : M Bytes :=
  emit (EReadBytes p) ;; f <- get_fs ;; lift (Fs.read_bytes f p).

Definition write_bytes (p : Path) (b : Bytes) : M unit :=
  emit (EWriteBytes p b) ;; f <- get_fs ;; f' <- lift (Fs.write_file f p b) ;; put_fs f'.

Definition unlink (p : Path) : M unit :=
  emit (EUnlink p) ;; f <- get_fs ;; f' <- lift (Fs.unlink f p) ;; put_fs f'.

Definition mkdir_exist_ok (p : Path) : M unit :=
  emit (EMkdir p) ;; f <- get_fs ;; f' <- lift (Fs.mkdir f p) ;; put_fs f'.

Definition mkdir_parents_exist_ok (p : Path) : M unit :=
  emit (EMkdir p) ;; f <- get_fs ;; f' <- lift (Fs.mkdir_parents f p) ;; put_fs f'.

(** [Image.open(p)] *)
Definition open_image (p : Path) : M Image :=
  emit (EOpen p) ;; f <- get_fs ;; b <- lift (Fs.read_bytes f p) ;; lift (Image_open b).

(** What [img.save(p, **kwargs)] does once called: the output file is
    opened for writing, then the encoder runs. *)
Definition encode_to (img : Image) (p : Path) (kwargs : SaveKwargs) : M unit :=
  f <- get_fs ;;
  match Image_save img kwargs with
  | Saved b => f' <- lift (Fs.write_file f p b) ;; put_fs f'
  | SaveFailed e None => _ <- lift (Fs.write_file f p []) ;; raise e
  | SaveFailed e (Some b) => f' <- lift (Fs.write_file f p b) ;; put_fs f' ;; raise e
  end.

(** [img.save(p, **kwargs)] *)
Definition save_image (img : Image) (p : Path) (kwargs : SaveKwargs) : M unit :=
  emit (ESave img p kwargs) ;; encode_to img p kwargs.

(** The filter of [iter_image_files]: a regular file, outside the backup
    folder, with a supported extension. *)
Definition is_image_file (f : FS) (path : Path) : bool :=
  if negb (Fs.is_file f path) then false
  else if bool_decide (BACKUP_FOLDER_NAME cfg ∈ PathLib.parts path) then false
  else bool_decide (Str.lower (PathLib.suffix path) ∈ SUPPORTED_EXTENSIONS cfg).

(** [it] of [iter_image_files]: [root.rglob("*")] or [root.glob("*")]. *)
Definition iter_entries (f : FS) (root : Path) : list Path :=
  if RECURSIVE cfg then Fs.rglob f root else Fs.glob f root.

(** [ensure_backup_folder] *)
Definition ensure_backup_folder (root : Path) : M Path :=
  let backup_root := PathLib.joinpath root [BACKUP_FOLDER_NAME cfg] in
  mkdir_exist_ok backup_root ;;
  ret backup_root.

(** [backup_original] *)
Definition backup_original (root backup_root file_path : Path) : M unit :=
  if negb (MAKE_BACKUP cfg) then ret tt
  else
    match PathLib.relative_to file_path root with
    | None => raise ValueError
    | Some rel =>
        let dest := PathLib.joinpath backup_root rel in
        mkdir_parents_exist_ok (PathLib.parent dest) ;;
        present <- path_exists dest ;;
        if negb present then
          b <- read_bytes file_path ;;
          write_bytes dest b ;;
          print_status (MsgBackup rel) INFO
        else
          print_status (MsgBackupExisted rel) INFO
    end.

(** The scale factor of lines 140-141:
    [min(MAX_WIDTH / width, MAX_HEIGHT / height, 1.0)]. *)
Definition resize_scale (max_width max_height width height : Z) : Result Q :=
  match Float.truediv max_width width with
  | Raise e => Raise e
  | Ok a =>
    match Float.truediv max_height height with
    | Raise e => Raise e
    | Ok b => Ok (Float.min3 a b 1)
    end
  end.

(** Lines 139-143: the size to resize to, [None] when the image is left
    as it is. *)
Definition resize_target (width height : Z) : Result (option (Z * Z)) :=
  match MAX_WIDTH cfg, MAX_HEIGHT cfg with
  | Some max_width, Some max_height =>
    match resize_scale max_width max_height width height with
    | Raise e => Raise e
    | Ok scale =>
        if Float.ltb scale 1 then
          Ok (Some (Float.to_int (Float.int_mul width scale),
                    Float.to_int (Float.int_mul height scale)))
        else Ok None
    end
  | _, _ => Ok None
  end.

(** Lines 139-145 *)
Definition resize_if_needed (img : Image) : M Image :=
  let '(width, height) := Image_size img in
  target <- lift (resize_target width height) ;;
  match target with
  | Some new_size =>
    emit (EResize new_size) ;;
    img' <- lift (Image_resize img new_size) ;;
    print_status (MsgResized (fst new_size) (snd new_size)) INFO ;;
    ret img'
  | None => ret img
  end.

(** Lines 147-151: the image rebuilt from its pixels. *)
Definition strip_metadata (img : Image) : M Image :=
  emit EGetData ;;
  data <- lift (Image_getdata img) ;;
  emit (ENew (Image_mode img) (Image_size img)) ;;
  clean_img <- lift (Image_new (Image_mode img) (Image_size img)) ;;
  emit EPutData ;;
  lift (Image_putdata clean_img data).

(** Lines 157-159 *)
Definition normalize_mode (img_to_save : Image) : M Image :=
  if bool_decide (Image_mode img_to_save ∈ ["RGB"; "RGBA"; "P"]) then ret img_to_save
  else emit (EConvert "RGB") ;; lift (Image_convert img_to_save "RGB").

(** Lines 161-171 *)
Definition save_kwargs (is_animated : bool) : SaveKwargs := {|
  kw_format := "WEBP";
  kw_quality := WEBP_QUALITY cfg;
  kw_method := WEBP_METHOD cfg;
  kw_optimize := true;
  kw_save_all := if is_animated then Some true else None;
  kw_loop := if is_animated then Some 0%Z else None;
|}.

(** Lines 128-159: the image is opened and made ready for the encoder;
    the result is [img_to_save] together with [is_animated]. *)
Definition prepare_image (file_path : Path) : M (Image * bool) :=
  img <- open_image file_path ;;
  print_status (MsgProcessing file_path) INFO ;;
  let is_animated := default false (attr_is_animated img) in
  img_to_save <-
    (if negb is_animated then
       img <- (emit EExifTranspose ;; lift (ImageOps_exif_transpose img)) ;;
       img <- resize_if_needed img ;;
       strip_metadata img
     else
       print_status (MsgAnimation (PathLib.name file_path)) INFO ;;
       ret img) ;;
  img_to_save <- normalize_mode img_to_save ;;
  ret (img_to_save, is_animated).

(** Lines 128-178: the body of the [with] block. *)
Definition convert_file (file_path root : Path) (backup_root : option Path)
  (output_path : Path) : M unit :=
  prepared <- prepare_image file_path ;;
  let '(img_to_save, is_animated) := prepared in
  match backup_root with
  | Some backup_root => backup_original root backup_root file_path
  | None => ret tt
  end ;;
  save_image img_to_save output_path (save_kwargs is_animated).

(** Line 181: [output_path.exists() and output_path.stat().st_size > 0] *)
Definition output_verified (f : FS) (output_path : Path) : bool :=
  Fs.exists_ f output_path &&
  match Fs.st_size f output_path with Ok n => (0 <? n)%Z | Raise _ => false end.

(** Lines 181-198: verification and removal of the original.  The
    percentage divides by the size of the original. *)
Definition verify_and_delete (file_path output_path : Path) : M unit :=
  f <- get_fs ;;
  if output_verified f output_path then
    old_size <- stat_size file_path ;;
    new_size <- stat_size output_path ;;
    (if (old_size =? 0)%Z then raise ZeroDivisionError else ret tt) ;;
    print_status (MsgOptimized (PathLib.name file_path) (PathLib.name output_path)
                    old_size new_size) SUCCESS ;;
    if DELETE_ORIGINALS cfg && negb (bool_decide (file_path = output_path)) then
      try_except
        (unlink file_path ;;
         print_status (MsgOriginalDeleted (PathLib.name file_path)) INFO)
        (fun e =>
           if is_OSError e then
             print_status (MsgDeleteFailed (PathLib.name file_path) e) ERROR
           else raise e)
    else ret tt
  else
    print_status (MsgWebpFailed (PathLib.name file_path)) ERROR.

(** Lines 200-203: the two [except] clauses. *)
Definition report_failure (file_path : Path) (e : Exception) : M unit :=
  match e with
  | UnidentifiedImageError => print_status (MsgUnidentified file_path) ERROR
  | _ => print_status (MsgUnexpected file_path e) ERROR
  end.

(** [optimize_image] *)
Definition optimize_image (file_path root : Path) (backup_root : option Path) : M unit :=
  match PathLib.with_suffix file_path ".webp" with
  | None => raise ValueError
  | Some output_path =>
    present <- path_exists output_path ;;
    if present then print_status (MsgSkipping file_path) WARNING
    else
      try_except
        (convert_file file_path root backup_root output_path ;;
         verify_and_delete file_path output_path)
        (report_failure file_path)
  end.

(** The [for] loop of [main] over the generator [iter_image_files]: an
    entry is tested when the loop reaches it, against the file system as
    it is then. *)
Fixpoint process_entries (root : Path) (backup_root : option Path)
  (it : list Path) (count : nat) : M nat :=
  match it with
  | [] => ret count
  | path :: it' =>
    f <- get_fs ;;
    if is_image_file f path then
      optimize_image path root backup_root ;;
      process_entries root backup_root it' (S count)
    else process_entries root backup_root it' count
  end.

(** Lines 210-228 *)
Definition banner (root : Path) : M unit :=
  print_status MsgRule INFO ;;
  print_status MsgStarting INFO ;;
  print_status (MsgRootFolder root) INFO ;;
  print_status (MsgStrategy (WEBP_QUALITY cfg) (WEBP_METHOD cfg)
                (MAX_WIDTH cfg) (MAX_HEIGHT cfg)) INFO ;;
  (if DELETE_ORIGINALS cfg then print_status MsgDeleteWarning WARNING else ret tt) ;;
  (if MAKE_BACKUP cfg then print_status (MsgBackupNotice (BACKUP_FOLDER_NAME cfg)) INFO
   else ret tt) ;;
  print_status MsgRuleEnd INFO.

(** Lines 236-251: the run proper.  The entries are those the tree holds
    when the loop starts. *)
Definition run (root : Path) : M unit :=
  backup_root <-
    (if MAKE_BACKUP cfg then r <- ensure_backup_folder root ;; ret (Some r)
     else ret None) ;;
  f <- get_fs ;;
  count <- process_entries root backup_root (iter_entries f root) 0 ;;
  if (count =? 0)%nat then print_status MsgNoImages WARNING
  else
    print_status (MsgFinished count) SUCCESS ;;
    print_status MsgReminder INFO.

(** [main]; [root] is the folder of the script. *)
Definition main (root : Path) : M unit :=
  banner root ;;
  if DELETE_ORIGINALS cfg then
    confirm <- input ;;
    if negb (String.eqb (Str.upper (Str.strip confirm)) "SI") then
      print_status MsgCancelled ERROR
    else run root
  else run root.

End Functions.

(** ** A small codec

    An instance of the Pillow interface on which the script can be run on
    concrete trees.  A file is an image when it starts with the byte [I]
    (a still), [L] (a greyscale still) or [A] (an animation) followed by
    two bytes giving width and height in units of 64 pixels; the rest of
    the file is the pixel data.  The encoder writes the same layout. *)

Module Toy.

Record image := {
  mode : string;
  size : Z * Z;
  animated : bool;
  exif : bool;
  pixels : Bytes;
}.

Definition side (b : Byte.byte) : Z := 64 * Z.of_N (Byte.to_N b).

Definition open (b : Bytes) : Result image :=
  match b with
  | Byte.x49 :: w :: h :: px =>
    Ok {| mode := "RGB"; size := (side w, side h); animated := false;
          exif := true; pixels := px |}
  | Byte.x41 :: w :: h :: px =>
    Ok {| mode := "P"; size := (side w, side h); animated := true;
          exif := true; pixels := px |}
  | Byte.x4c :: w :: h :: px =>
    Ok {| mode := "L"; size := (side w, side h); animated := false;
          exif := false; pixels := px |}
  | _ => Raise UnidentifiedImageError
  end.

Definition resize (i : image) (s : Z * Z) : Result image :=
  if (0 <? fst s)%Z && (0 <? snd s)%Z then
    Ok {| mode := mode i; size := s; animated := animated i; exif := exif i;
          pixels := pixels i |}
  else Raise ValueError.

Definition save (i : image) (kw : SaveKwargs) : SaveOutcome :=
  match pixels i with
  | [] => Saved []
  | Byte.xff :: _ => SaveFailed (OSError "EIO") (Some [])
  | px => Saved ((if animated i then Byte.x41 else Byte.x49) :: px)
  end.

#[export] Instance pillow : Pillow := {|
  Image := image;
  PixelData := Bytes;
  Image_open := open;
  attr_is_animated := fun i => if animated i then Some true else None;
  Image_mode := mode;
  Image_size := size;
  ImageOps_exif_transpose := fun i =>
    Ok {| mode := mode i; size := size i; animated := animated i; exif := false;
          pixels := pixels i |};
  Image_resize := resize;
  Image_getdata := fun i => Ok (pixels i);
  Image_new := fun m s =>
    Ok {| mode := m; size := s; animated := false; exif := false; pixels := [] |};
  Image_putdata := fun i d =>
    Ok {| mode := mode i; size := size i; animated := animated i; exif := exif i;
          pixels := d |};
  Image_convert := fun i m =>
    Ok {| mode := m; size := size i; animated := animated i; exif := exif i;
          pixels := pixels i |};
  Image_save := save;
|}.

(** [/srv/site/images] holding a still [photo.JPG] of 3968 x 2944, an
    animation [anim.gif], a corrupt [broken.png] and a text file. *)
Definition root : Path := ["srv"; "site"; "images"].

Definition photo : Bytes := [Byte.x49; Byte.x3e; Byte.x2e; Byte.x01; Byte.x02; Byte.x03].
Definition anim : Bytes := [Byte.x41; Byte.x02; Byte.x02; Byte.x07; Byte.x08].
Definition broken : Bytes := [Byte.x00; Byte.x00].

Definition tree : FS :=
  <[ ["srv"] := Dir ]>
    (<[ ["srv"; "site"] := Dir ]>
    (<[ root := Dir ]>
    (<[ root ++ ["photo.JPG"] := File photo ]>
    (<[ root ++ ["anim.gif"] := File anim ]>
    (<[ root ++ ["broken.png"] := File broken ]>
    (<[ root ++ ["notes.txt"] := File [Byte.x68; Byte.x69] ]> ∅)))))).

Definition world (answers : list string) : World :=
  {| fs := tree; stdin := answers; trace := [] |}.


Definition photo_path : Path := root ++ ["photo.JPG"].
Definition photo_webp : Path := root ++ ["photo.webp"].
Definition backup_root : Path := root ++ ["_backup_originals"].

(** The tree after an earlier conversion of the photo, and the tree with
    an empty output left in its place. *)
Definition converted : World :=
  {| fs := <[ photo_webp := File [Byte.x49; Byte.x01; Byte.x02; Byte.x03] ]> tree;
     stdin := []; trace := [] |}.

Definition stale : World :=
  {| fs := <[ photo_webp := File [] ]> tree; stdin := []; trace := [] |}.

End Toy.

(** ** Vocabulary of the statements *)

Section Vocabulary.

Context {pil : Pillow}.

(** The world [w] after the events [t], the file system untouched. *)
Definition extend (w : World) (t : list Effect) : World :=
  {| fs := fs w; stdin := stdin w; trace := trace w ++ t |}.

(** Every event [m] adds to the trace satisfies [Φ]. *)
Definition emits {A} (Φ : Effect -> Prop) (m : M A) : Prop :=
  forall w, exists t, trace (snd (m w)) = trace w ++ t /\ Forall Φ t.

(** [m] leaves the file system and the standard input as they are. *)
Definition read_only {A} (m : M A) : Prop :=
  forall w, fs (snd (m w)) = fs w /\ stdin (snd (m w)) = stdin w.

(** The lines [banner] prints. *)
Definition banner_events (cfg : Config) (root : Path) : list Effect :=
  [EPrint INFO MsgRule; EPrint INFO MsgStarting; EPrint INFO (MsgRootFolder root);
   EPrint INFO (MsgStrategy (WEBP_QUALITY cfg) (WEBP_METHOD cfg)
                  (MAX_WIDTH cfg) (MAX_HEIGHT cfg))]
  ++ (if DELETE_ORIGINALS cfg then [EPrint WARNING MsgDeleteWarning] else [])
  ++ (if MAKE_BACKUP cfg then [EPrint INFO (MsgBackupNotice (BACKUP_FOLDER_NAME cfg))]
      else [])
  ++ [EPrint INFO MsgRuleEnd].


(** [n] runs of [optimize_image] on the same file, one after the other. *)
Definition rerun (cfg : Config) (file_path root : Path) (backup_root : option Path)
  (n : nat) (w : World) : World :=
  Nat.iter n (fun w => snd (optimize_image cfg file_path root backup_root w)) w.

End Vocabulary.

(** Relations between two states of the file system. *)
Section FsVocabulary.

(** Every node of [f] is still there in [f'], unchanged. *)
Definition fs_extends (f f' : FS) : Prop :=
  forall q n, Fs.node_at f q = Some n -> Fs.node_at f' q = Some n.

(** [f'] is [f] with directories added where there was nothing. *)
Definition fs_adds_dirs (f f' : FS) : Prop :=
  forall q, Fs.node_at f' q = Fs.node_at f q \/
          (Fs.node_at f q = None /\ Fs.node_at f' q = Some Dir).

End FsVocabulary.

Section BackupVocabulary.

Context {pil : Pillow}.

(** Every component of [rest] below [pre] is a directory. *)
Fixpoint all_dirs (f : FS) (pre rest : Path) : Prop :=
  match rest with
  | [] => True
  | c :: rest' => Fs.is_dir f (pre ++ [c]) = true /\ all_dirs f (pre ++ [c]) rest'
  end.



End BackupVocabulary.

Section Outcomes.

Context {pil : Pillow}.

(** A world given by its three parts, the trace as an extension of [w]'s. *)
Definition world_after (w : World) (f : FS) (t : list Effect) : World :=
  {| fs := f; stdin := stdin w; trace := trace w ++ t |}.

(** What [backup_original] does when backups are enabled and the file is
    below [root] at the relative path [rel]. *)
Definition backup_outcome (backup_root file_path rel : Path) (w : World)
  : Result unit * World :=
  let dest := PathLib.joinpath backup_root rel in
  let d := PathLib.parent dest in
  match Fs.mkdir_parents (fs w) d with
  | Raise e => (Raise e, world_after w (fs w) [EMkdir d])
  | Ok f1 =>
    if Fs.exists_ f1 dest then
      (Ok tt, world_after w f1 [EMkdir d; EPrint INFO (MsgBackupExisted rel)])
    else
      match Fs.read_bytes f1 file_path with
      | Raise e => (Raise e, world_after w f1 [EMkdir d; EReadBytes file_path])
      | Ok b =>
          match Fs.write_file f1 dest b with
          | Raise e =>
              (Raise e, world_after w f1
                          [EMkdir d; EReadBytes file_path; EWriteBytes dest b])
          | Ok f2 =>
              (Ok tt, world_after w f2
                        [EMkdir d; EReadBytes file_path; EWriteBytes dest b;
                         EPrint INFO (MsgBackup rel)])
          end
      end
  end.


End Outcomes.

Section FootprintVocabulary.

Context {pil : Pillow}.

(** The file systems before and after [m] are related by [R]. *)
Definition fs_step {A : Type} (R : FS -> FS -> Prop) (m : M A) : Prop :=
  forall w, R (fs w) (fs (snd (m w))).

(** The backup destination of [file_path], when it has one. *)
Definition backup_dest (root : Path) (backup_root : option Path) (file_path q : Path)
  : Prop :=
  exists br rel, backup_root = Some br /\
               PathLib.relative_to file_path root = Some rel /\
               q = PathLib.joinpath br rel.

(** From [f] to [f']: every node but the one at [output_path] is kept as it
    is, and the only regular files that may be new are the output and the
    backup. *)
Definition conversion_footprint (root : Path) (backup_root : option Path)
  (file_path output_path : Path) (f f' : FS) : Prop :=
  (forall q n, Fs.node_at f q = Some n -> q <> output_path -> Fs.node_at f' q = Some n) /\
  (forall q, Fs.is_file f' q = true ->
           Fs.is_file f q = true \/ q = output_path \/
           backup_dest root backup_root file_path q).

End FootprintVocabulary.

Section DeletionVocabulary.

Context {pil : Pillow}.

(** What may be said of a removal [optimize_image file_path] attempts. *)
Definition guarded_unlink (cfg : Config) (file_path : Path) (e : Effect) : Prop :=
  forall q, e = EUnlink q ->
    q = file_path /\ DELETE_ORIGINALS cfg = true /\
    PathLib.with_suffix file_path ".webp" <> Some q.

(** The event is not a removal. *)
Definition not_an_unlink (e : Effect) : Prop :=
  match e with
  | EUnlink _ => False
  | _ => True
  end.

End DeletionVocabulary.

Section ReportVocabulary.

Context {pil : Pillow}.

(** The line [optimize_image] prints for an exception it caught. *)
Definition failure_line (file_path : Path) (e : Exception) : Effect :=
  EPrint ERROR
    match e with
    | UnidentifiedImageError => MsgUnidentified file_path
    | _ => MsgUnexpected file_path e
    end.

End ReportVocabulary.

Section AnimationVocabulary.

Context {pil : Pillow}.


End AnimationVocabulary.

Section PipelineVocabulary.

Context {pil : Pillow}.

(** Lines 173-198 with the handlers: what follows once [img_to_save] and
    [is_animated] are known. *)
Definition finish_file (cfg : Config) (file_path root : Path)
  (backup_root : option Path) (output_path : Path) (img_to_save : Image)
  (is_animated : bool) : M unit :=
  try_except
    (bind (bind match backup_root with
                | Some br => backup_original cfg root br file_path
                | None => ret tt
                end
             (fun _ => save_image img_to_save output_path (save_kwargs cfg is_animated)))
       (fun _ => verify_and_delete cfg file_path output_path))
    (report_failure file_path).

End PipelineVocabulary.

(** The sub-steps a file goes through, and the step each event belongs to. *)
Inductive Step :=
  | SkipCheck | Decode | Transform | Backup | Encode | Verify | Delete | Report.

Section OrderVocabulary.

Context {pil : Pillow}.

Definition step_of (e : Effect) : option Step :=
  match e with
  | EPrint _ m =>
    match m with
    | MsgSkipping _ => Some SkipCheck
    | MsgProcessing _ => Some Decode
    | MsgResized _ _ | MsgAnimation _ => Some Transform
    | MsgBackup _ | MsgBackupExisted _ => Some Backup
    | MsgOptimized _ _ _ _ | MsgWebpFailed _ => Some Verify
    | MsgOriginalDeleted _ | MsgDeleteFailed _ _ => Some Delete
    | MsgUnidentified _ | MsgUnexpected _ _ => Some Report
    | _ => None
    end
  | EOpen _ => Some Decode
  | EExifTranspose | EResize _ | EGetData | ENew _ _ | EPutData | EConvert _ =>
    Some Transform
  | EMkdir _ | EReadBytes _ | EWriteBytes _ _ => Some Backup
  | ESave _ _ _ => Some Encode
  | EUnlink _ => Some Delete
  | EInput => None
  end.

(** The order in which the script takes the steps. *)
Definition code_order (s : Step) : nat :=
  match s with
  | SkipCheck => 0 | Decode => 1 | Transform => 2 | Backup => 3
  | Encode => 4 | Verify => 5 | Delete => 6 | Report => 7
  end.

(** The order with the backup ahead of the transformation. *)
Definition backup_first_order (s : Step) : nat :=
  match s with
  | SkipCheck => 0 | Decode => 1 | Backup => 2 | Transform => 3
  | Encode => 4 | Verify => 5 | Delete => 6 | Report => 7
  end.

(** [e] belongs to a step that [order] does not put before [n]. *)
Definition not_before (order : Step -> nat) (n : nat) (e : Effect) : bool :=
  match step_of e with
  | Some s => (n <=? order s)%nat
  | None => false
  end.

(** Every event of [t] belongs to a step, and no event of a later step
    comes before an event of an earlier one. *)
Fixpoint in_order (order : Step -> nat) (t : list Effect) : bool :=
  match t with
  | [] => true
  | e :: t' =>
    match step_of e with
    | Some s => forallb (not_before order (order s)) t' && in_order order t'
    | None => false
    end
  end.

(** [e] belongs to a step placed from [lo] to [hi] by the script. *)
Definition step_within (lo hi : nat) (e : Effect) : Prop :=
  exists s, step_of e = Some s /\ (lo <= code_order s <= hi)%nat.

(** The events [m] adds are in the order of the script, within the steps
    from [lo] to [hi]. *)
Definition emits_sorted {A : Type} (lo hi : nat) (m : M A) : Prop :=
  forall w, exists t, trace (snd (m w)) = trace w ++ t /\
                    in_order code_order t = true /\ Forall (step_within lo hi) t.

(** The calls that write to the tree or remove from it outside the backup
    folder, and the calls that make the backup. *)
Definition touches_tree (e : Effect) : bool :=
  match e with
  | ESave _ _ _ | EUnlink _ => true
  | _ => false
  end.

Definition makes_backup (e : Effect) : bool :=
  match e with
  | EMkdir _ | EReadBytes _ | EWriteBytes _ _ => true
  | _ => false
  end.

End OrderVocabulary.

Section BackupOnceVocabulary.

Context {pil : Pillow}.




End BackupOnceVocabulary.

(** ** Vocabulary of the further properties *)

Section WalkVocabulary.

Context {pil : Pillow}.

(** What [iter_image_files(root)] yields on a tree that stays as it is
    while it is walked. *)
Definition iter_image_files (cfg : Config) (f : FS) (root : Path) : list Path :=
  List.filter (is_image_file cfg f) (iter_entries cfg f root).

(** [backup_root] of [main], line 236. *)
Definition main_backup_root (cfg : Config) (root : Path) : option Path :=
  if MAKE_BACKUP cfg then Some (PathLib.joinpath root [BACKUP_FOLDER_NAME cfg])
  else None.

(** The tree when the loop of [main] starts: with the backup folder made,
    when backups are enabled. *)
Definition tree_at_loop (cfg : Config) (root : Path) (f : FS) : Result FS :=
  if MAKE_BACKUP cfg then Fs.mkdir f (PathLib.joinpath root [BACKUP_FOLDER_NAME cfg])
  else Ok f.

(** The call that makes the backup folder, when backups are enabled. *)
Definition backup_folder_events (cfg : Config) (root : Path) : list Effect :=
  if MAKE_BACKUP cfg then [EMkdir (PathLib.joinpath root [BACKUP_FOLDER_NAME cfg])]
  else [].

(** The lines that close a run over [count] files, lines 243-251. *)
Definition closing_lines (count : nat) : list Effect :=
  if (count =? 0)%nat then [EPrint WARNING MsgNoImages]
  else [EPrint SUCCESS (MsgFinished count); EPrint INFO MsgReminder].

(** An extension as [pathlib] sees one: a dot, then at least one character,
    none of them a dot. *)
Definition is_extension (ext : string) : Prop :=
  exists e, ext = String "." e /\ e <> "" /\ Str.rfind "." e = None.

(** From [f] to [f']: whatever the tree held is still there as it was, or
    it had a supported extension and its [.webp] output is in place and not
    empty. *)
Definition kept_or_converted (cfg : Config) (f f' : FS) : Prop :=
  forall q n, Fs.node_at f q = Some n ->
    Fs.node_at f' q = Some n \/
    (Str.lower (PathLib.suffix q) ∈ SUPPORTED_EXTENSIONS cfg /\
     exists out, PathLib.with_suffix q ".webp" = Some out /\
                 output_verified f' out = true).

(** The regular files [f'] has and [f] had not are [.webp] files or lie in
    the backup folder of [root]. *)
Definition adds_outputs_and_backups (cfg : Config) (root : Path) (f f' : FS) : Prop :=
  forall q, Fs.is_file f' q = true ->
    Fs.is_file f q = true \/ PathLib.suffix q = ".webp" \/
    (MAKE_BACKUP cfg = true /\
     PathLib.joinpath root [BACKUP_FOLDER_NAME cfg] `prefix_of` q).

(** The event is neither a removal nor the prompt. *)
Definition no_removal_no_prompt (e : Effect) : Prop :=
  match e with
  | EUnlink _ | EInput => False
  | _ => True
  end.

End WalkVocabulary.

(** Two settings besides the shipped one, to run the script on the small
    tree with the originals kept and with backups off. *)
Definition keep_originals_config : Config := {|
  WEBP_QUALITY := WEBP_QUALITY source_config;
  WEBP_METHOD := WEBP_METHOD source_config;
  MAX_WIDTH := MAX_WIDTH source_config;
  MAX_HEIGHT := MAX_HEIGHT source_config;
  RECURSIVE := RECURSIVE source_config;
  DELETE_ORIGINALS := false;
  MAKE_BACKUP := MAKE_BACKUP source_config;
  BACKUP_FOLDER_NAME := BACKUP_FOLDER_NAME source_config;
  SUPPORTED_EXTENSIONS := SUPPORTED_EXTENSIONS source_config;
|}.

Definition no_backup_config : Config := {|
  WEBP_QUALITY := WEBP_QUALITY source_config;
  WEBP_METHOD := WEBP_METHOD source_config;
  MAX_WIDTH := MAX_WIDTH source_config;
  MAX_HEIGHT := MAX_HEIGHT source_config;
  RECURSIVE := RECURSIVE source_config;
  DELETE_ORIGINALS := DELETE_ORIGINALS source_config;
  MAKE_BACKUP := false;
  BACKUP_FOLDER_NAME := BACKUP_FOLDER_NAME source_config;
  SUPPORTED_EXTENSIONS := SUPPORTED_EXTENSIONS source_config;
|}.

(** The small tree with an empty [empty.png] beside the other files. *)
Definition empty_original_world : @World Toy.pillow :=
  {| fs := <[ Toy.root ++ ["empty.png"] := File [] ]> Toy.tree;
     stdin := []; trace := [] |}.



Section ReplayVocabulary.

Context {pil : Pillow}.

(** The result of [m] and the tree it leaves depend on the tree alone, not
    on what was printed or typed before. *)
Definition tree_determined {A : Type} (m : M A) : Prop :=
  forall w w', fs w = fs w' ->
    fst (m w) = fst (m w') /\ fs (snd (m w)) = fs (snd (m w')).

(** The result of [m] does not depend on the world at all. *)
Definition world_blind {A : Type} (m : M A) : Prop :=
  forall w w', fst (m w) = fst (m w').

End ReplayVocabulary.

(** ** The status line

    [print_status], lines 58-70: the text that goes to the console for a
    message and a status, given [os.name]. *)

Module Console.












End Console.

Section VerdictVocabulary.

Context {pil : Pillow}.





End VerdictVocabulary.

(** * Properties *)

(** ** Strings and paths *)

Section PathFacts.

Lemma append_cons (c : ascii) (a b : string) : String c a +:+ b = String c (a +:+ b).
Proof. reflexivity. Qed.

Lemma append_nil (b : string) : "" +:+ b = b.
Proof. reflexivity. Qed.

Lemma string_app_length (a b : string) :
  String.length (a +:+ b) = (String.length a + String.length b)%nat.
Proof.
  induction a as [|c a IH]; rewrite ?append_cons, ?append_nil; simpl;
  [reflexivity | now rewrite IH].
Qed.

Lemma take_drop (i : nat) (s : string) : Str.take i s +:+ Str.drop i s = s.
Proof.
  revert s; induction i as [|i IH]; intros [|c s]; try reflexivity.
  cbn [Str.take Str.drop]. rewrite append_cons. f_equal. apply IH.
Qed.

Lemma drop_length (i : nat) (s : string) :
  String.length (Str.drop i s) = (String.length s - i)%nat.
Proof.
  revert s; induction i as [|i IH]; intros [|c s]; simpl;
  try reflexivity; try lia.
  apply IH.
Qed.

Lemma take_length (i : nat) (s : string) :
  (i <= String.length s)%nat -> String.length (Str.take i s) = i.
Proof.
  revert s; induction i as [|i IH]; intros [|c s]; simpl; intros H;
  try reflexivity; try lia.
  rewrite IH; [reflexivity | lia].
Qed.

Lemma string_app_inv_head (a b c : string) : a +:+ b = a +:+ c -> b = c.
Proof.
  induction a as [|x a IH]; rewrite ?append_cons, ?append_nil; intros H;
  [exact H | injection H; auto].
Qed.

Lemma rfind_bound (c : ascii) (s : string) (i : nat) :
  Str.rfind c s = Some i -> (i < String.length s)%nat.
Proof.
  revert i; induction s as [|a s IH]; simpl; intros i H; [discriminate |].
  destruct (Str.rfind c s) as [j|].
  - injection H as <-. specialize (IH j eq_refl). lia.
  - destruct (Ascii.eqb a c); [injection H as <-; lia | discriminate].
Qed.

(** Appending [.webp] puts the last dot right after the old text. *)
Lemma rfind_dot_webp (s : string) :
  Str.rfind "." (s +:+ ".webp") = Some (String.length s).
Proof.
  induction s as [|a s IH]; rewrite ?append_cons, ?append_nil; [reflexivity |].
  cbn [Str.rfind String.length]. now rewrite IH.
Qed.

Lemma drop_app_length (a b : string) : Str.drop (String.length a) (a +:+ b) = b.
Proof.
  induction a as [|x a IH]; rewrite ?append_cons, ?append_nil;
  [now destruct b | exact IH].
Qed.

Lemma suffix_of_app_webp (s : string) :
  s <> "" -> PathLib.suffix_of_name (s +:+ ".webp") = ".webp".
Proof.
  intros Hs. unfold PathLib.suffix_of_name.
  rewrite rfind_dot_webp, string_app_length, drop_app_length.
  destruct s as [|a s]; [congruence |].
  assert (H0 : (0 <? String.length (String a s))%nat = true)
  by (apply Nat.ltb_lt; simpl; lia).
  assert (H1 : (String.length (String a s)
              <? String.length (String a s) + String.length ".webp" - 1)%nat = true)
  by (apply Nat.ltb_lt; simpl; lia).
  now rewrite H0, H1.
Qed.

(** A non-empty suffix starts after at least one character of the name. *)
Lemma suffix_of_name_split (n : string) :
  PathLib.suffix_of_name n <> "" ->
  exists stem, stem <> "" /\ n = stem +:+ PathLib.suffix_of_name n /\
  Str.take (String.length n - String.length (PathLib.suffix_of_name n)) n = stem.
Proof.
  unfold PathLib.suffix_of_name.
  destruct (Str.rfind "." n) as [i|] eqn:Hi; [| congruence].
  destruct ((0 <? i)%nat && (i <? String.length n - 1)%nat) eqn:Hc; [| congruence].
  intros _. apply andb_true_iff in Hc as [H0 H1].
  apply Nat.ltb_lt in H0, H1.
  exists (Str.take i n). split; [| split].
  - intros E. apply (f_equal String.length) in E.
    rewrite take_length in E by lia. simpl in E. lia.
  - symmetry; apply take_drop.
  - rewrite drop_length. f_equal. lia.
Qed.

(** The name [with_suffix] builds always carries the suffix [.webp]. *)
Lemma suffix_name_with_suffix (n : string) :
  n <> "" -> PathLib.suffix_of_name (PathLib.name_with_suffix n ".webp") = ".webp".
Proof.
  intros Hn. unfold PathLib.name_with_suffix.
  destruct (PathLib.suffix_of_name n) eqn:Hs.
  - now apply suffix_of_app_webp.
  - destruct (suffix_of_name_split n) as (stem & Hne & _ & Ht); [congruence |].
    rewrite Hs in Ht. rewrite Ht. now apply suffix_of_app_webp.
Qed.

(** The name is unchanged only when it already ends in [.webp]. *)
Lemma name_with_suffix_fixed (n : string) :
  PathLib.name_with_suffix n ".webp" = n -> PathLib.suffix_of_name n = ".webp".
Proof.
  unfold PathLib.name_with_suffix.
  destruct (PathLib.suffix_of_name n) eqn:Hs.
  - intros E. apply (f_equal String.length) in E.
    rewrite string_app_length in E. simpl in E. lia.
  - destruct (suffix_of_name_split n) as (stem & _ & Hsplit & Ht); [congruence |].
    rewrite Hs in Ht, Hsplit. rewrite Ht. intros E.
    rewrite Hsplit in E. now apply string_app_inv_head in E.
Qed.

Lemma name_snoc (d : Path) (n : string) : PathLib.name (d ++ [n]) = n.
Proof. unfold PathLib.name. apply last_last. Qed.

Lemma parent_snoc (d : Path) (n : string) : PathLib.parent (d ++ [n]) = d.
Proof. unfold PathLib.parent. apply removelast_last. Qed.

Lemma path_split (p : Path) :
  PathLib.name p <> "" -> p = PathLib.parent p ++ [PathLib.name p].
Proof.
  intros H. unfold PathLib.name, PathLib.parent in *.
  apply app_removelast_last. intros ->. now apply H.
Qed.

Lemma with_suffix_Some (p out : Path) :
  PathLib.with_suffix p ".webp" = Some out ->
  PathLib.name p <> "" /\
  out = PathLib.parent p ++ [PathLib.name_with_suffix (PathLib.name p) ".webp"].
Proof.
  unfold PathLib.with_suffix.
  destruct (PathLib.name p) eqn:Hn; [discriminate |].
  intros [= <-]. split; [discriminate | reflexivity].
Qed.

Lemma with_suffix_nonempty (p out : Path) :
  PathLib.with_suffix p ".webp" = Some out -> out <> [].
Proof.
  intros H. apply with_suffix_Some in H as [_ ->]. now destruct (PathLib.parent p).
Qed.

Lemma suffix_with_suffix (p out : Path) :
  PathLib.with_suffix p ".webp" = Some out -> PathLib.suffix out = ".webp".
Proof.
  intros H. apply with_suffix_Some in H as [Hn ->].
  unfold PathLib.suffix. rewrite name_snoc. now apply suffix_name_with_suffix.
Qed.

Lemma with_suffix_fixed (p : Path) :
  PathLib.with_suffix p ".webp" = Some p -> PathLib.suffix p = ".webp".
Proof.
  intros H. pose proof (suffix_with_suffix _ _ H). assumption.
Qed.

End PathFacts.

(** ** The skip of files already converted *)

Section Skip.

Context {pil : Pillow}.
Variable cfg : Config.

Lemma extend_nil (w : World) : extend w [] = w.
Proof. destruct w; unfold extend; simpl. now rewrite app_nil_r. Qed.

Lemma extend_extend (w : World) (t u : list Effect) :
  extend (extend w t) u = extend w (t ++ u).
Proof. unfold extend; simpl. now rewrite app_assoc. Qed.

Lemma optimize_image_skip (file_path root : Path) (backup_root : option Path)
  (output_path : Path) (w : World) :
  PathLib.with_suffix file_path ".webp" = Some output_path ->
  Fs.exists_ (fs w) output_path = true ->
  optimize_image cfg file_path root backup_root w
  = (Ok tt, extend w [EPrint WARNING (MsgSkipping file_path)]).
Proof.
  intros Hout Hex. unfold optimize_image. rewrite Hout.
  unfold bind, path_exists, get_fs, ret. simpl. rewrite Hex. reflexivity.
Qed.

(** C1. When the derived output path ([file_path] with its extension
    replaced by [.webp]) already exists, [optimize_image] returns at once:
    its only effect is the warning line.  Nothing is opened, copied,
    encoded or removed, and the file system is the one it started from. *)
Theorem C1_existing_output_is_skipped (file_path root : Path)
  (backup_root : option Path) (output_path : Path) (w : World) :
  PathLib.with_suffix file_path ".webp" = Some output_path ->
  Fs.exists_ (fs w) output_path = true ->
  let r := optimize_image cfg file_path root backup_root w in
  fst r = Ok tt /\
  fs (snd r) = fs w /\
  trace (snd r) = trace w ++ [EPrint WARNING (MsgSkipping file_path)].
Proof.
  intros Hout Hex. simpl. rewrite (optimize_image_skip _ _ _ _ _ Hout Hex).
  repeat split.
Qed.

Lemma rerun_skip (file_path root : Path) (backup_root : option Path)
  (output_path : Path) (w : World) (n : nat) :
  PathLib.with_suffix file_path ".webp" = Some output_path ->
  Fs.exists_ (fs w) output_path = true ->
  rerun cfg file_path root backup_root n w
  = extend w (repeat (EPrint WARNING (MsgSkipping file_path)) n).
Proof.
  intros Hout Hex. unfold rerun. induction n as [|n IH]; simpl.
  - now rewrite extend_nil.
  - rewrite IH.
    rewrite (optimize_image_skip _ _ _ output_path) by (assumption || exact Hex).
    simpl. rewrite extend_extend. f_equal.
    symmetry. apply repeat_cons.
Qed.

(** C9. The skip test looks at the existence of the output only.  With a
    zero-length [.webp] in place, every run of [optimize_image] on the
    source is a skip, however often it is repeated: the file system stays
    as it is (the empty output included) and each run only prints the
    warning. *)
Theorem C9_empty_output_blocks_reprocessing (file_path root : Path)
  (backup_root : option Path) (output_path : Path) (w : World) (n : nat) :
  PathLib.with_suffix file_path ".webp" = Some output_path ->
  Fs.node_at (fs w) output_path = Some (File []) ->
  let w' := rerun cfg file_path root backup_root n w in
  fs w' = fs w /\
  Fs.st_size (fs w') output_path = Ok 0%Z /\
  trace w' = trace w ++ repeat (EPrint WARNING (MsgSkipping file_path)) n.
Proof.
  intros Hout Hnode. simpl.
  rewrite (rerun_skip _ _ _ output_path) by
  (try assumption; unfold Fs.exists_; now rewrite Hnode).
  simpl. unfold Fs.st_size. rewrite Hnode. repeat split.
Qed.

End Skip.

(** ** The confirmation prompt *)

Section Confirmation.

Context {pil : Pillow}.
Variable cfg : Config.

Lemma banner_run (root : Path) (w : World) :
  banner cfg root w = (Ok tt, extend w (banner_events cfg root)).
Proof.
  unfold banner, banner_events, print_status, bind, emit, ret, extend.
  destruct w as [f i t]; simpl.
  destruct (DELETE_ORIGINALS cfg), (MAKE_BACKUP cfg); simpl;
  rewrite <- ?app_assoc; reflexivity.
Qed.






End Confirmation.

(** ** Reasoning about computations *)

Section Logic.

Context {pil : Pillow}.

(** *** Events *)

Lemma emits_ret {A} (Φ : Effect -> Prop) (a : A) : emits Φ (ret a).
Proof. intros w. exists []. simpl. now rewrite app_nil_r. Qed.

Lemma emits_raise {A} (Φ : Effect -> Prop) (e : Exception) : emits Φ (@raise _ A e).
Proof. intros w. exists []. simpl. now rewrite app_nil_r. Qed.

Lemma emits_lift {A} (Φ : Effect -> Prop) (r : Result A) : emits Φ (lift r).
Proof. destruct r; [apply emits_ret | apply emits_raise]. Qed.

Lemma emits_get_fs (Φ : Effect -> Prop) : emits Φ get_fs.
Proof. intros w. exists []. simpl. now rewrite app_nil_r. Qed.

Lemma emits_put_fs (Φ : Effect -> Prop) (f : FS) : emits Φ (put_fs f).
Proof. intros w. exists []. simpl. now rewrite app_nil_r. Qed.

Lemma emits_emit (Φ : Effect -> Prop) (e : Effect) : Φ e -> emits Φ (emit e).
Proof. intros H w. exists [e]. simpl. split; [reflexivity | now constructor]. Qed.

Lemma emits_input (Φ : Effect -> Prop) : Φ EInput -> emits Φ input.
Proof.
  intros H w. exists [EInput]. unfold input.
  destruct (stdin w); simpl; (split; [reflexivity | now constructor]).
Qed.

Lemma emits_bind {A B} (Φ : Effect -> Prop) (m : M A) (k : A -> M B) :
  emits Φ m -> (forall a, emits Φ (k a)) -> emits Φ (bind m k).
Proof.
  intros Hm Hk w. unfold bind. destruct (Hm w) as (t & Ht & HΦ).
  destruct (m w) as [[a|e] w']; simpl in *.
  - destruct (Hk a w') as (u & Hu & HΨ). exists (t ++ u). split.
  + now rewrite Hu, Ht, app_assoc.
  + now apply Forall_app.
  - now exists t.
Qed.

Lemma emits_try {A} (Φ : Effect -> Prop) (m : M A) (h : Exception -> M A) :
  emits Φ m -> (forall e, emits Φ (h e)) -> emits Φ (try_except m h).
Proof.
  intros Hm Hh w. unfold try_except. destruct (Hm w) as (t & Ht & HΦ).
  destruct (m w) as [[a|e] w']; simpl in *.
  - now exists t.
  - destruct (Hh e w') as (u & Hu & HΨ). exists (t ++ u). split.
  + now rewrite Hu, Ht, app_assoc.
  + now apply Forall_app.
Qed.

Lemma emits_weaken {A} (Φ Ψ : Effect -> Prop) (m : M A) :
  (forall e, Φ e -> Ψ e) -> emits Φ m -> emits Ψ m.
Proof.
  intros H Hm w. destruct (Hm w) as (t & Ht & HΦ). exists t.
  split; [assumption |]. eapply Forall_impl; eauto.
Qed.

(** The events of a computation are determined by the worlds before and
    after it. *)
Lemma emits_unique {A} (Φ : Effect -> Prop) (m : M A) (w : World) (t : list Effect) :
  emits Φ m -> trace (snd (m w)) = trace w ++ t -> Forall Φ t.
Proof.
  intros Hm Ht. destruct (Hm w) as (u & Hu & HΦ).
  rewrite Hu in Ht. now apply app_inv_head in Ht as <-.
Qed.

(** *** Computations that do not write *)

Lemma read_only_ret {A} (a : A) : read_only (ret a).
Proof. now intros w. Qed.

Lemma read_only_raise {A} (e : Exception) : read_only (@raise _ A e).
Proof. now intros w. Qed.

Lemma read_only_lift {A} (r : Result A) : read_only (lift r).
Proof. destruct r; [apply read_only_ret | apply read_only_raise]. Qed.

Lemma read_only_get_fs : read_only get_fs.
Proof. now intros w. Qed.

Lemma read_only_emit (e : Effect) : read_only (emit e).
Proof. now intros w. Qed.

Lemma read_only_bind {A B} (m : M A) (k : A -> M B) :
  read_only m -> (forall a, read_only (k a)) -> read_only (bind m k).
Proof.
  intros Hm Hk w. unfold bind. destruct (Hm w) as [Hf Hi].
  destruct (m w) as [[a|e] w']; simpl in *.
  - destruct (Hk a w') as [Hf' Hi']. split; congruence.
  - now split.
Qed.

Lemma read_only_try {A} (m : M A) (h : Exception -> M A) :
  read_only m -> (forall e, read_only (h e)) -> read_only (try_except m h).
Proof.
  intros Hm Hh w. unfold try_except. destruct (Hm w) as [Hf Hi].
  destruct (m w) as [[a|e] w']; simpl in *.
  - now split.
  - destruct (Hh e w') as [Hf' Hi']. split; congruence.
Qed.

End Logic.

(** Structural proof search for [emits] and [read_only]: the computation
    is taken apart along its binds and case distinctions; the events are
    left as goals. *)
Ltac emits_step :=
  first
    [ apply emits_ret | apply emits_raise | apply emits_lift
    | apply emits_get_fs | apply emits_put_fs
    | apply emits_emit | apply emits_input
    | apply emits_bind; [| intros ?]
    | apply emits_try; [| intros ?]
    | match goal with
      | |- emits _ (if ?b then _ else _) => destruct b eqn:?
      | |- emits _ (match ?x with _ => _ end) => destruct x eqn:?
      | |- emits _ (let '(_, _) := ?x in _) => destruct x eqn:?
      end ].

Ltac read_only_step :=
  first
    [ apply read_only_ret | apply read_only_raise | apply read_only_lift
    | apply read_only_get_fs | apply read_only_emit
    | apply read_only_bind; [| intros ?]
    | apply read_only_try; [| intros ?]
    | match goal with
      | |- read_only (if ?b then _ else _) => destruct b eqn:?
      | |- read_only (match ?x with _ => _ end) => destruct x eqn:?
      | |- read_only (let '(_, _) := ?x in _) => destruct x eqn:?
      end ].

Ltac unfold_script :=
  unfold optimize_image, report_failure, verify_and_delete, convert_file,
    prepare_image,
    backup_original, normalize_mode, strip_metadata, resize_if_needed,
    save_image, encode_to, open_image, mkdir_parents_exist_ok, mkdir_exist_ok, unlink,
    write_bytes, read_bytes, stat_size, path_exists, print_status.

(** Evaluation of a computation on a world, up to the next call whose
    result is not known. *)
Ltac run_script :=
  unfold_script;
  unfold bind, try_except, emit, get_fs, put_fs, lift, ret, raise;
  cbn beta iota; cbn [fs stdin trace fst snd negb].

Section Deletion.

Context {pil : Pillow}.
Variable cfg : Config.

Lemma optimize_image_unlinks (file_path root : Path) (backup_root : option Path) :
  emits (guarded_unlink cfg file_path) (optimize_image cfg file_path root backup_root).
Proof.
  unfold_script. repeat emits_step.
  all: try (intros q [=]).
  match goal with
  | Hguard : DELETE_ORIGINALS cfg && negb (bool_decide (_ = _)) = true,
  Hout : PathLib.with_suffix file_path ".webp" = Some _ |- _ =>
    apply andb_true_iff in Hguard as [Hdel Hne];
    apply negb_true_iff, bool_decide_eq_false in Hne;
    subst q; rewrite Hout; repeat split; congruence
  end.
Qed.

End Deletion.

(** ** The file system *)

Section FsFacts.

Implicit Types (f : FS) (p q : Path) (b : Bytes).

Lemma node_at_insert f p q (n : Node) :
  p <> [] ->
  Fs.node_at (<[p := n]> f) q = if decide (p = q) then Some n else Fs.node_at f q.
Proof.
  intros Hp. unfold Fs.node_at. destruct q as [|c q].
  - destruct (decide (p = [])); [contradiction | reflexivity].
  - rewrite lookup_insert. destruct (decide (p = c :: q)); reflexivity.
Qed.

Lemma node_at_delete f p q :
  p <> [] ->
  Fs.node_at (delete p f) q = if decide (p = q) then None else Fs.node_at f q.
Proof.
  intros Hp. unfold Fs.node_at. destruct q as [|c q].
  - destruct (decide (p = [])); [contradiction | reflexivity].
  - rewrite lookup_delete. destruct (decide (p = c :: q)); reflexivity.
Qed.

Lemma node_at_nil f : Fs.node_at f [] = Some Dir.
Proof. reflexivity. Qed.

Lemma write_file_Ok f f' p b :
  Fs.write_file f p b = Ok f' ->
  p <> [] /\ f' = <[p := File b]> f /\ Fs.is_dir f p = false /\
  Fs.is_dir f (PathLib.parent p) = true.
Proof.
  unfold Fs.write_file, Fs.is_dir.
  destruct (Fs.node_at f p) as [[c|]|] eqn:Hp;
  destruct (Fs.node_at f (PathLib.parent p)) as [[c'|]|]; try discriminate;
  intros [= <-]; (split; [intros ->; discriminate |]); auto.
Qed.

Lemma write_file_success f p b :
  Fs.is_dir f p = false -> Fs.is_dir f (PathLib.parent p) = true ->
  Fs.write_file f p b = Ok (<[p := File b]> f).
Proof.
  unfold Fs.write_file, Fs.is_dir.
  destruct (Fs.node_at f p) as [[c|]|];
  destruct (Fs.node_at f (PathLib.parent p)) as [[c'|]|]; congruence.
Qed.

Lemma unlink_Ok f f' p :
  Fs.unlink f p = Ok f' ->
  p <> [] /\ f' = delete p f /\ Fs.is_file f p = true.
Proof.
  unfold Fs.unlink, Fs.is_file.
  destruct (Fs.node_at f p) as [[c|]|] eqn:Hp; try discriminate.
  intros [= <-]. split; [intros ->; discriminate | auto].
Qed.


Lemma fs_adds_dirs_refl f : fs_adds_dirs f f.
Proof. intros q. now left. Qed.

Lemma fs_adds_dirs_trans f1 f2 f3 :
  fs_adds_dirs f1 f2 -> fs_adds_dirs f2 f3 -> fs_adds_dirs f1 f3.
Proof.
  intros H12 H23 q. destruct (H12 q) as [E1 | [N1 D1]], (H23 q) as [E2 | [N2 D2]].
  - left; congruence.
  - right; split; congruence.
  - right; split; congruence.
  - congruence.
Qed.

Lemma mkdir_Ok f f' p :
  Fs.mkdir f p = Ok f' -> fs_adds_dirs f f' /\ Fs.is_dir f' p = true.
Proof.
  unfold Fs.mkdir, Fs.is_dir.
  destruct (Fs.node_at f p) as [[c|]|] eqn:Hp; try discriminate.
  - intros [= <-]. split; [apply fs_adds_dirs_refl | now rewrite Hp].
  - destruct (Fs.node_at f (PathLib.parent p)) as [[c'|]|]; try discriminate.
    intros [= <-].
    assert (Hne : p <> []) by (intros ->; discriminate).
    split.
    + intros q. rewrite node_at_insert by assumption.
      destruct (decide (p = q)) as [<- | _]; [right; auto | now left].
    + rewrite node_at_insert by assumption.
      destruct (decide (p = p)); [reflexivity | contradiction].
Qed.

Lemma mkdir_from_Ok f f' (pre rest : Path) :
  Fs.mkdir_from f pre rest = Ok f' ->
  fs_adds_dirs f f' /\ (Fs.is_dir f pre = true -> Fs.is_dir f' (pre ++ rest) = true).
Proof.
  revert f pre. induction rest as [|c rest IH]; intros f pre; simpl.
  - intros [= <-]. split; [apply fs_adds_dirs_refl | now rewrite app_nil_r].
  - destruct (Fs.mkdir f (pre ++ [c])) as [f1|e] eqn:Hmk; [| discriminate].
    intros Hrest. apply mkdir_Ok in Hmk as [Hadd Hdir].
    apply IH in Hrest as [Hadd' Hdir'].
    split; [eapply fs_adds_dirs_trans; eauto |].
    intros _. rewrite <- app_assoc in Hdir'. now apply Hdir'.
Qed.

(** Only nodes on the way to the folder are touched. *)
Lemma mkdir_from_touches f f' (pre rest : Path) q :
  Fs.mkdir_from f pre rest = Ok f' ->
  Fs.node_at f' q <> Fs.node_at f q -> q `prefix_of` pre ++ rest.
Proof.
  revert f pre. induction rest as [|c rest IH]; intros f pre; simpl.
  - intros [= <-] H. now contradiction H.
  - destruct (Fs.mkdir f (pre ++ [c])) as [f1|e] eqn:Hmk; [| discriminate].
    intros Hrest Hq.
    destruct (decide (Fs.node_at f' q = Fs.node_at f1 q)) as [E | N].
    + assert (Hq1 : Fs.node_at f1 q <> Fs.node_at f q) by congruence.
      unfold Fs.mkdir in Hmk.
      destruct (Fs.node_at f (pre ++ [c])) as [[b|]|] eqn:Hn; try discriminate.
      * injection Hmk as <-. now contradiction Hq1.
      * destruct (Fs.node_at f (PathLib.parent (pre ++ [c]))) as [[b|]|];
          try discriminate.
        injection Hmk as <-.
        assert (Hne : pre ++ [c] <> []) by now destruct pre.
        rewrite node_at_insert in Hq1 by assumption.
        case_decide as Hpq; [| now contradiction Hq1].
        exists rest. now rewrite <- Hpq, <- app_assoc.
    + specialize (IH _ _ Hrest N). now rewrite <- app_assoc in IH.
Qed.

Lemma mkdir_parents_touches f f' p q :
  Fs.mkdir_parents f p = Ok f' ->
  Fs.node_at f' q <> Fs.node_at f q -> q `prefix_of` p.
Proof. intros H. now apply (mkdir_from_touches f f' [] p q). Qed.

Lemma not_prefix_of_parent p : p <> [] -> ¬ p `prefix_of` PathLib.parent p.
Proof.
  intros Hp H. apply prefix_length in H.
  destruct (exists_last Hp) as (d & c & ->).
  rewrite parent_snoc, length_app in H. simpl in H. lia.
Qed.

Lemma mkdir_parents_Ok f f' p :
  Fs.mkdir_parents f p = Ok f' -> fs_adds_dirs f f' /\ Fs.is_dir f' p = true.
Proof.
  intros H. apply mkdir_from_Ok in H as [Hadd Hdir]. split; [assumption |].
  now apply Hdir.
Qed.

Lemma fs_extends_refl f : fs_extends f f.
Proof. now intros q n. Qed.

Lemma fs_extends_trans f1 f2 f3 :
  fs_extends f1 f2 -> fs_extends f2 f3 -> fs_extends f1 f3.
Proof. intros H12 H23 q n H. now apply H23, H12. Qed.

Lemma fs_adds_dirs_extends f f' : fs_adds_dirs f f' -> fs_extends f f'.
Proof. intros H q n Hq. destruct (H q) as [E | [N _]]; congruence. Qed.

Lemma fs_extends_insert f p (n : Node) :
  p <> [] -> Fs.node_at f p = None -> fs_extends f (<[p := n]> f).
Proof.
  intros Hp Hnone q m Hq. rewrite node_at_insert by assumption.
  destruct (decide (p = q)) as [<- | _]; congruence.
Qed.

Lemma exists_false f p : Fs.exists_ f p = false <-> Fs.node_at f p = None.
Proof. unfold Fs.exists_. destruct (Fs.node_at f p); split; congruence. Qed.

Lemma is_file_true f p :
  Fs.is_file f p = true <-> exists b, Fs.node_at f p = Some (File b).
Proof.
  unfold Fs.is_file. destruct (Fs.node_at f p) as [[b|]|]; split;
  try congruence; try (intros [b' H]; congruence). eauto.
Qed.

End FsFacts.

(** ** Backups *)

Section MkdirFacts.

Implicit Types (f : FS) (p q : Path).

Lemma fs_extends_is_dir f f' p :
  fs_extends f f' -> Fs.is_dir f p = true -> Fs.is_dir f' p = true.
Proof.
  unfold Fs.is_dir. intros H. destruct (Fs.node_at f p) as [[b|]|] eqn:Hp;
  try discriminate. now rewrite (H _ _ Hp).
Qed.

Lemma all_dirs_extends f f' (pre rest : Path) :
  fs_extends f f' -> all_dirs f pre rest -> all_dirs f' pre rest.
Proof.
  intros Hext. revert pre. induction rest as [|c rest IH]; intros pre; simpl;
  [trivial |].
  intros [Hd Hrest]. split; [eapply fs_extends_is_dir; eauto | now apply IH].
Qed.

Lemma mkdir_from_all_dirs f f' (pre rest : Path) :
  Fs.mkdir_from f pre rest = Ok f' -> all_dirs f' pre rest.
Proof.
  revert f pre. induction rest as [|c rest IH]; intros f pre; simpl; [trivial |].
  destruct (Fs.mkdir f (pre ++ [c])) as [f1|e] eqn:Hmk; [| discriminate].
  intros Hrest. split; [| now apply IH in Hrest].
  apply mkdir_Ok in Hmk as [_ Hdir].
  apply mkdir_from_Ok in Hrest as [Hadd _].
  eapply fs_extends_is_dir; [apply fs_adds_dirs_extends |]; eauto.
Qed.

Lemma mkdir_is_dir f p : Fs.is_dir f p = true -> Fs.mkdir f p = Ok f.
Proof.
  unfold Fs.is_dir, Fs.mkdir. destruct (Fs.node_at f p) as [[b|]|]; congruence.
Qed.

Lemma all_dirs_mkdir_from f (pre rest : Path) :
  all_dirs f pre rest -> Fs.mkdir_from f pre rest = Ok f.
Proof.
  revert pre. induction rest as [|c rest IH]; intros pre; simpl; [reflexivity |].
  intros [Hd Hrest]. rewrite (mkdir_is_dir _ _ Hd). now apply IH.
Qed.

(** A second [mkdir(parents=True, exist_ok=True)] finds everything in
    place, also after further nodes were added. *)
Lemma mkdir_parents_again f f1 f2 p :
  Fs.mkdir_parents f p = Ok f1 -> fs_extends f1 f2 -> Fs.mkdir_parents f2 p = Ok f2.
Proof.
  intros H Hext. apply all_dirs_mkdir_from.
  eapply all_dirs_extends; [eassumption |]. eapply mkdir_from_all_dirs, H.
Qed.

End MkdirFacts.

Section Backup.

Context {pil : Pillow}.
Variable cfg : Config.

Lemma backup_original_run (root backup_root file_path rel : Path) (w : World) :
  MAKE_BACKUP cfg = true ->
  PathLib.relative_to file_path root = Some rel ->
  backup_original cfg root backup_root file_path w
  = backup_outcome backup_root file_path rel w.
Proof.
  intros Hmk Hrel. unfold backup_original, backup_outcome. rewrite Hmk, Hrel.
  unfold_script. unfold bind, emit, get_fs, put_fs, lift, ret, raise, world_after.
  cbn [negb fs stdin trace fst snd].
  destruct (Fs.mkdir_parents (fs w) _) as [f1|e]; [| reflexivity].
  cbn [negb fs stdin trace fst snd].
  destruct (Fs.exists_ f1 _); cbn [negb fs stdin trace];
  [now rewrite <- !app_assoc |].
  destruct (Fs.read_bytes f1 file_path) as [b|e]; cbn [negb fs stdin trace];
  [| now rewrite <- !app_assoc].
  destruct (Fs.write_file f1 _ b) as [f2|e]; cbn [negb fs stdin trace];
  now rewrite <- !app_assoc.
Qed.




End Backup.


(** ** What a conversion does to the file system *)

Section Footprint.

Context {pil : Pillow}.
Variable cfg : Config.

Section Steps.

Variable R : FS -> FS -> Prop.
Hypothesis R_refl : forall f, R f f.
Hypothesis R_trans : forall f1 f2 f3, R f1 f2 -> R f2 f3 -> R f1 f3.

Lemma fs_step_read_only {A : Type} (m : M A) : read_only m -> fs_step R m.
Proof. intros H w. destruct (H w) as [-> _]. apply R_refl. Qed.

Lemma fs_step_bind {A B : Type} (m : M A) (k : A -> M B) :
  fs_step R m -> (forall a, fs_step R (k a)) -> fs_step R (bind m k).
Proof.
  intros Hm Hk w. specialize (Hm w). unfold bind.
  destruct (m w) as [[a|e] w1]; simpl in *; [| assumption].
  eapply R_trans; [eassumption | apply Hk].
Qed.

Lemma fs_step_try {A : Type} (m : M A) (h : Exception -> M A) :
  fs_step R m -> (forall e, fs_step R (h e)) -> fs_step R (try_except m h).
Proof.
  intros Hm Hh w. specialize (Hm w). unfold try_except.
  destruct (m w) as [[a|e] w1]; simpl in *; [assumption |].
  eapply R_trans; [eassumption | apply Hh].
Qed.

End Steps.

Lemma prepare_image_read_only (file_path : Path) :
  read_only (prepare_image cfg file_path).
Proof. unfold_script. repeat read_only_step. Qed.

Lemma conversion_footprint_refl (root : Path) (backup_root : option Path)
  (file_path output_path : Path) (f : FS) :
  conversion_footprint root backup_root file_path output_path f f.
Proof. split; auto. Qed.

Lemma conversion_footprint_trans (root : Path) (backup_root : option Path)
  (file_path output_path : Path) (f1 f2 f3 : FS) :
  conversion_footprint root backup_root file_path output_path f1 f2 ->
  conversion_footprint root backup_root file_path output_path f2 f3 ->
  conversion_footprint root backup_root file_path output_path f1 f3.
Proof.
  intros [K12 N12] [K23 N23]. split.
  - intros q n Hq Hne. apply K23; [| assumption]. now apply K12.
  - intros q Hq. destruct (N23 q Hq) as [H2 | H]; [| now right].
    apply N12, H2.
Qed.

Lemma backup_original_footprint (root br file_path output_path : Path) :
  fs_step (conversion_footprint root (Some br) file_path output_path)
  (backup_original cfg root br file_path).
Proof.
  intros w. unfold backup_original.
  destruct (MAKE_BACKUP cfg) eqn:Hmk; cbn [negb];
    [| apply conversion_footprint_refl].
  destruct (PathLib.relative_to file_path root) as [rel|] eqn:Hrel;
    [| apply conversion_footprint_refl].
  pose proof (backup_original_run cfg root br file_path rel w Hmk Hrel) as Hrun.
  unfold backup_original in Hrun. rewrite Hmk, Hrel in Hrun. cbn [negb] in Hrun.
  rewrite Hrun. clear Hrun. unfold backup_outcome.
  set (dest := PathLib.joinpath br rel).
  destruct (Fs.mkdir_parents (fs w) (PathLib.parent dest)) as [f1|e] eqn:Hdirs;
    [| apply conversion_footprint_refl].
  apply mkdir_parents_Ok in Hdirs as [Hadd Hdir].
  assert (Hstep1 : conversion_footprint root (Some br) file_path output_path (fs w) f1).
  { split.
    - intros q n Hq _. now apply (fs_adds_dirs_extends _ _ Hadd).
    - intros q Hq. left. unfold Fs.is_file in *.
      destruct (Hadd q) as [<- | [_ E]]; [assumption | now rewrite E in Hq]. }
  destruct (Fs.exists_ f1 dest) eqn:Hex; [exact Hstep1 |].
  destruct (Fs.read_bytes f1 file_path) as [b|e]; [| exact Hstep1].
  destruct (Fs.write_file f1 dest b) as [f2|e] eqn:Hwr; [| exact Hstep1].
  apply write_file_Ok in Hwr as (Hne & -> & _).
  eapply conversion_footprint_trans; [exact Hstep1 |].
  cbn [snd world_after fs]. apply exists_false in Hex. split.
  - intros q n Hq _. rewrite node_at_insert by assumption.
    case_decide; congruence.
  - intros q Hq. unfold Fs.is_file in Hq. rewrite node_at_insert in Hq by assumption.
    case_decide as Hd; [| now left].
    right; right. exists br, rel. auto.
Qed.

Lemma save_image_footprint (img : Image) (kwargs : SaveKwargs)
  (root : Path) (backup_root : option Path) (file_path output_path : Path) :
  fs_step (conversion_footprint root backup_root file_path output_path)
  (save_image img output_path kwargs).
Proof.
  intros w. unfold save_image, encode_to, bind, emit, get_fs, put_fs, lift, ret, raise.
  cbn [fs snd].
  assert (Hins : forall f' b, Fs.write_file (fs w) output_path b = Ok f' ->
          conversion_footprint root backup_root file_path output_path (fs w) f').
  { intros f' b Hwr. apply write_file_Ok in Hwr as (Hne & -> & _). split.
  - intros q n Hq Hqo. rewrite node_at_insert by assumption.
    case_decide; congruence.
  - intros q Hq. unfold Fs.is_file in Hq. rewrite node_at_insert in Hq by assumption.
    case_decide; [now right; left | now left]. }
  destruct (Image_save img kwargs) as [b | e [b|]].
  - destruct (Fs.write_file (fs w) output_path b) eqn:Hwr; cbn [fs snd];
    [eapply Hins; eauto | apply conversion_footprint_refl].
  - destruct (Fs.write_file (fs w) output_path b) eqn:Hwr; cbn [fs snd];
    [eapply Hins; eauto | apply conversion_footprint_refl].
  - destruct (Fs.write_file (fs w) output_path []); cbn [fs snd];
    apply conversion_footprint_refl.
Qed.

Lemma convert_file_footprint (file_path root : Path) (backup_root : option Path)
  (output_path : Path) :
  fs_step (conversion_footprint root backup_root file_path output_path)
  (convert_file cfg file_path root backup_root output_path).
Proof.
  unfold convert_file.
  apply fs_step_bind; [apply conversion_footprint_trans | |].
  - apply fs_step_read_only;
    [apply conversion_footprint_refl | apply prepare_image_read_only].
  - intros [img_to_save is_animated].
    apply fs_step_bind; [apply conversion_footprint_trans | |].
    + destruct backup_root as [br|].
      * apply backup_original_footprint.
      * intros w. apply conversion_footprint_refl.
    + intros _. apply save_image_footprint.
Qed.

End Footprint.

(** ** Verification and removal of the original *)

Section Verification.

Context {pil : Pillow}.
Variable cfg : Config.

Lemma verify_failed (file_path output_path : Path) (w : World) :
  output_verified (fs w) output_path = false ->
  verify_and_delete cfg file_path output_path w
  = (Ok tt, extend w [EPrint ERROR (MsgWebpFailed (PathLib.name file_path))]).
Proof.
  intros H. unfold verify_and_delete, bind, get_fs. cbn [fst snd]. now rewrite H.
Qed.

(** The file system after the verification block: unchanged, or the
    original removed, which takes a verified output, the deletion switch
    and two distinct paths. *)
Lemma verify_and_delete_fs (file_path output_path : Path) (w : World) :
  let w' := snd (verify_and_delete cfg file_path output_path w) in
  fs w' = fs w \/
  (fs w' = delete file_path (fs w) /\ file_path <> [] /\
  Fs.is_file (fs w) file_path = true /\
  DELETE_ORIGINALS cfg = true /\ file_path <> output_path /\
  output_verified (fs w) output_path = true).
Proof.
  cbv zeta. unfold verify_and_delete. run_script.
  destruct (output_verified (fs w) output_path) eqn:Hv; run_script; [| now left].
  destruct (Fs.st_size (fs w) file_path) as [old|e]; run_script; [| now left].
  destruct (Fs.st_size (fs w) output_path) as [new|e]; run_script; [| now left].
  destruct (old =? 0)%Z; run_script; [now left |].
  destruct (DELETE_ORIGINALS cfg && negb (bool_decide (file_path = output_path)))
  eqn:Hdel; run_script; [| now left].
  apply andb_true_iff in Hdel as [Hd Hne].
  apply negb_true_iff, bool_decide_eq_false in Hne.
  destruct (Fs.unlink (fs w) file_path) as [f'|e] eqn:Hun; run_script.
  - apply unlink_Ok in Hun as (Hnil & -> & Hfile). right. auto 10.
  - destruct (is_OSError e); now left.
Qed.

End Verification.

(** ** One backup over several runs *)

Section BackupOnce.

Context {pil : Pillow}.
Variable cfg : Config.
Variable dest : Path.













End BackupOnce.

Section BackupClaim.

Context {pil : Pillow}.
Variable cfg : Config.


End BackupClaim.

(** ** One file through [optimize_image] *)

Section OneFile.

Context {pil : Pillow}.
Variable cfg : Config.

(** A call that is not a skip: the conversion, then the verification, and
    the report of whatever was raised on the way. *)
Lemma optimize_image_run (file_path root : Path) (backup_root : option Path)
  (output_path : Path) (w : World) :
  PathLib.with_suffix file_path ".webp" = Some output_path ->
  Fs.exists_ (fs w) output_path = false ->
  optimize_image cfg file_path root backup_root w
  = match convert_file cfg file_path root backup_root output_path w with
  | (Ok _, w1) =>
      match verify_and_delete cfg file_path output_path w1 with
      | (Ok a, w2) => (Ok a, w2)
      | (Raise e, w2) => report_failure file_path e w2
      end
  | (Raise e, w1) => report_failure file_path e w1
  end.
Proof.
  intros Hout Hex. unfold optimize_image. rewrite Hout.
  unfold bind at 1, path_exists, bind at 1, get_fs, ret. cbn beta iota.
  rewrite Hex. unfold try_except, bind.
  destruct (convert_file cfg file_path root backup_root output_path w)
  as [[[]|e] w1]; reflexivity.
Qed.

Lemma report_failure_run (file_path : Path) (e : Exception) (w : World) :
  exists m, report_failure file_path e w = (Ok tt, extend w [EPrint ERROR m]) /\
          (m = MsgUnidentified file_path \/ m = MsgUnexpected file_path e).
Proof. destruct e; eexists; (split; [reflexivity | auto]). Qed.

(** The call always returns: whatever is raised while the file is converted
    is caught by one of the two handlers. *)
Lemma optimize_image_returns (file_path root : Path) (backup_root : option Path)
  (output_path : Path) (w : World) :
  PathLib.with_suffix file_path ".webp" = Some output_path ->
  fst (optimize_image cfg file_path root backup_root w) = Ok tt.
Proof.
  intros Hout.
  destruct (Fs.exists_ (fs w) output_path) eqn:Hex.
  { now rewrite (optimize_image_skip cfg _ _ _ _ _ Hout Hex). }
  rewrite (optimize_image_run _ _ _ _ _ Hout Hex).
  destruct (convert_file cfg file_path root backup_root output_path w) as [[[]|e] w1].
  - destruct (verify_and_delete cfg file_path output_path w1) as [[[]|e] w2];
    [reflexivity |].
    now destruct (report_failure_run file_path e w2) as (m & -> & _).
  - now destruct (report_failure_run file_path e w1) as (m & -> & _).
Qed.

(** The file system after a call that is not a skip: the footprint of the
    conversion, then possibly the removal of the original. *)
Lemma optimize_image_fs (file_path root : Path) (backup_root : option Path)
  (output_path : Path) (w : World) :
  PathLib.with_suffix file_path ".webp" = Some output_path ->
  Fs.exists_ (fs w) output_path = false ->
  let w' := snd (optimize_image cfg file_path root backup_root w) in
  exists f1,
  conversion_footprint root backup_root file_path output_path (fs w) f1 /\
  (fs w' = f1 \/
   (fs w' = delete file_path f1 /\ file_path <> [] /\
    Fs.is_file f1 file_path = true /\
    DELETE_ORIGINALS cfg = true /\ file_path <> output_path /\
    output_verified f1 output_path = true)).
Proof.
  intros Hout Hex. cbv zeta. rewrite (optimize_image_run _ _ _ _ _ Hout Hex).
  pose proof (convert_file_footprint cfg file_path root backup_root output_path w)
    as Hfoot.
  destruct (convert_file cfg file_path root backup_root output_path w)
    as [[[]|e] w1]; cbn [snd] in Hfoot.
  - exists (fs w1). split; [exact Hfoot |].
    pose proof (verify_and_delete_fs cfg file_path output_path w1) as Hver.
    cbv zeta in Hver.
    destruct (verify_and_delete cfg file_path output_path w1) as [[[]|e] w2];
      cbn [snd] in Hver |- *; [exact Hver |].
    destruct (report_failure_run file_path e w2) as (m & -> & _). exact Hver.
  - exists (fs w1). split; [exact Hfoot |]. left.
    now destruct (report_failure_run file_path e w1) as (m & -> & _).
Qed.

Lemma output_verified_delete (f : FS) (p q : Path) :
  p <> [] -> p <> q -> output_verified (delete p f) q = output_verified f q.
Proof.
  intros Hp Hpq. unfold output_verified, Fs.exists_, Fs.st_size.
  rewrite node_at_delete by assumption. now rewrite decide_False.
Qed.

(** A regular file that is gone after the call was the original, removed
    after a successful verification. *)
Lemma optimize_image_removal (file_path root : Path) (backup_root : option Path)
  (output_path : Path) (w : World) (q : Path) :
  PathLib.with_suffix file_path ".webp" = Some output_path ->
  Fs.is_file (fs w) q = true ->
  Fs.is_file (fs (snd (optimize_image cfg file_path root backup_root w))) q = false ->
  q = file_path /\ file_path <> output_path /\ DELETE_ORIGINALS cfg = true /\
  output_verified (fs (snd (optimize_image cfg file_path root backup_root w)))
  output_path = true.
Proof.
  intros Hout Hq Hgone.
  destruct (Fs.exists_ (fs w) output_path) eqn:Hex.
  { rewrite (optimize_image_skip cfg _ _ _ _ _ Hout Hex) in Hgone.
    cbn [snd extend fs] in Hgone. congruence. }
  destruct (optimize_image_fs file_path root backup_root output_path w Hout Hex)
    as (f1 & [Hkeep _] & Hend).
  apply is_file_true in Hq as [b Hb].
  assert (Hqo : q <> output_path).
  { intros ->. apply exists_false in Hex. congruence. }
  pose proof (Hkeep _ _ Hb Hqo) as Hb1.
  destruct Hend as [E | (E & Hnil & Hfile & Hdel & Hne & Hver)]; rewrite E in *.
  - unfold Fs.is_file in Hgone. now rewrite Hb1 in Hgone.
  - unfold Fs.is_file in Hgone. rewrite node_at_delete in Hgone by assumption.
    case_decide as Hd; [| now rewrite Hb1 in Hgone].
    subst q. rewrite output_verified_delete by assumption. auto.
Qed.

End OneFile.

Section Removal.

Context {pil : Pillow}.
Variable cfg : Config.

Lemma convert_file_no_unlink (file_path root : Path) (backup_root : option Path)
  (output_path : Path) :
  emits not_an_unlink (convert_file cfg file_path root backup_root output_path).
Proof. unfold_script. repeat emits_step; exact I. Qed.

Lemma not_an_unlink_spec (t : list Effect) (q : Path) :
  Forall not_an_unlink t -> EUnlink q ∈ t -> False.
Proof.
  intros Hall Hin. rewrite Forall_forall in Hall. exact (Hall _ Hin).
Qed.

(** A removal is only attempted on the original, with the switch on, and
    with a verified output, which is still there afterwards. *)
Lemma verify_and_delete_unlinks (file_path output_path : Path) (w : World) :
  let w' := snd (verify_and_delete cfg file_path output_path w) in
  exists t, trace w' = trace w ++ t /\
  forall q, EUnlink q ∈ t ->
    q = file_path /\ DELETE_ORIGINALS cfg = true /\
    output_verified (fs w') output_path = true.
Proof.
  cbv zeta. unfold verify_and_delete. run_script.
  assert (Hnone : forall (l : list Effect) (P : Path -> Prop),
          Forall not_an_unlink l -> forall q, EUnlink q ∈ l -> P q).
  { intros l P Hl q Hq. now destruct (not_an_unlink_spec l q). }
  destruct (output_verified (fs w) output_path) eqn:Hv; run_script.
  2:{ eexists; split; [reflexivity |]. apply Hnone. repeat constructor. }
  destruct (Fs.st_size (fs w) file_path) as [old|e]; run_script.
  2:{ exists []. rewrite app_nil_r. split; [reflexivity |]. now apply Hnone. }
  destruct (Fs.st_size (fs w) output_path) as [new|e]; run_script.
  2:{ exists []. rewrite app_nil_r. split; [reflexivity |]. now apply Hnone. }
  destruct (old =? 0)%Z; run_script.
  { exists []. rewrite app_nil_r. split; [reflexivity |]. now apply Hnone. }
  destruct (DELETE_ORIGINALS cfg && negb (bool_decide (file_path = output_path)))
    eqn:Hdel; run_script.
  2:{ eexists; split; [reflexivity |]. apply Hnone. repeat constructor. }
  apply andb_true_iff in Hdel as [Hd Hne].
  apply negb_true_iff, bool_decide_eq_false in Hne.
  assert (Hq : forall (l : list Effect) q, EUnlink q ∈ l ->
          (forall e, e ∈ l -> e = EUnlink file_path \/ not_an_unlink e) ->
          q = file_path).
  { intros l q Hin Hl. destruct (Hl _ Hin) as [[= ->] | []]. reflexivity. }
  destruct (Fs.unlink (fs w) file_path) as [f'|e] eqn:Hun; run_script.
  - apply unlink_Ok in Hun as (Hnil & -> & Hfile).
    rewrite <- !app_assoc. eexists; split; [reflexivity |].
    intros q Hin. rewrite output_verified_delete by assumption.
    split; [| now split].
    apply (Hq _ _ Hin). intros e He. cbn [app] in He.
    rewrite !elem_of_cons, elem_of_nil in He.
    destruct He as [-> | [-> | [-> | []]]]; simpl; auto.
  - destruct (is_OSError e); run_script;
    rewrite <- !app_assoc; (eexists; split; [reflexivity |]);
    intros q Hin; (split; [| now split]);
    apply (Hq _ _ Hin); intros e' He; cbn [app] in He;
    rewrite !elem_of_cons, elem_of_nil in He;
    intuition (subst; simpl; auto).
Qed.

(** In a whole call a removal is attempted within the verification block
    only: on the original, with the switch on and a verified output. *)
Lemma optimize_image_unlink_verified (file_path root : Path)
  (backup_root : option Path) (output_path : Path) (w : World) :
  PathLib.with_suffix file_path ".webp" = Some output_path ->
  let w' := snd (optimize_image cfg file_path root backup_root w) in
  exists t, trace w' = trace w ++ t /\
  forall q, EUnlink q ∈ t ->
    q = file_path /\ q <> output_path /\ DELETE_ORIGINALS cfg = true /\
    output_verified (fs w') output_path = true.
Proof.
  intros Hout. cbv zeta.
  destruct (optimize_image_unlinks cfg file_path root backup_root w)
    as (t & Ht & Hguard).
  exists t. split; [exact Ht |]. intros q Hin.
  rewrite Forall_forall in Hguard.
  destruct (Hguard _ Hin q eq_refl) as (-> & Hdel & Hne).
  split; [reflexivity |]. split; [congruence |]. split; [assumption |].
  destruct (Fs.exists_ (fs w) output_path) eqn:Hex.
  { rewrite (optimize_image_skip cfg _ _ _ _ _ Hout Hex) in Ht.
    cbn [snd extend trace] in Ht. apply app_inv_head in Ht. subst t.
    apply list_elem_of_singleton in Hin. discriminate. }
  revert Ht. rewrite (optimize_image_run _ _ _ _ _ _ Hout Hex).
  destruct (convert_file_no_unlink file_path root backup_root output_path w)
    as (t1 & Ht1 & Hno1).
  destruct (convert_file cfg file_path root backup_root output_path w)
    as [[[]|e] w1]; cbn [snd] in Ht1.
  - destruct (verify_and_delete_unlinks file_path output_path w1)
    as (t2 & Ht2 & Hver). cbv zeta in Ht2, Hver.
    destruct (verify_and_delete cfg file_path output_path w1) as [[[]|e] w2];
      cbn [snd] in Ht2, Hver |- *.
    + rewrite Ht2, Ht1, <- app_assoc. intros Ht. apply app_inv_head in Ht. subst t.
      apply elem_of_app in Hin as [Hin | Hin];
        [now destruct (not_an_unlink_spec _ _ Hno1 Hin) | now apply Hver in Hin].
    + destruct (report_failure_run file_path e w2) as (m & -> & _).
      cbn [snd extend trace fs].
      rewrite Ht2, Ht1, <- !app_assoc. intros Ht. apply app_inv_head in Ht. subst t.
      apply elem_of_app in Hin as [Hin | Hin];
        [now destruct (not_an_unlink_spec _ _ Hno1 Hin) |].
      apply elem_of_app in Hin as [Hin | Hin]; [now apply Hver in Hin |].
      apply list_elem_of_singleton in Hin. discriminate.
  - destruct (report_failure_run file_path e w1) as (m & -> & _).
    cbn [snd extend trace fs].
    rewrite Ht1, <- !app_assoc. intros Ht. apply app_inv_head in Ht. subst t.
    apply elem_of_app in Hin as [Hin | Hin];
      [now destruct (not_an_unlink_spec _ _ Hno1 Hin) |].
    apply list_elem_of_singleton in Hin. discriminate.
Qed.

End Removal.

Section DeletionClaims.

Context {pil : Pillow}.
Variable cfg : Config.

(** C6. Verification gates the removal of the original.  In a call of
    [optimize_image]:
    - a removal is attempted only on the original, with
      [DELETE_ORIGINALS] on, and with an output that exists and has a
      positive size, which still holds when the call returns;
    - if the original was a regular file and is gone after the call, then
      [DELETE_ORIGINALS] is on and the output exists with a positive size;
    - when the verification fails (output missing or of size zero) the block
      prints the error line and does nothing else, whatever the setting of
      [DELETE_ORIGINALS]: the file system, the original included, is
      unchanged. *)
Theorem C6_verification_gates_deletion (file_path root : Path)
  (backup_root : option Path) (output_path : Path) (w : World) :
  PathLib.with_suffix file_path ".webp" = Some output_path ->
  let w' := snd (optimize_image cfg file_path root backup_root w) in
  (exists t, trace w' = trace w ++ t /\
   forall q, EUnlink q ∈ t ->
     q = file_path /\ DELETE_ORIGINALS cfg = true /\
     Fs.exists_ (fs w') output_path = true /\
     exists n, Fs.st_size (fs w') output_path = Ok n /\ (0 < n)%Z) /\
  (Fs.is_file (fs w) file_path = true -> Fs.is_file (fs w') file_path = false ->
   DELETE_ORIGINALS cfg = true /\
   Fs.exists_ (fs w') output_path = true /\
   exists n, Fs.st_size (fs w') output_path = Ok n /\ (0 < n)%Z) /\
  (forall w1,
   output_verified (fs w1) output_path = false ->
   verify_and_delete cfg file_path output_path w1
   = (Ok tt, extend w1 [EPrint ERROR (MsgWebpFailed (PathLib.name file_path))])).
Proof.
  intros Hout. cbv zeta.
  assert (Hsize : forall f, output_verified f output_path = true ->
          Fs.exists_ f output_path = true /\
          exists n, Fs.st_size f output_path = Ok n /\ (0 < n)%Z).
  { intros f Hv. unfold output_verified in Hv.
    apply andb_true_iff in Hv as [Hex Hn]. split; [assumption |].
    destruct (Fs.st_size f output_path) as [n|e]; [| discriminate].
    exists n. split; [reflexivity | now apply Z.ltb_lt]. }
  split; [| split].
  - destruct (optimize_image_unlink_verified cfg file_path root backup_root
              output_path w Hout) as (t & Ht & Hun).
    exists t. split; [exact Ht |]. intros q Hin.
    destruct (Hun q Hin) as (-> & _ & Hdel & Hver).
    split; [reflexivity |]. split; [assumption |]. now apply Hsize.
  - intros Hfile Hgone.
    destruct (optimize_image_removal cfg file_path root backup_root output_path w
                file_path Hout Hfile Hgone) as (_ & _ & Hdel & Hver).
    split; [assumption |]. now apply Hsize.
  - intros w1 Hfail. now apply verify_failed.
Qed.

(** C10. [.webp] is not among the supported extensions.  Hence, for a file
    whose output path is [output_path]:
    - a file with a supported extension is never its own output;
    - the output path is never accepted by the filter of
      [iter_image_files], whatever the tree holds;
    - no removal is ever attempted on the output path, and when the
      original is removed the output is still in place with a positive
      size. *)
Theorem C10_outputs_are_never_inputs (file_path root : Path)
  (backup_root : option Path) (output_path : Path) (w : World) :
  ".webp" ∉ SUPPORTED_EXTENSIONS cfg ->
  PathLib.with_suffix file_path ".webp" = Some output_path ->
  let w' := snd (optimize_image cfg file_path root backup_root w) in
  (Str.lower (PathLib.suffix file_path) ∈ SUPPORTED_EXTENSIONS cfg ->
   output_path <> file_path) /\
  (forall f, is_image_file cfg f output_path = false) /\
  (exists t, trace w' = trace w ++ t /\ EUnlink output_path ∉ t) /\
  (Fs.is_file (fs w) file_path = true -> Fs.is_file (fs w') file_path = false ->
   output_verified (fs w') output_path = true).
Proof.
  intros Hwebp Hout. cbv zeta.
  pose proof (suffix_with_suffix _ _ Hout) as Hsuf.
  split; [| split; [| split]].
  - intros Hsup ->. apply Hwebp. now rewrite Hsuf in Hsup.
  - intros f. unfold is_image_file.
    destruct (negb (Fs.is_file f output_path)); [reflexivity |].
    case_bool_decide; [reflexivity |].
    apply bool_decide_eq_false. now rewrite Hsuf.
  - destruct (optimize_image_unlink_verified cfg file_path root backup_root
              output_path w Hout) as (t & Ht & Hun).
    exists t. split; [exact Ht |]. intros Hin.
    destruct (Hun _ Hin) as (_ & Hne & _). now apply Hne.
  - intros Hfile Hgone.
    now destruct (optimize_image_removal cfg file_path root backup_root output_path w
                    file_path Hout Hfile Hgone) as (_ & _ & _ & Hver).
Qed.

End DeletionClaims.

(** ** The loop over the entries *)

Section Loop.

Context {pil : Pillow}.
Variable cfg : Config.

Lemma suffix_of_name_empty : PathLib.suffix_of_name "" = "".
Proof. reflexivity. Qed.

Lemma with_suffix_defined (p : Path) :
  PathLib.name p <> "" -> exists out, PathLib.with_suffix p ".webp" = Some out.
Proof.
  intros Hn. unfold PathLib.with_suffix.
  destruct (PathLib.name p); [congruence | eauto].
Qed.

Lemma is_image_file_spec (f : FS) (q : Path) :
  is_image_file cfg f q = true <->
  Fs.is_file f q = true /\ (BACKUP_FOLDER_NAME cfg ∉ PathLib.parts q) /\
  (Str.lower (PathLib.suffix q) ∈ SUPPORTED_EXTENSIONS cfg).
Proof.
  unfold is_image_file. destruct (Fs.is_file f q); cbn [negb].
  - case_bool_decide as Hb; [intuition congruence |].
    rewrite bool_decide_eq_true. intuition.
  - intuition congruence.
Qed.



(** The world after the loop, as a function of the world before it. *)
Lemma process_entries_cons (root : Path) (backup_root : option Path)
  (path : Path) (it : list Path) (count : nat) (w : World) :
  PathLib.name path <> "" ->
  process_entries cfg root backup_root (path :: it) count w
  = if is_image_file cfg (fs w) path then
    process_entries cfg root backup_root it (S count)
      (snd (optimize_image cfg path root backup_root w))
  else process_entries cfg root backup_root it count w.
Proof.
  intros Hname. cbn [process_entries]. unfold bind at 1, get_fs. cbn beta iota.
  destruct (is_image_file cfg (fs w) path); [| reflexivity].
  destruct (with_suffix_defined path Hname) as [out Hout].
  pose proof (optimize_image_returns cfg path root backup_root out w Hout) as Hret.
  unfold bind. destruct (optimize_image cfg path root backup_root w) as [r w1].
  cbn [fst snd] in *. now rewrite Hret.
Qed.


End Loop.

Section Isolation.

Context {pil : Pillow}.
Variable cfg : Config.

Lemma report_failure_line (file_path : Path) (e : Exception) (w : World) :
  report_failure file_path e w = (Ok tt, extend w [failure_line file_path e]).
Proof. now destruct e. Qed.




End Isolation.

(** ** Animations *)

Section Animations.

Context {pil : Pillow}.
Variable cfg : Config.



(** A call that is not a skip, split after line 159. *)
Lemma optimize_image_stages (file_path root : Path) (backup_root : option Path)
  (output_path : Path) (w : World) :
  PathLib.with_suffix file_path ".webp" = Some output_path ->
  Fs.exists_ (fs w) output_path = false ->
  optimize_image cfg file_path root backup_root w
  = match prepare_image cfg file_path w with
  | (Ok (img_to_save, is_animated), w1) =>
      finish_file cfg file_path root backup_root output_path img_to_save
        is_animated w1
  | (Raise e, w1) => report_failure file_path e w1
  end.
Proof.
  intros Hout Hex. unfold optimize_image. rewrite Hout.
  unfold bind at 1, path_exists, bind at 1, get_fs, ret. cbn beta iota.
  rewrite Hex. unfold finish_file, try_except, convert_file, bind.
  destruct (prepare_image cfg file_path w) as [[[i a]|e] w1]; reflexivity.
Qed.


End Animations.

(** ** The order of the steps *)

Section Order.

Context {pil : Pillow}.
Variable cfg : Config.

Lemma not_before_mono (order : Step -> nat) (n n' : nat) (e : Effect) :
  (n <= n')%nat -> not_before order n' e = true -> not_before order n e = true.
Proof.
  unfold not_before. destruct (step_of e); [| discriminate].
  rewrite !Nat.leb_le. lia.
Qed.

Lemma in_order_app (order : Step -> nat) (t u : list Effect) (mid : nat) :
  in_order order t = true -> in_order order u = true ->
  Forall (fun e => exists s, step_of e = Some s /\ (order s <= mid)%nat) t ->
  forallb (not_before order mid) u = true ->
  in_order order (t ++ u) = true.
Proof.
  intros Ht Hu Hlo Hhi. induction t as [|e t IH]; [exact Hu |].
  cbn [app in_order] in *. apply Forall_cons in Hlo as [(s & Hs & Hle) Hlo].
  rewrite Hs in *. apply andb_true_iff in Ht as [Hall Ht].
  apply andb_true_iff. split; [| now apply IH].
  rewrite forallb_app, Hall. cbn [andb].
  apply forallb_forall. intros e' He'.
  rewrite forallb_forall in Hhi. eapply not_before_mono; eauto.
Qed.

Lemma step_within_not_before (lo hi : nat) (t : list Effect) :
  Forall (step_within lo hi) t -> forallb (not_before code_order lo) t = true.
Proof.
  intros H. apply forallb_forall. intros e He.
  rewrite Forall_forall in H. apply list_elem_of_In in He.
  destruct (H e He) as (s & Hs & Hb). unfold not_before. rewrite Hs.
  apply Nat.leb_le. lia.
Qed.

Lemma step_within_weaken (lo hi lo' hi' : nat) (t : list Effect) :
  (lo' <= lo)%nat -> (hi <= hi')%nat ->
  Forall (step_within lo hi) t -> Forall (step_within lo' hi') t.
Proof.
  intros Hlo Hhi H. eapply Forall_impl; [exact H |]. intros e (s & Hs & Hb).
  exists s. split; [assumption | lia].
Qed.

(** Events of one step are in order. *)
Lemma in_order_same_step (r : nat) (t : list Effect) :
  Forall (step_within r r) t -> in_order code_order t = true.
Proof.
  induction t as [|e t IH]; [reflexivity |].
  intros H. pose proof (step_within_not_before _ _ _ H) as Hnb.
  apply Forall_cons in H as [(s & Hs & Hb) Ht].
  cbn [in_order]. rewrite Hs. rewrite IH by assumption.
  cbn [forallb] in Hnb. apply andb_true_iff in Hnb as [_ Hnb].
  replace (code_order s) with r by lia. now rewrite Hnb.
Qed.

Lemma emits_sorted_same_step {A : Type} (r : nat) (m : M A) :
  emits (step_within r r) m -> emits_sorted r r m.
Proof.
  intros H w. destruct (H w) as (t & Ht & Hall). exists t.
  split; [assumption |]. split; [| assumption]. now apply (in_order_same_step r).
Qed.

Lemma emits_sorted_weaken {A : Type} (lo hi lo' hi' : nat) (m : M A) :
  (lo' <= lo)%nat -> (hi <= hi')%nat ->
  emits_sorted lo hi m -> emits_sorted lo' hi' m.
Proof.
  intros Hlo Hhi H w. destruct (H w) as (t & Ht & Hord & Hall). exists t.
  split; [assumption |]. split; [assumption |].
  now apply (step_within_weaken lo hi).
Qed.

Lemma sorted_app (lo mid hi : nat) (t u : list Effect) :
  (lo <= mid)%nat -> (mid <= hi)%nat ->
  in_order code_order t = true -> Forall (step_within lo mid) t ->
  in_order code_order u = true -> Forall (step_within mid hi) u ->
  in_order code_order (t ++ u) = true /\ Forall (step_within lo hi) (t ++ u).
Proof.
  intros Hlo Hhi Ht Hwt Hu Hwu. split.
  - apply (in_order_app _ _ _ mid); try assumption.
  + eapply Forall_impl; [exact Hwt |]. intros e (s & Hs & Hb). exists s.
    split; [assumption | lia].
  + now apply (step_within_not_before mid hi).
  - apply Forall_app. split.
  + now apply (step_within_weaken lo mid).
  + now apply (step_within_weaken mid hi).
Qed.

Lemma emits_sorted_bind {A B : Type} (lo mid hi : nat) (m : M A) (k : A -> M B) :
  (lo <= mid)%nat -> (mid <= hi)%nat ->
  emits_sorted lo mid m -> (forall a, emits_sorted mid hi (k a)) ->
  emits_sorted lo hi (bind m k).
Proof.
  intros Hlo Hhi Hm Hk w. unfold bind.
  destruct (Hm w) as (t & Ht & Hord & Hall).
  destruct (m w) as [[a|e] w1]; cbn [snd] in *.
  - destruct (Hk a w1) as (u & Hu & Hordu & Hallu). exists (t ++ u).
    split; [now rewrite Hu, Ht, app_assoc |].
    now apply (sorted_app lo mid hi).
  - exists t. split; [assumption |]. split; [assumption |].
    now apply (step_within_weaken lo mid).
Qed.

Lemma emits_sorted_try {A : Type} (lo mid hi : nat) (m : M A)
  (h : Exception -> M A) :
  (lo <= mid)%nat -> (mid <= hi)%nat ->
  emits_sorted lo mid m -> (forall e, emits_sorted mid hi (h e)) ->
  emits_sorted lo hi (try_except m h).
Proof.
  intros Hlo Hhi Hm Hh w. unfold try_except.
  destruct (Hm w) as (t & Ht & Hord & Hall).
  destruct (m w) as [[a|e] w1]; cbn [snd] in *.
  - exists t. split; [assumption |]. split; [assumption |].
    now apply (step_within_weaken lo mid).
  - destruct (Hh e w1) as (u & Hu & Hordu & Hallu). exists (t ++ u).
    split; [now rewrite Hu, Ht, app_assoc |].
    now apply (sorted_app lo mid hi).
Qed.

End Order.

(** An event of a known step. *)
Ltac step_within_tac :=
  match goal with
  | |- step_within _ _ _ => eexists; split; [reflexivity | cbn; lia]
  end.

(** A computation whose events all belong to one step. *)
Ltac same_step_tac :=
  apply emits_sorted_same_step; unfold_script;
  repeat emits_step; try step_within_tac.

Section OrderOfSteps.

Context {pil : Pillow}.
Variable cfg : Config.

Lemma prepare_image_sorted (file_path : Path) :
  emits_sorted 1 2 (prepare_image cfg file_path).
Proof.
  unfold prepare_image.
  apply (emits_sorted_bind 1 1 2); [lia | lia | same_step_tac |]. intros img.
  apply (emits_sorted_bind 1 1 2); [lia | lia | same_step_tac |]. intros _.
  apply (emits_sorted_weaken 2 2); [lia | lia |]. same_step_tac.
Qed.

Lemma convert_file_sorted (file_path root : Path) (backup_root : option Path)
  (output_path : Path) :
  emits_sorted 1 4 (convert_file cfg file_path root backup_root output_path).
Proof.
  unfold convert_file.
  apply (emits_sorted_bind 1 2 4); [lia | lia | apply prepare_image_sorted |].
  intros [img_to_save is_animated].
  apply (emits_sorted_bind 2 3 4); [lia | lia | |].
  - apply (emits_sorted_weaken 3 3); [lia | lia |]. same_step_tac.
  - intros _. apply (emits_sorted_weaken 4 4); [lia | lia |]. same_step_tac.
Qed.

Lemma verify_and_delete_sorted (file_path output_path : Path) :
  emits_sorted 5 6 (verify_and_delete cfg file_path output_path).
Proof.
  unfold verify_and_delete.
  apply (emits_sorted_bind 5 5 6); [lia | lia | same_step_tac |]. intros f.
  destruct (output_verified f output_path).
  2:{ apply (emits_sorted_weaken 5 5); [lia | lia |]. same_step_tac. }
  apply (emits_sorted_bind 5 5 6); [lia | lia | same_step_tac |]. intros old_size.
  apply (emits_sorted_bind 5 5 6); [lia | lia | same_step_tac |]. intros new_size.
  apply (emits_sorted_bind 5 5 6); [lia | lia | same_step_tac |]. intros _.
  apply (emits_sorted_bind 5 5 6); [lia | lia | same_step_tac |]. intros _.
  apply (emits_sorted_weaken 6 6); [lia | lia |]. same_step_tac.
Qed.

Lemma optimize_image_sorted (file_path root : Path) (backup_root : option Path) :
  emits_sorted 0 7 (optimize_image cfg file_path root backup_root).
Proof.
  unfold optimize_image.
  destruct (PathLib.with_suffix file_path ".webp") as [output_path|].
  2:{ apply (emits_sorted_weaken 0 0); [lia | lia |]. same_step_tac. }
  apply (emits_sorted_bind 0 0 7); [lia | lia | same_step_tac |]. intros present.
  destruct present.
  { apply (emits_sorted_weaken 0 0); [lia | lia |]. same_step_tac. }
  apply (emits_sorted_try 0 6 7); [lia | lia | |].
  - apply (emits_sorted_bind 0 4 6); [lia | lia | |].
  + apply (emits_sorted_weaken 1 4); [lia | lia |]. apply convert_file_sorted.
  + intros _. apply (emits_sorted_weaken 5 6); [lia | lia |].
    apply verify_and_delete_sorted.
  - intros e. apply (emits_sorted_weaken 7 7); [lia | lia |]. same_step_tac.
Qed.

Lemma in_order_split (order : Step -> nat) (t1 t2 : list Effect) (e : Effect) :
  in_order order (t1 ++ e :: t2) = true ->
  exists s, step_of e = Some s /\
          forallb (not_before order (order s)) t2 = true.
Proof.
  induction t1 as [|a t1 IH]; cbn [app in_order].
  - destruct (step_of e) as [s|]; [| discriminate].
    intros H. apply andb_true_iff in H as [H _]. eauto.
  - destruct (step_of a); [| discriminate].
    intros H. apply andb_true_iff in H as [_ H]. now apply IH.
Qed.

(** Once the tree is written to or the original removed, no call of the
    backup follows. *)
Lemma in_order_backup_first (t1 t2 : list Effect) (e : Effect) :
  in_order code_order (t1 ++ e :: t2) = true ->
  touches_tree e = true ->
  forallb (fun e' => negb (makes_backup e')) t2 = true.
Proof.
  intros Hord He. destruct (in_order_split _ _ _ _ Hord) as (s & Hs & Hall).
  apply forallb_forall. intros e' He'. rewrite forallb_forall in Hall.
  specialize (Hall e' He'). unfold not_before in Hall.
  destruct e; try discriminate He; injection Hs as <-;
  destruct e'; try reflexivity; discriminate Hall.
Qed.

End OrderOfSteps.

Section OrderClaim.

Context {pil : Pillow}.
Variable cfg : Config.

(** C4, as the script has it.  The events of a call of [optimize_image]
    come in the order: test for an existing output, decoding,
    transformation, backup, encoding, verification, removal of the original,
    report of a failure.  The transformation works on the image in memory
    and comes before the backup; the backup comes before everything that
    writes to the tree or removes from it: after the encoder was called or a
    removal attempted, no call of the backup follows.  The classification
    comes first of all: the loop calls [optimize_image] on an entry only
    when the filter accepts it, and otherwise leaves the world as it is. *)
Theorem C4_steps_in_script_order (file_path root : Path)
  (backup_root : option Path) (w : World) :
  let w' := snd (optimize_image cfg file_path root backup_root w) in
  (exists t, trace w' = trace w ++ t /\
   in_order code_order t = true /\
   forall t1 e t2, t = t1 ++ e :: t2 -> touches_tree e = true ->
     forallb (fun e' => negb (makes_backup e')) t2 = true) /\
  (forall it count,
   PathLib.name file_path <> "" ->
   process_entries cfg root backup_root (file_path :: it) count w
   = if is_image_file cfg (fs w) file_path then
       process_entries cfg root backup_root it (S count) w'
     else process_entries cfg root backup_root it count w).
Proof.
  cbv zeta. split.
  - destruct (optimize_image_sorted cfg file_path root backup_root w)
    as (t & Ht & Hord & _).
    exists t. split; [exact Ht |]. split; [exact Hord |].
    intros t1 e t2 -> He. now apply (in_order_backup_first t1 t2 e).
  - intros it count Hname. now apply process_entries_cons.
Qed.

End OrderClaim.

(** On the photo of the small tree the orientation fix, the resize and the
    rebuilding from the pixels all come before the backup is made: the
    events are not in the order that puts the backup ahead of the
    transformation, and they are in the order of the script. *)
Lemma C4_counterexample :
  let t := trace (snd (optimize_image source_config Toy.photo_path Toy.root
                         (Some Toy.backup_root) (Toy.world []))) in
  in_order backup_first_order t = false /\ in_order code_order t = true.
Proof. vm_compute. split; reflexivity. Qed.

(** ** Floating point and the resize arithmetic *)

Section FloatFacts.

Local Open Scope Q_scope.

(** On the sides from 1 to 4096, and on some larger ones, the quotient and
    the product of the resize step are those of binary64 arithmetic. *)
Lemma float_agrees_with_binary64 :
  forallb (fun side => Binary64.agrees 1920 (Z.of_nat side)) (seq 1 4096) = true /\
  forallb (Binary64.agrees 1920) [10000; 94080; 65535; 1000003; 67108863]%Z = true /\
  forallb (Binary64.agrees 7) [3; 49; 12345]%Z = true.
Proof. vm_compute. repeat split. Qed.

Lemma pow2_pos (e : Z) : 0 < Float.pow2 e.
Proof. apply Qpower_0_lt. reflexivity. Qed.

Lemma pow2_add (a b : Z) : Float.pow2 (a + b) == Float.pow2 a * Float.pow2 b.
Proof. apply Qpower_plus. discriminate. Qed.

Lemma pow2_opp (e : Z) : Float.pow2 (- e) * Float.pow2 e == 1.
Proof.
  unfold Float.pow2. rewrite <- Qpower_plus by discriminate.
  now replace (- e + e)%Z with 0%Z by lia.
Qed.

Lemma pow2_succ (e : Z) : Float.pow2 (e + 1) == 2 * Float.pow2 e.
Proof. rewrite pow2_add. change (Float.pow2 1) with 2. ring. Qed.

Lemma pow2_le (a b : Z) : (a <= b)%Z -> Float.pow2 a <= Float.pow2 b.
Proof. intros H. apply Qpower_le_compat_l; [assumption | discriminate]. Qed.

Lemma pow2_lt_inv (a b : Z) : Float.pow2 a < Float.pow2 b -> (a < b)%Z.
Proof.
  intros H. destruct (Z_lt_le_dec a b) as [Hlt | Hle]; [assumption |].
  apply pow2_le in Hle. lra.
Qed.

Lemma pow2_inject (k : Z) : (0 <= k)%Z -> Float.pow2 k == inject_Z (2 ^ k).
Proof. intros H. unfold Float.pow2. now rewrite Zpower_Qpower. Qed.

Lemma log2_bounds (n : Z) :
  (0 < n)%Z ->
  Float.pow2 (Z.log2 n) <= inject_Z n /\ inject_Z n < Float.pow2 (Z.log2 n + 1).
Proof.
  intros Hn. destruct (Z.log2_spec n Hn) as [Hlo Hhi].
  pose proof (Z.log2_nonneg n) as Hnn.
  rewrite !pow2_inject by lia. rewrite <- Zle_Qle, <- Zlt_Qlt.
  rewrite <- Z.add_1_r in Hhi. auto.
Qed.

Lemma ulp_exp_spec (x : Q) :
  0 < x ->
  Float.pow2 52 <= x * Float.pow2 (- Float.ulp_exp x) /\
  x * Float.pow2 (- Float.ulp_exp x) < Float.pow2 53.
Proof.
  intros Hx. destruct x as [n d].
  assert (Hn : (0 < n)%Z) by (unfold Qlt in Hx; simpl in Hx; lia).
  unfold Float.ulp_exp. cbn [Qnum Qden].
  set (ln := Z.log2 n). set (ld := Z.log2 (Zpos d)).
  destruct (log2_bounds n Hn) as [HnP HnP'].
  destruct (log2_bounds (Zpos d) eq_refl) as [HdR HdR'].
  fold ln in HnP, HnP'. fold ld in HdR, HdR'.
  rewrite pow2_succ in HnP', HdR'.
  pose proof (pow2_pos ln) as HP. pose proof (pow2_pos ld) as HR.
  pose proof (pow2_opp ln) as HI. pose proof (pow2_pos (- ln)) as HIpos.
  assert (Hs0 : (n # d) * Float.pow2 (- (ln - ld - 52))
              == (inject_Z n * Float.pow2 (- ln))
                 * (Float.pow2 ld / inject_Z (Zpos d)) * Float.pow2 52).
  { replace (- (ln - ld - 52))%Z with (- ln + (ld + 52))%Z by lia.
    rewrite !pow2_add. rewrite (Qmake_Qdiv n d). field.
    intros H. rewrite H in HdR. lra. }
  set (u := inject_Z n * Float.pow2 (- ln)) in *.
  set (v := Float.pow2 ld / inject_Z (Zpos d)) in *.
  assert (Hu : 1 <= u /\ u < 2).
  { unfold u. split; nra. }
  assert (HD : 0 < inject_Z (Zpos d)) by lra.
  assert (Hv : 1 # 2 < v /\ v <= 1).
  { unfold v. split.
    - apply Qlt_shift_div_l; lra.
    - apply Qle_shift_div_r; lra. }
  change (Float.pow2 52) with (4503599627370496 # 1) in *.
  change (Float.pow2 53) with (9007199254740992 # 1) in *.
  destruct (Qle_bool (4503599627370496 # 1) ((n # d) * Float.pow2 (- (ln - ld - 52))))
    eqn:Hcmp.
  - apply Qle_bool_iff in Hcmp. split; [exact Hcmp |].
    rewrite Hs0. nra.
  - assert (Hlt : (n # d) * Float.pow2 (- (ln - ld - 52)) < 4503599627370496 # 1).
    { apply Qnot_le_lt. intros H. apply Qle_bool_iff in H. congruence. }
    replace (- (ln - ld - 52 - 1))%Z with (- (ln - ld - 52) + 1)%Z by lia.
    rewrite pow2_succ.
    assert (Hdbl : (n # d) * (2 * Float.pow2 (- (ln - ld - 52)))
                   == 2 * (u * v * (4503599627370496 # 1)))
      by (rewrite <- Hs0; ring).
    rewrite Hdbl. rewrite Hs0 in Hlt. split; nra.
Qed.

Lemma floor_bounds (q : Q) :
  inject_Z (Qfloor q) <= q /\ q < inject_Z (Qfloor q) + 1.
Proof.
  split; [apply Qfloor_le |].
  pose proof (Qlt_floor q) as H. rewrite inject_Z_plus in H. exact H.
Qed.

Lemma nearest_even_bounds (q : Q) :
  q - (1 # 2) <= inject_Z (Float.nearest_even q) /\
  inject_Z (Float.nearest_even q) <= q + (1 # 2).
Proof.
  unfold Float.nearest_even. destruct (floor_bounds q) as [Hlo Hhi].
  destruct (Qcompare_spec (q - inject_Z (Qfloor q)) (1 # 2)) as [He | Hl | Hg].
  - destruct (Z.even (Qfloor q)); rewrite ?inject_Z_plus;
    change (inject_Z 1%Z) with 1; lra.
  - lra.
  - rewrite inject_Z_plus. change (inject_Z 1%Z) with 1. lra.
Qed.

Lemma nearest_even_mono (p q : Q) :
  p <= q -> (Float.nearest_even p <= Float.nearest_even q)%Z.
Proof.
  intros Hpq. pose proof (Qfloor_resp_le _ _ Hpq) as Hfl.
  destruct (floor_bounds p) as [Hp Hp'], (floor_bounds q) as [Hq Hq'].
  unfold Float.nearest_even.
  destruct (Z.eq_dec (Qfloor p) (Qfloor q)) as [E | N].
  - rewrite E in *.
    destruct (Qcompare_spec (p - inject_Z (Qfloor q)) (1 # 2)) as [He | Hl | Hg];
      destruct (Qcompare_spec (q - inject_Z (Qfloor q)) (1 # 2)) as [He' | Hl' | Hg'];
      try lra; try lia; destruct (Z.even (Qfloor q)); lia.
  - assert (Hlt : (Qfloor p + 1 <= Qfloor q)%Z) by lia.
    destruct (Qcompare (p - inject_Z (Qfloor p)) (1 # 2)),
             (Qcompare (q - inject_Z (Qfloor q)) (1 # 2));
      try destruct (Z.even (Qfloor p)); try destruct (Z.even (Qfloor q)); lia.
Qed.

Lemma nearest_even_inject (z : Z) : Float.nearest_even (inject_Z z) = z.
Proof.
  unfold Float.nearest_even. rewrite Qfloor_Z.
  destruct (Qcompare_spec (inject_Z z - inject_Z z) (1 # 2)) as [He | Hl | Hg];
  [lra | reflexivity | lra].
Qed.

Lemma nearest_even_eq (q : Q) (z : Z) : q == inject_Z z -> Float.nearest_even q = z.
Proof.
  intros H. apply Z.le_antisymm.
  - rewrite <- (nearest_even_inject z). apply nearest_even_mono. lra.
  - rewrite <- (nearest_even_inject z) at 1. apply nearest_even_mono. lra.
Qed.

(** The scaled significand and the place value of a positive number. *)
Lemma round_pos_parts (x : Q) :
  0 < x ->
  exists (s T : Q),
  Float.round_pos x == inject_Z (Float.nearest_even s) * T /\
  x == s * T /\ 0 < T /\ T == Float.pow2 (Float.ulp_exp x) /\
  s == x * Float.pow2 (- Float.ulp_exp x) /\
  4503599627370496 # 1 <= s /\ s < 9007199254740992 # 1.
Proof.
  intros Hx. destruct (ulp_exp_spec x Hx) as [Hlo Hhi].
  exists (x * Float.pow2 (- Float.ulp_exp x)), (Float.pow2 (Float.ulp_exp x)).
  split; [reflexivity |]. split.
  - rewrite <- Qmult_assoc, pow2_opp. ring.
  - split; [apply pow2_pos |]. split; [reflexivity |]. split; [reflexivity |].
    split; [exact Hlo | exact Hhi].
Qed.

Lemma round_pos_error (x : Q) :
  0 < x ->
  x * (1 - (1 # 9007199254740992)) <= Float.round_pos x /\
  Float.round_pos x <= x * (1 + (1 # 9007199254740992)).
Proof.
  intros Hx. destruct (round_pos_parts x Hx) as (s & T & -> & Hxs & HT & _ & _ & Hlo & Hhi).
  destruct (nearest_even_bounds s) as [Hm Hm'].
  set (m := inject_Z (Float.nearest_even s)) in *.
  rewrite Hxs. split; nra.
Qed.

Lemma round_pos_le (x y : Q) :
  0 < x -> x <= y -> Float.round_pos x <= Float.round_pos y.
Proof.
  intros Hx Hxy. assert (Hy : 0 < y) by lra.
  destruct (round_pos_parts x Hx) as (s & T & -> & Hxs & HT & HTe & Hse & Hlo & Hhi).
  destruct (round_pos_parts y Hy) as (s' & T' & -> & Hys & HT' & HTe' & Hse' & Hlo' & Hhi').
  destruct (Z_lt_le_dec (Float.ulp_exp y) (Float.ulp_exp x)) as [Hlt | Hle].
  { (* the smaller number cannot have the larger exponent *)
    exfalso.
    assert (H2 : 2 * T' <= T).
    { rewrite HTe, HTe', <- pow2_succ. apply pow2_le. lia. }
    nra. }
  destruct (Z.eq_dec (Float.ulp_exp x) (Float.ulp_exp y)) as [E | N].
  - assert (HTT : T == T') by (rewrite HTe, HTe'; now rewrite E).
    assert (Hss : s <= s').
    { rewrite Hse, Hse', E. apply Qmult_le_compat_r; [assumption |].
      apply Qlt_le_weak, pow2_pos. }
    pose proof (nearest_even_mono _ _ Hss) as Hm. rewrite Zle_Qle in Hm.
    rewrite HTT. apply Qmult_le_compat_r; lra.
  - assert (H2 : 2 * T <= T').
    { rewrite HTe, HTe', <- pow2_succ. apply pow2_le. lia. }
    assert (Hm : inject_Z (Float.nearest_even s) <= 9007199254740992 # 1).
    { change (9007199254740992 # 1) with (inject_Z 9007199254740992%Z).
      rewrite <- Zle_Qle. rewrite <- (nearest_even_inject 9007199254740992%Z).
      apply nearest_even_mono. change (inject_Z 9007199254740992%Z)
        with (9007199254740992 # 1). lra. }
    assert (Hm' : 4503599627370496 # 1 <= inject_Z (Float.nearest_even s')).
    { change (4503599627370496 # 1) with (inject_Z 4503599627370496%Z).
      rewrite <- Zle_Qle. rewrite <- (nearest_even_inject 4503599627370496%Z).
      apply nearest_even_mono. change (inject_Z 4503599627370496%Z)
        with (4503599627370496 # 1). lra. }
    nra.
Qed.

Lemma round_pos_inject (z : Z) :
  (0 < z < 2 ^ 53)%Z -> Float.round_pos (inject_Z z) == inject_Z z.
Proof.
  intros [Hz Hz'].
  assert (Hx : 0 < inject_Z z) by (now rewrite <- (Zlt_Qlt 0%Z)).
  destruct (round_pos_parts _ Hx) as (s & T & -> & Hxs & HT & HTe & Hse & Hlo & Hhi).
  set (e := Float.ulp_exp (inject_Z z)) in *.
  assert (Hzq : inject_Z z < 9007199254740992 # 1).
  { change (9007199254740992 # 1) with (inject_Z (2 ^ 53)%Z). now rewrite <- Zlt_Qlt. }
  assert (He : (e <= 0)%Z).
  { assert (Hhalf : Float.pow2 (- 1) < Float.pow2 (- e)).
    { change (Float.pow2 (- 1)) with (1 # 2).
      pose proof (pow2_pos (- e)). nra. }
    apply pow2_lt_inv in Hhalf. lia. }
  assert (Hint : s == inject_Z (z * 2 ^ (- e))).
  { rewrite Hse, inject_Z_mult, <- pow2_inject by lia. reflexivity. }
  rewrite (nearest_even_eq _ _ Hint), <- Hint. symmetry. exact Hxs.
Qed.

Lemma round_cases (x : Q) :
  0 <= x ->
  (x == 0 /\ Float.round x == 0) \/ (0 < x /\ Float.round x == Float.round_pos x).
Proof.
  intros Hx. destruct x as [[|n|n] d]; unfold Float.round; cbn [Qnum].
  - left. split; reflexivity.
  - right. split; [reflexivity | apply Qred_correct].
  - exfalso. unfold Qle in Hx. simpl in Hx. lia.
Qed.

Lemma round_error (x : Q) :
  0 <= x ->
  x * (1 - (1 # 9007199254740992)) <= Float.round x /\
  Float.round x <= x * (1 + (1 # 9007199254740992)).
Proof.
  intros Hx. destruct (round_cases x Hx) as [[E ->] | [Hpos ->]].
  - rewrite E. split; lra.
  - now apply round_pos_error.
Qed.

Lemma round_nonneg (x : Q) : 0 <= x -> 0 <= Float.round x.
Proof. intros Hx. destruct (round_error x Hx) as [H _]. nra. Qed.

Lemma round_le (x y : Q) : 0 <= x -> x <= y -> Float.round x <= Float.round y.
Proof.
  intros Hx Hxy. assert (Hy : 0 <= y) by lra.
  destruct (round_cases x Hx) as [[E ->] | [Hpos ->]]; [now apply round_nonneg |].
  destruct (round_cases y Hy) as [[E' _] | [Hpos' ->]]; [lra |].
  now apply round_pos_le.
Qed.

Lemma round_inject (z : Z) :
  (0 <= z < 2 ^ 53)%Z -> Float.round (inject_Z z) == inject_Z z.
Proof.
  intros [Hz Hz']. destruct (Z.eq_dec z 0%Z) as [-> | N]; [reflexivity |].
  assert (Hx : 0 <= inject_Z z) by (now rewrite <- (Zle_Qle 0%Z)).
  destruct (round_cases _ Hx) as [[E _] | [_ ->]].
  - exfalso. apply N. unfold Qeq in E. simpl in E. lia.
  - apply round_pos_inject. lia.
Qed.

Lemma to_int_floor (x : Q) : 0 <= x -> Float.to_int x = Qfloor x.
Proof.
  intros Hx. destruct x as [n d]. unfold Float.to_int, Qfloor. cbn [Qnum Qden].
  apply Z.quot_div_nonneg; [| reflexivity]. unfold Qle in Hx. simpl in Hx. lia.
Qed.

Lemma ltb_lt (x y : Q) : Float.ltb x y = true <-> x < y.
Proof.
  unfold Float.ltb. destruct (Qcompare_spec x y); split; intros; try lra;
  try discriminate; reflexivity.
Qed.

Lemma min3_spec (a b c : Q) :
  Float.min3 a b c <= a /\ Float.min3 a b c <= b /\ Float.min3 a b c <= c /\
  (Float.min3 a b c = a \/ Float.min3 a b c = b \/ Float.min3 a b c = c).
Proof.
  unfold Float.min3.
  destruct (Float.ltb b a) eqn:Hba;
  [apply ltb_lt in Hba | assert (~ b < a) by (rewrite <- ltb_lt; congruence)].
  - destruct (Float.ltb c b) eqn:Hcb;
    [apply ltb_lt in Hcb | assert (~ c < b) by (rewrite <- ltb_lt; congruence)];
    repeat split; auto; lra.
  - destruct (Float.ltb c a) eqn:Hca;
    [apply ltb_lt in Hca | assert (~ c < a) by (rewrite <- ltb_lt; congruence)];
    repeat split; auto; lra.
Qed.

Lemma round_eq (x y : Q) : 0 <= x -> x == y -> Float.round x == Float.round y.
Proof.
  intros Hx E. apply Qle_antisym; apply round_le; lra.
Qed.

Lemma side_in_Q (side : Z) :
  (1 <= side < 2 ^ 26)%Z -> 1 <= inject_Z side /\ inject_Z side < 67108864 # 1.
Proof.
  intros H. change 1 with (inject_Z 1%Z). change (67108864 # 1) with (inject_Z (2 ^ 26)%Z).
  now rewrite <- Zle_Qle, <- Zlt_Qlt.
Qed.

(** One side of the new size: [side] is the side of the image, [limit] its
    maximum, [scale] the common factor. *)
Lemma new_side_bounds (limit side : Z) (scale : Q) :
  (1 <= side < 2 ^ 26)%Z -> (0 <= limit < 2 ^ 26)%Z ->
  0 <= scale -> scale < 1 ->
  scale <= Float.round (inject_Z limit / inject_Z side) ->
  let n := Float.to_int (Float.int_mul side scale) in
  (0 <= n)%Z /\ (n <= limit)%Z /\ (n <= side)%Z /\
  inject_Z side * scale - 1 < inject_Z n /\
  inject_Z n <= inject_Z side * scale + (1 # 67108864).
Proof.
  intros [Hs Hs'] [Hl Hl'] Hsc Hsc1 Hsca. cbv zeta.
  assert (HsideQ : 1 <= inject_Z side /\ inject_Z side < 67108864 # 1).
  { change 1 with (inject_Z 1%Z). change (67108864 # 1) with (inject_Z (2 ^ 26)%Z).
    now rewrite <- Zle_Qle, <- Zlt_Qlt. }
  assert (HlimQ : 0 <= inject_Z limit /\ inject_Z limit < 67108864 # 1).
  { change 0 with (inject_Z 0%Z). change (67108864 # 1) with (inject_Z (2 ^ 26)%Z).
    now rewrite <- Zle_Qle, <- Zlt_Qlt. }
  destruct HsideQ as [HW1 HW2], HlimQ as [HL1 HL2].
  set (W := inject_Z side) in *. set (L := inject_Z limit) in *.
  assert (Hof : Float.of_int side == W).
  { unfold Float.of_int. apply round_inject. lia. }
  unfold Float.int_mul.
  set (P := Float.of_int side * scale).
  assert (HP : P == W * scale) by (unfold P; now rewrite Hof).
  assert (HP0 : 0 <= P) by (rewrite HP; nra).
  destruct (round_error P HP0) as [Hr Hr'].
  pose proof (round_nonneg P HP0) as Hr0.
  set (r := Float.round P) in *.
  rewrite (to_int_floor r Hr0).
  destruct (floor_bounds r) as [Hf Hf'].
  set (A := L / W) in *.
  assert (HA : W * A == L) by (unfold A; field; lra).
  assert (HA0 : 0 <= A) by (unfold A; apply Qle_shift_div_l; lra).
  destruct (round_error A HA0) as [_ Ha].
  assert (HPa : P <= L * (1 + (1 # 9007199254740992))).
  { rewrite HP, <- HA. nra. }
  assert (HPW : P <= W) by (rewrite HP; nra).
  (* the floor of the exact product survives the rounding *)
  destruct (floor_bounds P) as [Hk Hk'].
  assert (Hk0 : (0 <= Qfloor P)%Z).
  { rewrite <- (Qfloor_Z 0%Z). now apply Qfloor_resp_le. }
  assert (HkW : (Qfloor P <= side)%Z).
  { rewrite <- (Qfloor_Z side). now apply Qfloor_resp_le. }
  assert (Hkr : inject_Z (Qfloor P) <= r).
  { rewrite <- (round_inject (Qfloor P)) by lia.
    apply round_le; [| exact Hk]. change 0 with (inject_Z 0%Z).
    now rewrite <- Zle_Qle. }
  assert (Hkn : (Qfloor P <= Qfloor r)%Z).
  { rewrite <- (Qfloor_Z (Qfloor P)). now apply Qfloor_resp_le. }
  assert (HrW : r <= W).
  { unfold r. rewrite <- Hof. unfold Float.of_int. now apply round_le. }
  split; [| split; [| split; [| split]]].
  - lia.
  - apply Z.lt_succ_r. rewrite Zlt_Qlt. unfold Z.succ. rewrite inject_Z_plus.
    change (inject_Z 1%Z) with 1. fold L. nra.
  - rewrite Zle_Qle. fold W. lra.
  - rewrite Zle_Qle in Hkn. rewrite <- HP. lra.
  - rewrite <- HP. nra.
Qed.

Lemma round_below_one :
  Float.round (9007199254740991 # 9007199254740992)
  == 9007199254740991 # 9007199254740992.
Proof. vm_compute. reflexivity. Qed.

(** A quotient of two sides that rounds to at least one is at least one. *)
Lemma quotient_at_least_one (limit side : Z) :
  (1 <= side < 2 ^ 26)%Z -> (0 <= limit)%Z ->
  1 <= Float.round (inject_Z limit / inject_Z side) -> (side <= limit)%Z.
Proof.
  intros [Hs Hs'] Hl Hone.
  destruct (Z_lt_le_dec limit side) as [Hlt | Hle]; [exfalso | assumption].
  assert (HW : 1 <= inject_Z side /\ inject_Z side < 67108864 # 1).
  { change 1 with (inject_Z 1%Z). change (67108864 # 1) with (inject_Z (2 ^ 26)%Z).
    now rewrite <- Zle_Qle, <- Zlt_Qlt. }
  assert (HL : 0 <= inject_Z limit /\ inject_Z limit + 1 <= inject_Z side).
  { change 0 with (inject_Z 0%Z). change 1 with (inject_Z 1%Z).
    rewrite <- inject_Z_plus, <- !Zle_Qle. lia. }
  destruct HW as [HW1 HW2], HL as [HL0 HL1].
  set (W := inject_Z side) in *. set (L := inject_Z limit) in *.
  assert (HA0 : 0 <= L / W) by (apply Qle_shift_div_l; lra).
  assert (HA : L / W <= 9007199254740991 # 9007199254740992).
  { apply Qle_shift_div_r; [lra |]. nra. }
  pose proof (round_le _ _ HA0 HA) as Hr. rewrite round_below_one in Hr. lra.
Qed.

Section ResizeArithmetic.

Variable cfg : Config.
Variables max_width max_height : Z.
Hypothesis max_width_set : MAX_WIDTH cfg = Some max_width.
Hypothesis max_height_set : MAX_HEIGHT cfg = Some max_height.

(** Lines 140-143 for an image with positive sides. *)
Lemma resize_target_formula (width height : Z) :
  (1 <= width)%Z -> (1 <= height)%Z ->
  resize_target cfg width height
  = Ok (let scale :=
    Float.min3 (Float.round (inject_Z max_width / inject_Z width))
               (Float.round (inject_Z max_height / inject_Z height)) 1 in
  if Float.ltb scale 1 then
    Some (Float.to_int (Float.int_mul width scale),
          Float.to_int (Float.int_mul height scale))
  else None).
Proof.
  intros Hw Hh. unfold resize_target, resize_scale, Float.truediv.
  rewrite max_width_set, max_height_set.
  replace (width =? 0)%Z with false by (symmetry; apply Z.eqb_neq; lia).
  replace (height =? 0)%Z with false by (symmetry; apply Z.eqb_neq; lia).
  cbv zeta. now destruct (Float.ltb _ 1).
Qed.

Lemma resize_target_bounds (width height : Z) (new_width new_height : Z) :
  (1 <= width < 2 ^ 26)%Z -> (1 <= height < 2 ^ 26)%Z ->
  (0 <= max_width < 2 ^ 26)%Z -> (0 <= max_height < 2 ^ 26)%Z ->
  resize_target cfg width height = Ok (Some (new_width, new_height)) ->
  (0 <= new_width <= max_width)%Z /\ (new_width <= width)%Z /\
  (0 <= new_height <= max_height)%Z /\ (new_height <= height)%Z /\
  (- height <= new_width * height - new_height * width <= width)%Z.
Proof.
  intros Hw Hh Hmw Hmh. rewrite resize_target_formula by lia. cbv zeta.
  set (a := Float.round (inject_Z max_width / inject_Z width)).
  set (b := Float.round (inject_Z max_height / inject_Z height)).
  destruct (min3_spec a b 1) as (Ha & Hb & H1 & Hmin).
  set (scale := Float.min3 a b 1) in *.
  destruct (Float.ltb scale 1) eqn:Hlt; [| discriminate].
  intros [= <- <-]. apply ltb_lt in Hlt.
  pose proof (side_in_Q width Hw) as HW.
  pose proof (side_in_Q height Hh) as HH.
  assert (HMW : 0 <= inject_Z max_width)
    by (change 0 with (inject_Z 0%Z); rewrite <- Zle_Qle; lia).
  assert (HMH : 0 <= inject_Z max_height)
    by (change 0 with (inject_Z 0%Z); rewrite <- Zle_Qle; lia).
  assert (Ha0 : 0 <= a) by (apply round_nonneg, Qle_shift_div_l; lra).
  assert (Hb0 : 0 <= b) by (apply round_nonneg, Qle_shift_div_l; lra).
  assert (Hs0 : 0 <= scale) by (destruct Hmin as [-> | [-> | ->]]; lra).
  destruct (new_side_bounds max_width width scale Hw Hmw Hs0 Hlt Ha)
    as (Hn0 & Hnm & Hnw & Hlo & Hhi).
  destruct (new_side_bounds max_height height scale Hh Hmh Hs0 Hlt Hb)
    as (Hn0' & Hnm' & Hnw' & Hlo' & Hhi').
  set (nw := Float.to_int (Float.int_mul width scale)) in *.
  set (nh := Float.to_int (Float.int_mul height scale)) in *.
  assert (Hlow : (nh * width < nw * height + height + 1)%Z).
  { rewrite Zlt_Qlt, !inject_Z_plus, !inject_Z_mult. change (inject_Z 1%Z) with 1.
    destruct HW, HH. nra. }
  assert (Hhigh : (nw * height < nh * width + width + 1)%Z).
  { rewrite Zlt_Qlt, !inject_Z_plus, !inject_Z_mult. change (inject_Z 1%Z) with 1.
    destruct HW, HH. nra. }
  repeat split; try assumption; lia.
Qed.

(** An image that is not resized is within both limits. *)
Lemma resize_target_none (width height : Z) :
  (1 <= width < 2 ^ 26)%Z -> (1 <= height < 2 ^ 26)%Z ->
  (0 <= max_width)%Z -> (0 <= max_height)%Z ->
  resize_target cfg width height = Ok None ->
  (width <= max_width)%Z /\ (height <= max_height)%Z.
Proof.
  intros Hw Hh Hmw Hmh. rewrite resize_target_formula by lia. cbv zeta.
  set (a := Float.round (inject_Z max_width / inject_Z width)).
  set (b := Float.round (inject_Z max_height / inject_Z height)).
  destruct (min3_spec a b 1) as (Ha & Hb & H1 & Hmin).
  set (scale := Float.min3 a b 1) in *.
  destruct (Float.ltb scale 1) eqn:Hlt; [discriminate |]. intros _.
  assert (Hge : 1 <= scale).
  { apply Qnot_lt_le. intros H. apply ltb_lt in H. congruence. }
  split; apply quotient_at_least_one; try assumption.
  - fold a. lra.
  - fold b. lra.
Qed.

End ResizeArithmetic.

End FloatFacts.

Section ResizeClaim.

Context {pil : Pillow}.
Variable cfg : Config.



End ResizeClaim.


(** ** The statements at work on a small tree *)

Ltac decide_by_computation :=
  match goal with
  | |- ?P => refine (@bool_decide_unpack P _ _); vm_compute; exact I
  end.

Section Witnesses.

Lemma C1_witness :
  let r := optimize_image source_config Toy.photo_path Toy.root
           (Some Toy.backup_root) Toy.converted in
  fst r = Ok tt /\
  fs (snd r) = fs Toy.converted /\
  trace (snd r) = trace Toy.converted ++ [EPrint WARNING (MsgSkipping Toy.photo_path)].
Proof.
  apply (C1_existing_output_is_skipped source_config Toy.photo_path Toy.root
         (Some Toy.backup_root) Toy.photo_webp Toy.converted);
  vm_compute; reflexivity.
Defined.

Lemma C9_witness :
  let w' := rerun source_config Toy.photo_path Toy.root (Some Toy.backup_root) 3
            Toy.stale in
  fs w' = fs Toy.stale /\
  Fs.st_size (fs w') Toy.photo_webp = Ok 0%Z /\
  trace w' = trace Toy.stale
           ++ repeat (EPrint WARNING (MsgSkipping Toy.photo_path)) 3.
Proof.
  apply (C9_empty_output_blocks_reprocessing source_config Toy.photo_path Toy.root
         (Some Toy.backup_root) Toy.photo_webp Toy.stale 3);
  vm_compute; reflexivity.
Defined.



Lemma webp_not_supported : ".webp" ∉ SUPPORTED_EXTENSIONS source_config.
Proof. decide_by_computation. Defined.

Lemma C6_witness :
  let w' := snd (optimize_image source_config Toy.photo_path Toy.root
                 (Some Toy.backup_root) (Toy.world [])) in
  DELETE_ORIGINALS source_config = true /\
  Fs.exists_ (fs w') Toy.photo_webp = true /\
  exists n, Fs.st_size (fs w') Toy.photo_webp = Ok n /\ (0 < n)%Z.
Proof.
  apply (proj1 (proj2 (C6_verification_gates_deletion source_config Toy.photo_path
                       Toy.root (Some Toy.backup_root) Toy.photo_webp (Toy.world [])
                       eq_refl)));
  vm_compute; reflexivity.
Defined.

Lemma C10_witness :
  Toy.photo_webp <> Toy.photo_path /\
  (forall f, is_image_file source_config f Toy.photo_webp = false).
Proof.
  destruct (C10_outputs_are_never_inputs source_config Toy.photo_path Toy.root
            (Some Toy.backup_root) Toy.photo_webp (Toy.world [])
            webp_not_supported eq_refl) as (H1 & H2 & _).
  split; [apply H1 | exact H2].
  decide_by_computation.
Defined.



Lemma C4_witness :
  process_entries source_config Toy.root (Some Toy.backup_root)
  [Toy.root ++ ["notes.txt"]] 0 (Toy.world [])
  = (Ok 0%nat, Toy.world []).
Proof.
  apply (proj2 (C4_steps_in_script_order source_config (Toy.root ++ ["notes.txt"])
                Toy.root (Some Toy.backup_root) (Toy.world [])) [] 0%nat).
  vm_compute. discriminate.
Defined.


End Witnesses.
Section MorePathFacts.

Lemma relative_to_spec (p root rel : Path) :
  PathLib.relative_to p root = Some rel <-> p = root ++ rel.
Proof.
  revert p. induction root as [|r root IH]; intros p.
  - destruct p; simpl; split; congruence.
  - destruct p as [|c p]; simpl; [split; discriminate |].
    destruct (String.eqb r c) eqn:E.
    + apply String.eqb_eq in E. subst c. rewrite IH. split; congruence.
    + apply String.eqb_neq in E. split; [discriminate | congruence].
Qed.

Lemma relative_to_None (p root : Path) :
  PathLib.relative_to p root = None <-> ¬ root `prefix_of` p.
Proof.
  split.
  - intros H [k ->]. now rewrite (proj2 (relative_to_spec _ _ k) eq_refl) in H.
  - intros H. destruct (PathLib.relative_to p root) as [rel|] eqn:E; [| reflexivity].
    apply relative_to_spec in E as ->. exfalso. apply H. now exists rel.
Qed.

Lemma rfind_app (c : ascii) (a b : string) :
  Str.rfind c (a +:+ b)
  = match Str.rfind c b with
    | Some i => Some (String.length a + i)%nat
    | None => Str.rfind c a
    end.
Proof.
  induction a as [|x a IH]; rewrite ?append_cons, ?append_nil.
  - simpl. now destruct (Str.rfind c b).
  - cbn [Str.rfind String.length]. rewrite IH.
    destruct (Str.rfind c b); [reflexivity |].
    reflexivity.
Qed.

Lemma take_app_length (a b : string) : Str.take (String.length a) (a +:+ b) = a.
Proof.
  induction a as [|x a IH]; rewrite ?append_cons, ?append_nil; simpl;
    [now destruct b | now rewrite IH].
Qed.

Lemma string_length_zero (s : string) : String.length s = 0%nat -> s = "".
Proof. now destruct s. Qed.

Lemma rfind_dot_first (e : string) :
  Str.rfind "." e = None -> Str.rfind "." (String "." e) = Some 0%nat.
Proof. intros H. cbn [Str.rfind]. now rewrite H. Qed.

Lemma suffix_of_stem_ext (stem e : string) :
  stem <> "" -> e <> "" -> Str.rfind "." e = None ->
  PathLib.suffix_of_name (stem +:+ String "." e) = String "." e.
Proof.
  intros Hs He Hdot. unfold PathLib.suffix_of_name.
  rewrite rfind_app, (rfind_dot_first _ Hdot).
  rewrite Nat.add_0_r, string_app_length. cbn [String.length].
  assert (0 < String.length stem)%nat.
  { destruct stem; [congruence | simpl; lia]. }
  assert (0 < String.length e)%nat.
  { destruct e; [congruence | simpl; lia]. }
  replace (0 <? String.length stem)%nat with true by (symmetry; apply Nat.ltb_lt; lia).
  replace (String.length stem <? String.length stem + S (String.length e) - 1)%nat
    with true by (symmetry; apply Nat.ltb_lt; lia).
  cbn [andb]. apply drop_app_length.
Qed.

Lemma name_with_suffix_stem_ext (stem e : string) :
  stem <> "" -> e <> "" -> Str.rfind "." e = None ->
  PathLib.name_with_suffix (stem +:+ String "." e) ".webp" = stem +:+ ".webp".
Proof.
  intros Hs He Hdot. unfold PathLib.name_with_suffix.
  rewrite (suffix_of_stem_ext _ _ Hs He Hdot).
  rewrite string_app_length.
  replace (String.length stem + String.length (String "." e) - String.length (String "." e))%nat
    with (String.length stem) by lia.
  now rewrite take_app_length.
Qed.

(** A name that starts with its only dot, or ends with a dot, has no suffix. *)
Lemma suffix_of_dotfile (e : string) :
  Str.rfind "." e = None -> PathLib.suffix_of_name (String "." e) = "".
Proof.
  intros Hdot. unfold PathLib.suffix_of_name. now rewrite (rfind_dot_first _ Hdot).
Qed.

Lemma suffix_of_trailing_dot (stem : string) :
  PathLib.suffix_of_name (stem +:+ ".") = "".
Proof.
  unfold PathLib.suffix_of_name. rewrite rfind_app.
  change (Str.rfind "." ".") with (Some 0%nat). cbn iota.
  rewrite Nat.add_0_r, string_app_length. cbn [String.length].
  replace (String.length stem <? String.length stem + 1 - 1)%nat with false
    by (symmetry; apply Nat.ltb_ge; lia).
  now rewrite andb_false_r.
Qed.

End MorePathFacts.

(** ** The walk over the tree *)

Section Walk.

Variable cfg : Config.

Lemma elem_of_keys (f : FS) (p : Path) :
  p ∈ map fst (map_to_list f) <-> exists n, f !! p = Some n.
Proof.
  change (map fst (map_to_list f)) with ((map_to_list f).*1).
  rewrite list_elem_of_fmap. split.
  - intros ([q n] & -> & H). apply elem_of_map_to_list in H. eauto.
  - intros [n H]. exists (p, n). split; [reflexivity |]. now apply elem_of_map_to_list.
Qed.

Lemma rglob_spec (f : FS) (root p : Path) :
  p ∈ Fs.rglob f root <->
  (exists n, f !! p = Some n) /\ root `prefix_of` p /\ p <> root.
Proof. unfold Fs.rglob. rewrite list_elem_of_filter, elem_of_keys. tauto. Qed.

Lemma glob_spec (f : FS) (root p : Path) :
  p ∈ Fs.glob f root <->
  (exists n, f !! p = Some n) /\ PathLib.parent p = root /\ p <> [].
Proof. unfold Fs.glob. rewrite list_elem_of_filter, elem_of_keys. tauto. Qed.



Lemma parent_prefix (p : Path) : p <> [] -> PathLib.parent p `prefix_of` p.
Proof.
  intros Hp. destruct (exists_last Hp) as (d & c & ->).
  rewrite parent_snoc. now exists [c].
Qed.

(** The entries lie strictly below [root] and are nodes of the tree. *)
Lemma iter_entries_below (f : FS) (root p : Path) :
  p ∈ iter_entries cfg f root ->
  (exists n, f !! p = Some n) /\ root `prefix_of` p /\ p <> root /\ p <> [].
Proof.
  unfold iter_entries. destruct (RECURSIVE cfg).
  - rewrite rglob_spec. intros (Hn & Hpre & Hne). repeat split; try assumption.
    intros ->. apply Hne. destruct Hpre as [k Hk].
    symmetry in Hk. now apply app_eq_nil in Hk as [-> _].
  - rewrite glob_spec. intros (Hn & <- & Hne). repeat split; try assumption.
    + now apply parent_prefix.
    + intros E. destruct (exists_last Hne) as (d & c & ->).
      rewrite parent_snoc in E. apply (f_equal length) in E.
      rewrite length_app in E. simpl in E. lia.
Qed.

End Walk.

(** ** The loop and the run as a whole *)

Section RunLogic.

Context {pil : Pillow}.
Variable cfg : Config.

Section FsSteps.

Variable R : FS -> FS -> Prop.
Hypothesis R_refl : forall f, R f f.
Hypothesis R_trans : forall f1 f2 f3, R f1 f2 -> R f2 f3 -> R f1 f3.

(** What holds of every call the loop makes holds of the loop. *)
Lemma process_entries_fs_step (root : Path) (backup_root : option Path) :
  (forall path w, is_image_file cfg (fs w) path = true ->
     R (fs w) (fs (snd (optimize_image cfg path root backup_root w)))) ->
  forall it count, fs_step R (process_entries cfg root backup_root it count).
Proof.
  intros Hstep it. induction it as [|p it IH]; intros count w; cbn [process_entries].
  - apply R_refl.
  - unfold bind at 1, get_fs. cbn beta iota.
    destruct (is_image_file cfg (fs w) p) eqn:Hp; [| apply IH].
    unfold bind. specialize (Hstep p w Hp).
    destruct (optimize_image cfg p root backup_root w) as [[[]|e] w1]; cbn [snd] in *.
    + eapply R_trans; [exact Hstep | apply IH].
    + exact Hstep.
Qed.

End FsSteps.

(** [run], stage by stage: the backup folder, the loop over the entries of
    the tree as it is then, the closing lines. *)
Lemma run_stages (root : Path) (w : World) :
  run cfg root w
  = match tree_at_loop cfg root (fs w) with
    | Raise e => (Raise e, extend w (backup_folder_events cfg root))
    | Ok f1 =>
      match process_entries cfg root (main_backup_root cfg root)
              (iter_entries cfg f1 root) 0
              (world_after w f1 (backup_folder_events cfg root)) with
      | (Ok count, w2) => (Ok tt, extend w2 (closing_lines count))
      | (Raise e, w2) => (Raise e, w2)
      end
    end.
Proof.
  unfold run, tree_at_loop, main_backup_root, backup_folder_events,
    ensure_backup_folder, mkdir_exist_ok, closing_lines, print_status, world_after.
  unfold bind, emit, get_fs, put_fs, lift, ret, raise, extend.
  destruct (MAKE_BACKUP cfg); cbn [fs stdin trace fst snd].
  - destruct (Fs.mkdir (fs w) _) as [f1|e]; cbn [fs stdin trace fst snd];
      [| reflexivity].
    destruct (process_entries _ _ _ _ _ _) as [[count|e] w2]; [| reflexivity].
    destruct (count =? 0)%nat; cbn [fs stdin trace]; [reflexivity |].
    now rewrite <- app_assoc.
  - rewrite app_nil_r. destruct w as [f i t]; cbn [fs stdin trace].
    destruct (process_entries _ _ _ _ _ _) as [[count|e] w2]; [| reflexivity].
    destruct (count =? 0)%nat; cbn [fs stdin trace]; [reflexivity |].
    now rewrite <- app_assoc.
Qed.

(** [main], stage by stage: the banner, the prompt when originals are to be
    deleted, the run. *)
Lemma main_stages (root : Path) (w : World) :
  main cfg root w
  = if DELETE_ORIGINALS cfg then
      match stdin w with
      | [] =>
        (Raise (OtherException "EOFError"),
         world_after w (fs w) (banner_events cfg root ++ [EInput]))
      | answer :: rest =>
        let prompted :=
          {| fs := fs w; stdin := rest;
             trace := trace w ++ banner_events cfg root ++ [EInput] |} in
        if String.eqb (Str.upper (Str.strip answer)) "SI" then run cfg root prompted
        else (Ok tt, extend prompted [EPrint ERROR MsgCancelled])
      end
    else run cfg root (extend w (banner_events cfg root)).
Proof.
  unfold main. unfold bind at 1. rewrite banner_run.
  destruct (DELETE_ORIGINALS cfg); [| reflexivity].
  unfold bind, input, extend, world_after, print_status, emit. cbn [fs stdin trace].
  destruct (stdin w) as [|answer rest].
  - now rewrite <- app_assoc.
  - destruct (String.eqb (Str.upper (Str.strip answer)) "SI"); cbn [negb fs stdin trace];
      [now rewrite <- app_assoc | now rewrite <- !app_assoc].
Qed.

Section RunSteps.

Variable R : FS -> FS -> Prop.
Hypothesis R_refl : forall f, R f f.
Hypothesis R_trans : forall f1 f2 f3, R f1 f2 -> R f2 f3 -> R f1 f3.

Lemma run_fs_step (root : Path) :
  (forall f f', Fs.mkdir f (PathLib.joinpath root [BACKUP_FOLDER_NAME cfg]) = Ok f' ->
     R f f') ->
  (forall path w, is_image_file cfg (fs w) path = true ->
     R (fs w) (fs (snd (optimize_image cfg path root (main_backup_root cfg root) w)))) ->
  fs_step R (run cfg root).
Proof.
  intros Hmk Hstep w. rewrite run_stages.
  destruct (tree_at_loop cfg root (fs w)) as [f1|e] eqn:E; [| apply R_refl].
  assert (H1 : R (fs w) f1).
  { unfold tree_at_loop in E. destruct (MAKE_BACKUP cfg); [now apply Hmk |].
    injection E as <-. apply R_refl. }
  pose proof (process_entries_fs_step R R_refl R_trans root _ Hstep
                (iter_entries cfg f1 root) 0
                (world_after w f1 (backup_folder_events cfg root))) as H2.
  cbn [fs world_after] in H2.
  destruct (process_entries _ _ _ _ _ _) as [[count|e] w2]; cbn [snd fs extend] in *;
    now apply (R_trans _ f1).
Qed.

Lemma main_fs_step (root : Path) :
  (forall f f', Fs.mkdir f (PathLib.joinpath root [BACKUP_FOLDER_NAME cfg]) = Ok f' ->
     R f f') ->
  (forall path w, is_image_file cfg (fs w) path = true ->
     R (fs w) (fs (snd (optimize_image cfg path root (main_backup_root cfg root) w)))) ->
  fs_step R (main cfg root).
Proof.
  intros Hmk Hstep w. rewrite main_stages.
  destruct (DELETE_ORIGINALS cfg).
  - destruct (stdin w) as [|answer rest]; [apply R_refl |]. cbv zeta.
    destruct (String.eqb _ _); [| apply R_refl].
    apply (run_fs_step root Hmk Hstep
             {| fs := fs w; stdin := rest;
                trace := trace w ++ banner_events cfg root ++ [EInput] |}).
  - apply (run_fs_step root Hmk Hstep (extend w (banner_events cfg root))).
Qed.

End RunSteps.

Section RunEvents.

Variable Φ : Effect -> Prop.
Hypothesis Φ_print : forall s m, Φ (EPrint s m).

Lemma process_entries_emits (root : Path) (backup_root : option Path) :
  (forall path, emits Φ (optimize_image cfg path root backup_root)) ->
  forall it count, emits Φ (process_entries cfg root backup_root it count).
Proof.
  intros Hstep it. induction it as [|p it IH]; intros count; cbn [process_entries].
  - apply emits_ret.
  - apply emits_bind; [apply emits_get_fs |]. intros f.
    destruct (is_image_file cfg f p); [| apply IH].
    apply emits_bind; [apply Hstep | intros _; apply IH].
Qed.

Lemma run_emits (root : Path) :
  (MAKE_BACKUP cfg = true ->
   Φ (EMkdir (PathLib.joinpath root [BACKUP_FOLDER_NAME cfg]))) ->
  (forall path, emits Φ (optimize_image cfg path root (main_backup_root cfg root))) ->
  emits Φ (run cfg root).
Proof.
  intros Hmk Hstep w. rewrite run_stages.
  assert (Hb : Forall Φ (backup_folder_events cfg root)).
  { unfold backup_folder_events. destruct (MAKE_BACKUP cfg); repeat constructor; auto. }
  destruct (tree_at_loop cfg root (fs w)) as [f1|e]; [| now eexists].
  destruct (process_entries_emits root _ Hstep (iter_entries cfg f1 root) 0
              (world_after w f1 (backup_folder_events cfg root))) as (t & Ht & HΦ).
  cbn [trace world_after] in Ht.
  destruct (process_entries _ _ _ _ _ _) as [[count|e] w2]; cbn [snd trace extend] in *.
  - exists (backup_folder_events cfg root ++ t ++ closing_lines count).
    rewrite Ht, <- !app_assoc. split; [reflexivity |].
    rewrite !Forall_app. repeat split; try assumption.
    unfold closing_lines. destruct (count =? 0)%nat; repeat constructor; auto.
  - exists (backup_folder_events cfg root ++ t).
    rewrite Ht, <- !app_assoc. split; [reflexivity |].
    rewrite !Forall_app. now split.
Qed.

Lemma banner_events_prints (root : Path) : Forall Φ (banner_events cfg root).
Proof.
  unfold banner_events.
  destruct (DELETE_ORIGINALS cfg), (MAKE_BACKUP cfg); repeat constructor; auto.
Qed.

Lemma main_emits (root : Path) :
  (DELETE_ORIGINALS cfg = true -> Φ EInput) ->
  (MAKE_BACKUP cfg = true ->
   Φ (EMkdir (PathLib.joinpath root [BACKUP_FOLDER_NAME cfg]))) ->
  (forall path, emits Φ (optimize_image cfg path root (main_backup_root cfg root))) ->
  emits Φ (main cfg root).
Proof.
  intros Hin Hmk Hstep w. rewrite main_stages.
  pose proof (banner_events_prints root) as Hban.
  destruct (DELETE_ORIGINALS cfg).
  - specialize (Hin eq_refl).
    destruct (stdin w) as [|answer rest].
    + eexists. split; [reflexivity |]. rewrite Forall_app. split; [assumption |].
      now repeat constructor.
    + cbv zeta. destruct (String.eqb _ _).
      * destruct (run_emits root Hmk Hstep
                    {| fs := fs w; stdin := rest;
                       trace := trace w ++ banner_events cfg root ++ [EInput] |})
          as (t & Ht & HΦ).
        cbn [trace] in Ht. exists (banner_events cfg root ++ [EInput] ++ t).
        rewrite Ht, <- !app_assoc. split; [reflexivity |].
        rewrite !Forall_app. repeat split; try assumption. now repeat constructor.
      * exists (banner_events cfg root ++ [EInput; EPrint ERROR MsgCancelled]).
        cbn [snd trace extend]. rewrite <- !app_assoc. split; [reflexivity |].
        rewrite Forall_app. split; [assumption |]. now repeat constructor.
  - destruct (run_emits root Hmk Hstep (extend w (banner_events cfg root)))
      as (t & Ht & HΦ).
    cbn [trace extend] in Ht. exists (banner_events cfg root ++ t).
    rewrite Ht, <- !app_assoc. split; [reflexivity |].
    rewrite Forall_app. now split.
Qed.

End RunEvents.

End RunLogic.

(** ** What a run keeps, adds and removes *)

Section Safety.

Context {pil : Pillow}.
Variable cfg : Config.

(** A call of [optimize_image] keeps every node of the tree, the original
    apart when it is removed after a verified conversion. *)
Lemma optimize_image_kept (file_path root : Path) (backup_root : option Path)
  (w : World) (q : Path) (n : Node) :
  Fs.node_at (fs w) q = Some n ->
  let w' := snd (optimize_image cfg file_path root backup_root w) in
  Fs.node_at (fs w') q = Some n \/
  (q = file_path /\ DELETE_ORIGINALS cfg = true /\
   exists out, PathLib.with_suffix file_path ".webp" = Some out /\
               output_verified (fs w') out = true).
Proof.
  intros Hq. cbv zeta.
  destruct (PathLib.with_suffix file_path ".webp") as [out|] eqn:Hout.
  2:{ left. unfold optimize_image. now rewrite Hout. }
  destruct (Fs.exists_ (fs w) out) eqn:Hex.
  { left. now rewrite (optimize_image_skip cfg _ _ _ _ _ Hout Hex). }
  destruct (optimize_image_fs cfg file_path root backup_root out w Hout Hex)
    as (f1 & [Hkeep _] & Hend).
  assert (Hqo : q <> out).
  { intros ->. apply exists_false in Hex. congruence. }
  specialize (Hkeep q n Hq Hqo).
  destruct Hend as [-> | (-> & Hnil & _ & Hdel & Hne & Hver)]; [now left |].
  destruct (decide (q = file_path)) as [-> | Hqf].
  - right. repeat split; try assumption. exists out. split; [reflexivity |].
    now rewrite output_verified_delete.
  - left. rewrite node_at_delete by assumption. now rewrite decide_False by congruence.
Qed.

Lemma mkdir_extends (f f' : FS) (p : Path) : Fs.mkdir f p = Ok f' -> fs_extends f f'.
Proof. intros H. now apply fs_adds_dirs_extends, (mkdir_Ok f f' p). Qed.

Lemma optimize_image_quiet (file_path root : Path) (backup_root : option Path) :
  DELETE_ORIGINALS cfg = false ->
  emits no_removal_no_prompt (optimize_image cfg file_path root backup_root).
Proof.
  intros Hdel. unfold_script. rewrite Hdel. cbn [andb].
  repeat emits_step; exact I.
Qed.

(** X1. With [DELETE_ORIGINALS] off a run only adds to the tree: every file
    and folder that was there is there unchanged when [main] returns; no
    removal is attempted and the prompt is not shown. *)
Theorem deletion_off_run_only_adds (root : Path) (w : World) :
  DELETE_ORIGINALS cfg = false ->
  let w' := snd (main cfg root w) in
  fs_extends (fs w) (fs w') /\
  (exists t, trace w' = trace w ++ t /\ Forall no_removal_no_prompt t).
Proof.
  intros Hdel. cbv zeta. split.
  - apply (main_fs_step cfg fs_extends fs_extends_refl fs_extends_trans root).
    + intros f f'. apply mkdir_extends.
    + intros path w0 _ q n Hq.
      destruct (optimize_image_kept path root (main_backup_root cfg root) w0 q n Hq)
        as [H | (_ & H & _)]; [exact H | congruence].
  - apply (main_emits cfg no_removal_no_prompt); try (intros; exact I).
    + congruence.
    + intros path. now apply optimize_image_quiet.
Qed.

Lemma kept_or_converted_refl (f : FS) : kept_or_converted cfg f f.
Proof. intros q n Hq. now left. Qed.

Lemma output_verified_node (f f' : FS) (out : Path) :
  Fs.node_at f' out = Fs.node_at f out ->
  output_verified f' out = output_verified f out.
Proof. unfold output_verified, Fs.exists_, Fs.st_size. now intros ->. Qed.

Lemma output_verified_exists (f : FS) (out : Path) :
  output_verified f out = true -> exists n, Fs.node_at f out = Some n.
Proof.
  unfold output_verified, Fs.exists_.
  destruct (Fs.node_at f out) as [n|]; [eauto | discriminate].
Qed.

Lemma kept_or_converted_trans (f1 f2 f3 : FS) :
  ".webp" ∉ SUPPORTED_EXTENSIONS cfg ->
  kept_or_converted cfg f1 f2 -> kept_or_converted cfg f2 f3 ->
  kept_or_converted cfg f1 f3.
Proof.
  intros Hwebp H12 H23 q n Hq.
  destruct (H12 q n Hq) as [H2 | (Hsup & out & Hout & Hver)]; [now apply H23 |].
  right. split; [assumption |]. exists out. split; [assumption |].
  destruct (output_verified_exists _ _ Hver) as [m Hm].
  destruct (H23 out m Hm) as [H3 | (Hsup' & _)].
  - rewrite <- Hver. apply output_verified_node. congruence.
  - rewrite (suffix_with_suffix _ _ Hout) in Hsup'. contradiction.
Qed.

(** X2. Nothing is lost in a run.  Whatever the tree holds when [main] is
    called is still there unchanged when it returns, unless it has a
    supported extension and its [.webp] output is then in place with a size
    above zero. *)
Theorem run_keeps_or_converts (root : Path) (w : World) :
  ".webp" ∉ SUPPORTED_EXTENSIONS cfg ->
  kept_or_converted cfg (fs w) (fs (snd (main cfg root w))).
Proof.
  intros Hwebp.
  apply (main_fs_step cfg (kept_or_converted cfg) kept_or_converted_refl).
  - intros f1 f2 f3. now apply kept_or_converted_trans.
  - intros f f' Hmk q n Hq. left. now apply (mkdir_extends f f' _ Hmk).
  - intros path w0 Himg q n Hq.
    destruct (optimize_image_kept path root (main_backup_root cfg root) w0 q n Hq)
      as [H | (-> & _ & H)]; [now left | right].
    split; [| exact H]. now apply is_image_file_spec in Himg.
Qed.

Lemma adds_outputs_and_backups_refl (root : Path) (f : FS) :
  adds_outputs_and_backups cfg root f f.
Proof. intros q Hq. now left. Qed.

Lemma adds_outputs_and_backups_trans (root : Path) (f1 f2 f3 : FS) :
  adds_outputs_and_backups cfg root f1 f2 ->
  adds_outputs_and_backups cfg root f2 f3 ->
  adds_outputs_and_backups cfg root f1 f3.
Proof.
  intros H12 H23 q Hq. destruct (H23 q Hq) as [H | H]; [now apply H12 | now right].
Qed.

Lemma is_file_delete (f : FS) (p q : Path) :
  p <> [] -> Fs.is_file (delete p f) q = true -> Fs.is_file f q = true.
Proof.
  intros Hp. unfold Fs.is_file. rewrite node_at_delete by assumption.
  now destruct (decide (p = q)).
Qed.

Lemma optimize_image_adds (file_path root : Path) (w : World) :
  adds_outputs_and_backups cfg root (fs w)
    (fs (snd (optimize_image cfg file_path root (main_backup_root cfg root) w))).
Proof.
  destruct (PathLib.with_suffix file_path ".webp") as [out|] eqn:Hout.
  2:{ unfold optimize_image. rewrite Hout. apply adds_outputs_and_backups_refl. }
  destruct (Fs.exists_ (fs w) out) eqn:Hex.
  { rewrite (optimize_image_skip cfg _ _ _ _ _ Hout Hex).
    apply adds_outputs_and_backups_refl. }
  destruct (optimize_image_fs cfg file_path root (main_backup_root cfg root) out w
              Hout Hex) as (f1 & [_ Hnew] & Hend).
  intros q Hq.
  assert (H1 : Fs.is_file f1 q = true).
  { destruct Hend as [E | (E & Hnil & _)]; rewrite E in Hq; [exact Hq |].
    now apply (is_file_delete f1 file_path). }
  destruct (Hnew q H1) as [H | [-> | (br & rel & Hbr & _ & ->)]].
  - now left.
  - right. left. now apply (suffix_with_suffix file_path).
  - right. right. unfold main_backup_root in Hbr.
    destruct (MAKE_BACKUP cfg); [| discriminate]. injection Hbr as <-.
    split; [reflexivity |]. now exists rel.
Qed.

(** X3. What a run adds.  Every regular file the tree holds when [main]
    returns was a regular file before, or carries the extension [.webp], or
    lies in the backup folder of [root]; the last only when backups are
    enabled. *)
Theorem run_adds_outputs_and_backups (root : Path) (w : World) :
  adds_outputs_and_backups cfg root (fs w) (fs (snd (main cfg root w))).
Proof.
  apply (main_fs_step cfg (adds_outputs_and_backups cfg root)
           (adds_outputs_and_backups_refl root)
           (adds_outputs_and_backups_trans root)).
  - intros f f' Hmk q Hq. left.
    destruct (mkdir_Ok f f' _ Hmk) as [Hadd _].
    unfold Fs.is_file in *. destruct (Hadd q) as [E | [_ E]]; rewrite E in Hq;
      [exact Hq | discriminate].
  - intros path w0 _. apply optimize_image_adds.
Qed.

End Safety.

(** ** Backups disabled, and the backup folder *)

Section BackupFolder.

Context {pil : Pillow}.
Variable cfg : Config.

Lemma optimize_image_no_backup (file_path root : Path) :
  emits (fun e => makes_backup e = false) (optimize_image cfg file_path root None).
Proof. unfold_script. repeat emits_step; reflexivity. Qed.

(** X4. With [MAKE_BACKUP] off a run makes no backup: no folder is created
    and no file is copied, that is, [main] never calls [mkdir],
    [read_bytes] or [write_bytes]. *)
Theorem backup_off_no_backup_call (root : Path) (w : World) :
  MAKE_BACKUP cfg = false ->
  exists t, trace (snd (main cfg root w)) = trace w ++ t /\
            Forall (fun e => makes_backup e = false) t.
Proof.
  intros Hoff. apply (main_emits cfg (fun e => makes_backup e = false)).
  - reflexivity.
  - reflexivity.
  - congruence.
  - intros path. unfold main_backup_root. rewrite Hoff.
    apply optimize_image_no_backup.
Qed.

Lemma ensure_backup_folder_run (root : Path) (w : World) :
  ensure_backup_folder cfg root w
  = let br := PathLib.joinpath root [BACKUP_FOLDER_NAME cfg] in
    match Fs.mkdir (fs w) br with
    | Ok f' => (Ok br, world_after w f' [EMkdir br])
    | Raise e => (Raise e, extend w [EMkdir br])
    end.
Proof.
  unfold ensure_backup_folder, mkdir_exist_ok.
  unfold bind, emit, get_fs, put_fs, lift, ret, raise. cbn [fs stdin trace fst snd].
  now destruct (Fs.mkdir (fs w) _).
Qed.

Lemma mkdir_Raise (f : FS) (p : Path) (e : Exception) :
  Fs.mkdir f p = Raise e ->
  is_OSError e = true /\
  (Fs.is_file f p = true \/
   (Fs.exists_ f p = false /\ Fs.is_dir f (PathLib.parent p) = false)).
Proof.
  unfold Fs.mkdir, Fs.is_file, Fs.exists_, Fs.is_dir.
  destruct (Fs.node_at f p) as [[b|]|]; try discriminate.
  - intros [= <-]. split; [reflexivity | now left].
  - destruct (Fs.node_at f (PathLib.parent p)) as [[b|]|]; try discriminate;
      intros [= <-]; (split; [reflexivity | now right]).
Qed.

Lemma mkdir_touches (f f' : FS) (p q : Path) :
  Fs.mkdir f p = Ok f' -> q <> p -> Fs.node_at f' q = Fs.node_at f q.
Proof.
  unfold Fs.mkdir. destruct (Fs.node_at f p) as [[b|]|] eqn:Hp; try discriminate.
  - now intros [= <-].
  - destruct (Fs.node_at f (PathLib.parent p)) as [[b|]|]; try discriminate.
    intros [= <-] Hq. assert (p <> []) by (intros ->; discriminate).
    rewrite node_at_insert by assumption. now rewrite decide_False by congruence.
Qed.

(** X5. [ensure_backup_folder] makes the folder [root / BACKUP_FOLDER_NAME]
    and nothing else.  Every other node of the tree is left as it is.  When
    the call returns, the folder is a directory, and a second call finds it
    and changes nothing.  The call raises an [OSError] exactly when a regular
    file stands in the place of the folder or [root] is not a directory, and
    the tree is then unchanged. *)
Theorem ensure_backup_folder_makes_one_folder (root : Path) (w : World) :
  let br := PathLib.joinpath root [BACKUP_FOLDER_NAME cfg] in
  let r := ensure_backup_folder cfg root w in
  (forall q, q <> br -> Fs.node_at (fs (snd r)) q = Fs.node_at (fs w) q) /\
  (Fs.is_file (fs w) br = false -> Fs.is_dir (fs w) root = true ->
   fst r = Ok br /\ Fs.is_dir (fs (snd r)) br = true /\
   ensure_backup_folder cfg root (snd r) = (Ok br, extend (snd r) [EMkdir br])) /\
  (Fs.is_file (fs w) br = true \/
   (Fs.exists_ (fs w) br = false /\ Fs.is_dir (fs w) root = false) ->
   exists e, fst r = Raise e /\ is_OSError e = true /\ fs (snd r) = fs w).
Proof.
  cbv zeta. rewrite ensure_backup_folder_run. cbv zeta.
  set (br := PathLib.joinpath root [BACKUP_FOLDER_NAME cfg]).
  assert (Hpar : PathLib.parent br = root) by apply parent_snoc.
  split; [| split].
  - intros q Hq. destruct (Fs.mkdir (fs w) br) as [f'|e] eqn:E; [| reflexivity].
    now apply (mkdir_touches _ _ br).
  - intros Hfile Hroot.
    destruct (Fs.mkdir (fs w) br) as [f'|e] eqn:E.
    + destruct (mkdir_Ok _ _ _ E) as [_ Hdir]. cbn [fst snd fs world_after].
      split; [reflexivity |]. split; [exact Hdir |].
      rewrite ensure_backup_folder_run. cbv zeta. fold br. cbn [fs world_after].
      now rewrite (mkdir_is_dir _ _ Hdir).
    + exfalso. apply mkdir_Raise in E as [_ [E | [_ E]]]; [congruence |].
      rewrite Hpar in E. congruence.
  - intros Hbad. destruct (Fs.mkdir (fs w) br) as [f'|e] eqn:E.
    + exfalso. unfold Fs.mkdir, Fs.is_file, Fs.exists_, Fs.is_dir in *.
      rewrite Hpar in E.
      destruct (Fs.node_at (fs w) br) as [[b|]|]; try discriminate;
        destruct Hbad as [H | [H1 H2]]; try discriminate.
      destruct (Fs.node_at (fs w) root) as [[b|]|]; discriminate.
    + exists e. apply mkdir_Raise in E as [He _]. now repeat split.
Qed.

End BackupFolder.

(** ** The loop over the walk *)

Section LoopOverWalk.

Context {pil : Pillow}.
Variable cfg : Config.

Lemma lower_nil_inv (s : string) : Str.lower s = "" -> s = "".
Proof. now destruct s. Qed.









End LoopOverWalk.

(** ** Names, extensions and the filter *)

Section Eligibility.

Context {pil : Pillow}.
Variable cfg : Config.

Lemma process_entries_none (root : Path) (backup_root : option Path)
  (it : list Path) (count : nat) (w : World) :
  Forall (fun p => is_image_file cfg (fs w) p = false) it ->
  process_entries cfg root backup_root it count w = (Ok count, w).
Proof.
  induction 1 as [|p it Hp _ IH]; [reflexivity |].
  cbn [process_entries]. unfold bind at 1, get_fs. cbn beta iota. now rewrite Hp.
Qed.

Lemma in_backup_folder_rejected (f : FS) (p : Path) :
  BACKUP_FOLDER_NAME cfg ∈ p -> is_image_file cfg f p = false.
Proof.
  intros Hin. unfold is_image_file. destruct (Fs.is_file f p); [| reflexivity].
  cbn [negb]. rewrite bool_decide_eq_true_2; [reflexivity |].
  unfold PathLib.parts. now apply elem_of_cons; right.
Qed.

(** X8. The backup folder is never walked into.  The filter of
    [iter_image_files] rejects every path with a component equal to
    [BACKUP_FOLDER_NAME]: the destination of every backup is rejected, the
    loop passes over such entries without a call and without an effect, and
    when a component of [root] itself carries that name the walk finds no
    image at all. *)
Theorem backup_folder_is_never_walked (root : Path) :
  (forall f rel,
     is_image_file cfg f
       (PathLib.joinpath (PathLib.joinpath root [BACKUP_FOLDER_NAME cfg]) rel)
     = false) /\
  (forall backup_root it count w,
     Forall (fun p => BACKUP_FOLDER_NAME cfg ∈ p) it ->
     process_entries cfg root backup_root it count w = (Ok count, w)) /\
  (BACKUP_FOLDER_NAME cfg ∈ root -> forall f, iter_image_files cfg f root = []).
Proof.
  split; [| split].
  - intros f rel. apply in_backup_folder_rejected.
    unfold PathLib.joinpath. rewrite !elem_of_app, list_elem_of_singleton. auto.
  - intros backup_root it count w Hall. apply process_entries_none.
    eapply Forall_impl; [exact Hall |]. intros p. apply in_backup_folder_rejected.
  - intros Hroot f. unfold iter_image_files.
    rewrite (filter_ext_in _ (fun _ => false)); [apply List.filter_false |].
    intros p Hp. apply in_backup_folder_rejected.
    apply list_elem_of_In, iter_entries_below in Hp as (_ & [k ->] & _).
    apply elem_of_app. now left.
Qed.

Lemma suffix_snoc (d : Path) (n : string) :
  PathLib.suffix (d ++ [n]) = PathLib.suffix_of_name n.
Proof. unfold PathLib.suffix. now rewrite name_snoc. Qed.

Lemma with_suffix_snoc (d : Path) (n : string) :
  n <> "" ->
  PathLib.with_suffix (d ++ [n]) ".webp"
  = Some (d ++ [PathLib.name_with_suffix n ".webp"]).
Proof.
  intros Hn. unfold PathLib.with_suffix. rewrite name_snoc, parent_snoc.
  destruct n; [congruence | reflexivity].
Qed.

Lemma append_nonempty (a b : string) : a <> "" -> a +:+ b <> "".
Proof. destruct a; [congruence | discriminate]. Qed.

(** X9. How a name decides.  For a file [stem.ext] in a folder [d], with a
    stem that is not empty and an extension made of a dot and at least one
    character other than a dot: the filter accepts it exactly when it is a
    regular file outside the backup folder whose extension, in lower case,
    is supported; its output is [stem.webp] in the same folder.  A name that
    starts with its only dot, as [.jpg], or that ends in a dot has no
    extension for [pathlib] and is rejected unless the empty extension is
    supported. *)
Theorem name_decides_eligibility (f : FS) (d : Path) (stem ext : string) :
  stem <> "" -> is_extension ext ->
  (is_image_file cfg f (d ++ [stem +:+ ext]) = true <->
   Fs.is_file f (d ++ [stem +:+ ext]) = true /\
   (BACKUP_FOLDER_NAME cfg ∉ PathLib.parts (d ++ [stem +:+ ext])) /\
   Str.lower ext ∈ SUPPORTED_EXTENSIONS cfg) /\
  PathLib.with_suffix (d ++ [stem +:+ ext]) ".webp" = Some (d ++ [stem +:+ ".webp"]) /\
  ("" ∉ SUPPORTED_EXTENSIONS cfg ->
   is_image_file cfg f (d ++ [ext]) = false /\
   is_image_file cfg f (d ++ [stem +:+ "."]) = false).
Proof.
  intros Hstem (e & -> & He & Hdot). split; [| split].
  - rewrite is_image_file_spec, suffix_snoc.
    now rewrite (suffix_of_stem_ext _ _ Hstem He Hdot).
  - rewrite with_suffix_snoc by now apply append_nonempty.
    now rewrite (name_with_suffix_stem_ext _ _ Hstem He Hdot).
  - intros Hempty.
    split; apply not_true_is_false; rewrite is_image_file_spec, suffix_snoc;
      intros (_ & _ & H).
    + rewrite (suffix_of_dotfile _ Hdot) in H. now apply Hempty.
    + rewrite suffix_of_trailing_dot in H. now apply Hempty.
Qed.

(** X10. Two files of one folder with the same stem share their output.
    Once the output is there, for instance after the first of them was
    converted, a call of [optimize_image] on the second is a skip: it is
    not converted, not backed up and not removed. *)
Theorem same_stem_shares_output (d root : Path) (backup_root : option Path)
  (stem ext1 ext2 : string) (w : World) :
  stem <> "" -> is_extension ext1 -> is_extension ext2 ->
  let first := d ++ [stem +:+ ext1] in
  let second := d ++ [stem +:+ ext2] in
  let w1 := snd (optimize_image cfg first root backup_root w) in
  PathLib.with_suffix first ".webp" = PathLib.with_suffix second ".webp" /\
  (Fs.exists_ (fs w1) (d ++ [stem +:+ ".webp"]) = true ->
   optimize_image cfg second root backup_root w1
   = (Ok tt, extend w1 [EPrint WARNING (MsgSkipping second)])).
Proof.
  intros Hstem (e1 & -> & He1 & Hdot1) (e2 & -> & He2 & Hdot2). cbv zeta.
  assert (Hout : forall e, e <> "" -> Str.rfind "." e = None ->
            PathLib.with_suffix (d ++ [stem +:+ String "." e]) ".webp"
            = Some (d ++ [stem +:+ ".webp"])).
  { intros e He Hdot. rewrite with_suffix_snoc by now apply append_nonempty.
    now rewrite (name_with_suffix_stem_ext _ _ Hstem He Hdot). }
  split.
  - now rewrite !Hout.
  - intros Hex. now apply (optimize_image_skip cfg _ _ _ (d ++ [stem +:+ ".webp"])); auto.
Qed.

End Eligibility.

(** ** The backup comes before the removal *)

Section BackupBeforeRemoval.

Context {pil : Pillow}.
Variable cfg : Config.

Lemma read_bytes_extends (f f' : FS) (p : Path) (b : Bytes) :
  fs_extends f f' -> Fs.read_bytes f p = Ok b -> Fs.read_bytes f' p = Ok b.
Proof.
  intros Hext. unfold Fs.read_bytes.
  destruct (Fs.node_at f p) as [[c|]|] eqn:Hn; try discriminate.
  now rewrite (Hext _ _ Hn).
Qed.

(** A backup that succeeds leaves a backup in place: the one that was
    there, or a copy of the bytes of the original. *)
Lemma backup_outcome_Ok (backup_root file_path rel : Path) (w w1 : World) :
  backup_outcome backup_root file_path rel w = (Ok tt, w1) ->
  let dest := PathLib.joinpath backup_root rel in
  Fs.exists_ (fs w1) dest = true /\
  (forall b, Fs.exists_ (fs w) dest = false -> Fs.read_bytes (fs w) file_path = Ok b ->
             Fs.read_bytes (fs w1) dest = Ok b).
Proof.
  unfold backup_outcome. cbv zeta.
  set (dest := PathLib.joinpath backup_root rel).
  destruct (Fs.mkdir_parents (fs w) (PathLib.parent dest)) as [f1|e] eqn:Hdirs;
    [| discriminate].
  pose proof (mkdir_parents_touches _ _ _ dest Hdirs) as Htouch.
  apply mkdir_parents_Ok in Hdirs as [Hadd _].
  destruct (Fs.exists_ f1 dest) eqn:Hex1.
  - intros [= <-]. cbn [fs world_after]. split; [exact Hex1 |].
    intros b Hex _. exfalso.
    assert (Hne : dest <> []) by (intros E; rewrite E in Hex; discriminate).
    destruct (decide (Fs.node_at f1 dest = Fs.node_at (fs w) dest)) as [E | N].
    + unfold Fs.exists_ in *. rewrite E in Hex1. congruence.
    + now apply Htouch, not_prefix_of_parent in N.
  - destruct (Fs.read_bytes f1 file_path) as [b1|e] eqn:Hread; [| discriminate].
    destruct (Fs.write_file f1 dest b1) as [f2|e] eqn:Hwrite; [| discriminate].
    intros [= <-]. cbn [fs world_after].
    apply write_file_Ok in Hwrite as (Hne & -> & _).
    split.
    + unfold Fs.exists_. rewrite node_at_insert by assumption. now rewrite decide_True.
    + intros b _ Hb.
      rewrite (read_bytes_extends _ _ _ _ (fs_adds_dirs_extends _ _ Hadd) Hb) in Hread.
      injection Hread as <-.
      unfold Fs.read_bytes. rewrite node_at_insert by assumption. now rewrite decide_True.
Qed.

Lemma save_image_elsewhere (img : Image) (p q : Path) (kwargs : SaveKwargs) (w : World) :
  q <> p ->
  Fs.node_at (fs (snd (save_image img p kwargs w))) q = Fs.node_at (fs w) q.
Proof.
  intros Hq. unfold save_image, encode_to.
  unfold bind, emit, get_fs, put_fs, lift, ret, raise. cbn [fs stdin trace fst snd].
  destruct (Image_save img kwargs) as [b | e [b|]].
  - destruct (Fs.write_file (fs w) p b) as [f'|e] eqn:Hw; cbn [fs snd]; [| reflexivity].
    apply write_file_Ok in Hw as (Hne & -> & _).
    rewrite node_at_insert by assumption. now rewrite decide_False by congruence.
  - destruct (Fs.write_file (fs w) p b) as [f'|e'] eqn:Hw; cbn [fs snd]; [| reflexivity].
    apply write_file_Ok in Hw as (Hne & -> & _).
    rewrite node_at_insert by assumption. now rewrite decide_False by congruence.
  - now destruct (Fs.write_file (fs w) p []).
Qed.

(** A conversion that succeeds has its backup in place. *)
Lemma convert_file_backed_up (file_path root backup_root output_path rel : Path)
  (w w1 : World) :
  MAKE_BACKUP cfg = true ->
  PathLib.relative_to file_path root = Some rel ->
  PathLib.joinpath backup_root rel <> output_path ->
  convert_file cfg file_path root (Some backup_root) output_path w = (Ok tt, w1) ->
  Fs.node_at (fs w1) (PathLib.joinpath backup_root rel) <> None /\
  (forall b, Fs.exists_ (fs w) (PathLib.joinpath backup_root rel) = false ->
             Fs.read_bytes (fs w) file_path = Ok b ->
             Fs.read_bytes (fs w1) (PathLib.joinpath backup_root rel) = Ok b).
Proof.
  intros Hmk Hrel Hne. unfold convert_file. unfold bind at 1.
  destruct (prepare_image_read_only cfg file_path w) as [Hfs _].
  destruct (prepare_image cfg file_path w) as [[[img_to_save is_animated]|e] w0];
    [| discriminate].
  cbn [snd] in Hfs. unfold bind at 1.
  rewrite (backup_original_run cfg _ _ _ _ _ Hmk Hrel).
  destruct (backup_outcome backup_root file_path rel w0) as [[[]|e] w2] eqn:Hbk;
    [| discriminate].
  apply backup_outcome_Ok in Hbk as [Hex Hbytes]. rewrite Hfs in Hbytes.
  intros Hsave.
  pose proof (save_image_elsewhere img_to_save output_path _
                (save_kwargs cfg is_animated) w2 Hne) as Hkeep.
  rewrite Hsave in Hkeep. cbn [snd] in Hkeep.
  split.
  - rewrite Hkeep. unfold Fs.exists_ in Hex.
    now destruct (Fs.node_at (fs w2) _).
  - intros b Hno Hb. unfold Fs.read_bytes. rewrite Hkeep. now apply Hbytes.
Qed.

Lemma with_suffix_length (p out : Path) :
  PathLib.with_suffix p ".webp" = Some out -> length out = length p.
Proof.
  intros H. apply with_suffix_Some in H as [Hn ->].
  pose proof (f_equal length (path_split p Hn)) as E.
  rewrite length_app in E |- *. simpl in *. lia.
Qed.

Lemma backup_dest_length (root rel p : Path) (folder : string) :
  PathLib.relative_to p root = Some rel ->
  length (PathLib.joinpath (PathLib.joinpath root [folder]) rel) = S (length p).
Proof.
  intros H. apply relative_to_spec in H as ->. unfold PathLib.joinpath.
  rewrite !length_app. simpl. lia.
Qed.

(** X11. The backup comes before the removal.  With backups enabled and the
    backup folder of [main], if the original is gone after a call of
    [optimize_image], then its backup destination exists; and if the
    destination did not exist before the call, it holds the bytes the
    original had.  A file found at the destination beforehand is taken for
    the backup as it is. *)
Theorem original_removed_only_after_backup (file_path root rel : Path)
  (w : World) (b : Bytes) :
  MAKE_BACKUP cfg = true ->
  PathLib.relative_to file_path root = Some rel ->
  Fs.read_bytes (fs w) file_path = Ok b ->
  let backup_root := PathLib.joinpath root [BACKUP_FOLDER_NAME cfg] in
  let dest := PathLib.joinpath backup_root rel in
  let w' := snd (optimize_image cfg file_path root (Some backup_root) w) in
  Fs.is_file (fs w') file_path = false ->
  Fs.exists_ (fs w') dest = true /\
  (Fs.exists_ (fs w) dest = false -> Fs.read_bytes (fs w') dest = Ok b).
Proof.
  intros Hmk Hrel Hb. cbv zeta.
  set (backup_root := PathLib.joinpath root [BACKUP_FOLDER_NAME cfg]).
  set (dest := PathLib.joinpath backup_root rel).
  assert (Hfile : Fs.is_file (fs w) file_path = true).
  { unfold Fs.read_bytes in Hb. unfold Fs.is_file.
    now destruct (Fs.node_at (fs w) file_path) as [[c|]|]. }
  assert (Hlen : length dest = S (length file_path)) by now apply backup_dest_length.
  assert (Hdf : dest <> file_path) by (intros E; rewrite E in Hlen; lia).
  destruct (PathLib.with_suffix file_path ".webp") as [out|] eqn:Hout.
  2:{ unfold optimize_image. rewrite Hout. cbn [snd raise]. congruence. }
  assert (Hdo : dest <> out).
  { intros E. rewrite E, (with_suffix_length _ _ Hout) in Hlen. lia. }
  destruct (Fs.exists_ (fs w) out) eqn:Hex.
  { rewrite (optimize_image_skip cfg _ _ _ _ _ Hout Hex). cbn [snd fs extend]. congruence. }
  assert (Hfo : file_path <> out).
  { intros E. rewrite <- E in Hex. unfold Fs.exists_, Fs.is_file in *.
    now destruct (Fs.node_at (fs w) file_path). }
  rewrite (optimize_image_run cfg _ _ _ _ _ Hout Hex).
  pose proof (convert_file_footprint cfg file_path root (Some backup_root) out w)
    as [Hkeep _].
  destruct (convert_file cfg file_path root (Some backup_root) out w)
    as [[[]|e] w1] eqn:Hconv; cbn [snd] in Hkeep.
  2:{ rewrite report_failure_line. cbn [snd fs extend]. intros Hgone. exfalso.
      apply is_file_true in Hfile as [c Hc].
      rewrite (proj2 (is_file_true _ _)) in Hgone; [discriminate |].
      exists c. now apply Hkeep. }
  destruct (convert_file_backed_up _ _ _ _ _ _ _ Hmk Hrel Hdo Hconv) as [Hthere Hbytes].
  change (Fs.node_at (fs w1) dest <> None) in Hthere.
  assert (Hfile1 : Fs.is_file (fs w1) file_path = true).
  { apply is_file_true in Hfile as [c Hc]. apply is_file_true. exists c. now apply Hkeep. }
  pose proof (verify_and_delete_fs cfg file_path out w1) as Hver. cbv zeta in Hver.
  assert (Hend : forall w2, fs w2 = fs (snd (verify_and_delete cfg file_path out w1)) ->
            Fs.is_file (fs w2) file_path = false ->
            Fs.exists_ (fs w2) dest = true /\
            (Fs.exists_ (fs w) dest = false -> Fs.read_bytes (fs w2) dest = Ok b)).
  { intros w2 -> Hgone.
    destruct Hver as [E | (E & Hnil & _)]; rewrite E in Hgone |- *; [congruence |].
    unfold Fs.exists_, Fs.read_bytes. rewrite node_at_delete by assumption.
    rewrite decide_False by congruence. split.
    - now destruct (Fs.node_at (fs w1) dest).
    - intros Hno. exact (Hbytes b Hno Hb). }
  destruct (verify_and_delete cfg file_path out w1) as [[[]|e] w2]; cbn [snd] in *.
  - now apply Hend.
  - rewrite report_failure_line. cbn [snd fs extend]. now apply Hend.
Qed.

End BackupBeforeRemoval.

(** ** What the walk yields *)

Section Yield.

Variable cfg : Config.



End Yield.

(** ** Error paths of one call *)

Section ErrorPaths.

Context {pil : Pillow}.
Variable cfg : Config.

Lemma prepare_image_events (file_path : Path) :
  emits (fun e => touches_tree e = false /\ makes_backup e = false)
    (prepare_image cfg file_path).
Proof. unfold_script. repeat emits_step; now split. Qed.

(** X13. A file that is not below [root] cannot be backed up:
    [backup_original] raises [ValueError] at once.  In [optimize_image],
    with backups enabled, the call then ends with the report of an error
    and changes nothing: the tree is as before, no folder was made, nothing
    was copied, encoded or removed. *)
Theorem file_outside_root_is_left_alone (file_path root backup_root : Path)
  (w : World) :
  MAKE_BACKUP cfg = true ->
  ¬ root `prefix_of` file_path ->
  let w' := snd (optimize_image cfg file_path root (Some backup_root) w) in
  backup_original cfg root backup_root file_path w = (Raise ValueError, w) /\
  fs w' = fs w /\
  exists t, trace w' = trace w ++ t /\
            Forall (fun e => touches_tree e = false /\ makes_backup e = false) t.
Proof.
  intros Hmk Hout. apply relative_to_None in Hout. cbv zeta.
  assert (Hbk : forall w0, backup_original cfg root backup_root file_path w0
                           = (Raise ValueError, w0)).
  { intros w0. unfold backup_original. now rewrite Hmk, Hout. }
  split; [apply Hbk |].
  destruct (PathLib.with_suffix file_path ".webp") as [out|] eqn:Hsuf.
  2:{ unfold optimize_image. rewrite Hsuf. cbn [snd raise]. split; [reflexivity |].
      exists []. now rewrite app_nil_r. }
  destruct (Fs.exists_ (fs w) out) eqn:Hex.
  { rewrite (optimize_image_skip cfg _ _ _ _ _ Hsuf Hex). cbn [snd fs trace extend].
    split; [reflexivity |]. eexists. split; [reflexivity |]. now repeat constructor. }
  rewrite (optimize_image_stages cfg _ _ _ _ _ Hsuf Hex).
  destruct (prepare_image_read_only cfg file_path w) as [Hfs _].
  destruct (prepare_image_events file_path w) as (t & Ht & Hall).
  destruct (prepare_image cfg file_path w) as [[[img_to_save is_animated]|e] w1];
    cbn [snd] in *.
  - unfold finish_file, try_except, bind. rewrite Hbk, report_failure_line.
    cbn [snd fs trace extend]. split; [exact Hfs |].
    exists (t ++ [failure_line file_path ValueError]).
    rewrite Ht, <- app_assoc. split; [reflexivity |].
    rewrite Forall_app. split; [exact Hall | now repeat constructor].
  - rewrite report_failure_line. cbn [snd fs trace extend]. split; [exact Hfs |].
    exists (t ++ [failure_line file_path e]).
    rewrite Ht, <- app_assoc. split; [reflexivity |].
    rewrite Forall_app. split; [exact Hall | now repeat constructor].
Qed.

(** X14. An original of size zero is never removed.  Should the conversion
    of an empty file get as far as a verified output, the percentage of
    line 184 divides by the size of the original: [ZeroDivisionError] is
    raised before the removal and reported as an unexpected error.  The
    empty original is in place after the call in every case. *)
Theorem empty_original_is_never_removed (file_path root : Path)
  (backup_root : option Path) (w : World) :
  Fs.node_at (fs w) file_path = Some (File []) ->
  let w' := snd (optimize_image cfg file_path root backup_root w) in
  Fs.node_at (fs w') file_path = Some (File []) /\
  (forall out w1,
     PathLib.with_suffix file_path ".webp" = Some out ->
     Fs.exists_ (fs w) out = false ->
     convert_file cfg file_path root backup_root out w = (Ok tt, w1) ->
     output_verified (fs w1) out = true ->
     optimize_image cfg file_path root backup_root w
     = (Ok tt, extend w1 [failure_line file_path ZeroDivisionError])).
Proof.
  intros Hnode. cbv zeta.
  assert (Hrun : forall out w1,
     PathLib.with_suffix file_path ".webp" = Some out ->
     Fs.exists_ (fs w) out = false ->
     convert_file cfg file_path root backup_root out w = (Ok tt, w1) ->
     Fs.node_at (fs w1) file_path = Some (File []) /\
     (output_verified (fs w1) out = true ->
      verify_and_delete cfg file_path out w1 = (Raise ZeroDivisionError, w1)) /\
     (output_verified (fs w1) out = false ->
      fs (snd (verify_and_delete cfg file_path out w1)) = fs w1 /\
      fst (verify_and_delete cfg file_path out w1) = Ok tt)).
  { intros out w1 Hsuf Hex Hconv.
    assert (Hfo : file_path <> out).
    { intros E. rewrite <- E in Hex. unfold Fs.exists_ in Hex. now rewrite Hnode in Hex. }
    pose proof (convert_file_footprint cfg file_path root backup_root out w) as [Hkeep _].
    rewrite Hconv in Hkeep. cbn [snd] in Hkeep.
    specialize (Hkeep _ _ Hnode Hfo). split; [exact Hkeep |]. split.
    - intros Hver. unfold verify_and_delete, stat_size.
      unfold bind, get_fs, lift, ret, raise. cbn beta iota. rewrite Hver.
      unfold Fs.st_size at 1. rewrite Hkeep. cbn [length Z.of_nat].
      destruct (output_verified_exists _ _ Hver) as [n Hn].
      unfold Fs.st_size. rewrite Hn. now destruct n.
    - intros Hver. now rewrite (verify_failed cfg _ _ _ Hver). }
  split.
  - destruct (PathLib.with_suffix file_path ".webp") as [out|] eqn:Hsuf.
    2:{ unfold optimize_image. now rewrite Hsuf. }
    destruct (Fs.exists_ (fs w) out) eqn:Hex.
    { now rewrite (optimize_image_skip cfg _ _ _ _ _ Hsuf Hex). }
    rewrite (optimize_image_run cfg _ _ _ _ _ Hsuf Hex).
    assert (Hfo : file_path <> out).
    { intros E. rewrite <- E in Hex. unfold Fs.exists_ in Hex. now rewrite Hnode in Hex. }
    pose proof (convert_file_footprint cfg file_path root backup_root out w) as [Hkeep _].
    specialize (Hkeep _ _ Hnode Hfo).
    destruct (convert_file cfg file_path root backup_root out w) as [[[]|e] w1] eqn:Hconv;
      cbn [snd] in Hkeep.
    + destruct (Hrun out w1 eq_refl Hex Hconv) as (_ & Hyes & Hno).
      destruct (output_verified (fs w1) out).
      * rewrite (Hyes eq_refl), report_failure_line. exact Hkeep.
      * destruct (Hno eq_refl) as [Hfs Hok].
        destruct (verify_and_delete cfg file_path out w1) as [[[]|e] w2];
          cbn [fst snd] in *; [| discriminate]. now rewrite Hfs.
    + now rewrite report_failure_line.
  - intros out w1 Hsuf Hex Hconv Hver.
    rewrite (optimize_image_run cfg _ _ _ _ _ Hsuf Hex), Hconv.
    destruct (Hrun out w1 Hsuf Hex Hconv) as (_ & Hyes & _).
    now rewrite (Hyes Hver), report_failure_line.
Qed.

End ErrorPaths.

(** ** The further statements at work on the small tree *)

Section FurtherWitnesses.

Ltac by_evaluation :=
  match goal with
  | |- ?P => refine (@bool_decide_unpack P _ _); vm_compute; exact I
  end.


Lemma webp_is_not_supported : ".webp" ∉ SUPPORTED_EXTENSIONS source_config.
Proof. by_evaluation. Defined.


Lemma JPG_is_extension : is_extension ".JPG".
Proof. exists "JPG". repeat split; discriminate. Defined.

Lemma png_is_extension : is_extension ".png".
Proof. exists "png". repeat split; discriminate. Defined.


Lemma backup_folder_is_never_walked_witness :
  process_entries source_config Toy.root (Some Toy.backup_root)
    [Toy.backup_root ++ ["photo.JPG"]] 0 (Toy.world [])
  = (Ok 0%nat, Toy.world []).
Proof.
  apply (proj1 (proj2 (@backup_folder_is_never_walked Toy.pillow source_config Toy.root))).
  repeat constructor.
Defined.

Lemma name_decides_eligibility_witness :
  PathLib.with_suffix Toy.photo_path ".webp" = Some Toy.photo_webp.
Proof.
  apply (proj1 (proj2 (name_decides_eligibility source_config Toy.tree Toy.root
                         "photo" ".JPG" ltac:(discriminate) JPG_is_extension))).
Defined.

Lemma same_stem_shares_output_witness :
  PathLib.with_suffix (Toy.root ++ ["photo.JPG"]) ".webp"
  = PathLib.with_suffix (Toy.root ++ ["photo.png"]) ".webp".
Proof.
  apply (proj1 (@same_stem_shares_output Toy.pillow source_config Toy.root Toy.root
                  (Some Toy.backup_root) "photo" ".JPG" ".png" (Toy.world [])
                  ltac:(discriminate) JPG_is_extension png_is_extension)).
Defined.

Lemma ensure_backup_folder_makes_one_folder_witness :
  fst (ensure_backup_folder source_config Toy.root (Toy.world [])) = Ok Toy.backup_root.
Proof.
  apply (proj1 (proj2 (@ensure_backup_folder_makes_one_folder Toy.pillow source_config
                         Toy.root (Toy.world []))));
    vm_compute; reflexivity.
Defined.

Lemma file_outside_root_is_left_alone_witness :
  fs (snd (optimize_image source_config ["srv"; "other"; "logo.png"] Toy.root
             (Some Toy.backup_root) (Toy.world [])))
  = Toy.tree.
Proof.
  apply (proj1 (proj2 (@file_outside_root_is_left_alone Toy.pillow source_config
                         ["srv"; "other"; "logo.png"] Toy.root Toy.backup_root
                         (Toy.world []) eq_refl
                         ltac:(intros [k Hk]; discriminate Hk)))).
Defined.

Lemma original_removed_only_after_backup_witness :
  Fs.read_bytes
    (fs (snd (optimize_image source_config Toy.photo_path Toy.root
                (Some Toy.backup_root) (Toy.world []))))
    (Toy.backup_root ++ ["photo.JPG"])
  = Ok Toy.photo.
Proof.
  apply (@original_removed_only_after_backup Toy.pillow source_config Toy.photo_path
           Toy.root ["photo.JPG"] (Toy.world []) Toy.photo);
    vm_compute; reflexivity.
Defined.

Lemma empty_original_is_never_removed_witness :
  Fs.node_at
    (fs (snd (optimize_image source_config (Toy.root ++ ["empty.png"]) Toy.root
                (Some Toy.backup_root) empty_original_world)))
    (Toy.root ++ ["empty.png"])
  = Some (File []).
Proof.
  apply (proj1 (@empty_original_is_never_removed Toy.pillow source_config
                  (Toy.root ++ ["empty.png"]) Toy.root (Some Toy.backup_root)
                  empty_original_world ltac:(vm_compute; reflexivity))).
Defined.

Lemma deletion_off_run_only_adds_witness :
  fs_extends Toy.tree
    (fs (snd (main keep_originals_config Toy.root (Toy.world [])))).
Proof.
  apply (proj1 (@deletion_off_run_only_adds Toy.pillow keep_originals_config Toy.root
                  (Toy.world []) eq_refl)).
Defined.

Lemma backup_off_no_backup_call_witness :
  exists t,
    trace (snd (main no_backup_config Toy.root (Toy.world ["SI"]))) = [] ++ t /\
    Forall (fun e => makes_backup e = false) t.
Proof.
  apply (@backup_off_no_backup_call Toy.pillow no_backup_config Toy.root
           (Toy.world ["SI"]) eq_refl).
Defined.

Lemma run_keeps_or_converts_witness :
  kept_or_converted source_config Toy.tree
    (fs (snd (main source_config Toy.root (Toy.world ["SI"])))).
Proof.
  apply (@run_keeps_or_converts Toy.pillow source_config Toy.root (Toy.world ["SI"])
           webp_is_not_supported).
Defined.

Lemma run_adds_outputs_and_backups_witness :
  adds_outputs_and_backups source_config Toy.root Toy.tree
    (fs (snd (main source_config Toy.root (Toy.world ["SI"])))).
Proof.
  apply (@run_adds_outputs_and_backups Toy.pillow source_config Toy.root
           (Toy.world ["SI"])).
Defined.



End FurtherWitnesses.

(** ** When an image is resized, and how far *)

Section ResizeExtent.

Local Open Scope Q_scope.

Variable cfg : Config.
Variables max_width max_height : Z.
Hypothesis max_width_set : MAX_WIDTH cfg = Some max_width.
Hypothesis max_height_set : MAX_HEIGHT cfg = Some max_height.

Lemma quotient_of_fitting_side (limit side : Z) :
  (1 <= side <= limit)%Z -> 1 <= Float.round (inject_Z limit / inject_Z side).
Proof.
  intros Hs.
  assert (H1 : 1 <= inject_Z side)
    by (change 1 with (inject_Z 1%Z); rewrite <- Zle_Qle; lia).
  assert (H2 : inject_Z side <= inject_Z limit) by (rewrite <- Zle_Qle; lia).
  assert (Hq : 1 <= inject_Z limit / inject_Z side) by (apply Qle_shift_div_l; lra).
  assert (Hr : Float.round 1 == 1) by (apply (round_inject 1); lia).
  rewrite <- Hr. apply round_le; lra.
Qed.

(** An image within both limits is left as it is. *)
Lemma resize_target_fits (width height : Z) :
  (1 <= width <= max_width)%Z -> (1 <= height <= max_height)%Z ->
  resize_target cfg width height = Ok None.
Proof.
  intros Hw Hh. rewrite (resize_target_formula cfg max_width max_height) by
    (assumption || lia).
  cbv zeta.
  set (a := Float.round (inject_Z max_width / inject_Z width)).
  set (b := Float.round (inject_Z max_height / inject_Z height)).
  assert (Ha : 1 <= a) by now apply quotient_of_fitting_side.
  assert (Hb : 1 <= b) by now apply quotient_of_fitting_side.
  destruct (min3_spec a b 1) as (_ & _ & _ & Hmin).
  destruct (Float.ltb (Float.min3 a b 1) 1) eqn:Hlt; [| reflexivity].
  apply ltb_lt in Hlt. destruct Hmin as [E | [E | E]]; rewrite E in Hlt; lra.
Qed.

(** The side whose limit binds comes out at the limit or one pixel below. *)
Lemma binding_side_fills (limit side : Z) :
  (1 <= side < 2 ^ 26)%Z -> (0 <= limit < 2 ^ 26)%Z ->
  let scale := Float.round (inject_Z limit / inject_Z side) in
  scale < 1 ->
  (limit - 1 <= Float.to_int (Float.int_mul side scale))%Z.
Proof.
  intros Hs Hl scale Hlt.
  pose proof (side_in_Q side Hs) as [HS1 HS2].
  assert (HL0 : 0 <= inject_Z limit)
    by (change 0 with (inject_Z 0%Z); rewrite <- Zle_Qle; lia).
  assert (HL1 : inject_Z limit < 67108864 # 1).
  { change (67108864 # 1) with (inject_Z 67108864). rewrite <- Zlt_Qlt. lia. }
  assert (Hq0 : 0 <= inject_Z limit / inject_Z side) by (apply Qle_shift_div_l; lra).
  destruct (round_error _ Hq0) as [Hlo _]. fold scale in Hlo.
  assert (Hs0 : 0 <= scale) by now apply round_nonneg.
  destruct (new_side_bounds limit side scale Hs Hl Hs0 Hlt (Qle_refl _))
    as (_ & _ & _ & Hn & _).
  set (n := Float.to_int (Float.int_mul side scale)) in *.
  assert (Hmul : inject_Z side * (inject_Z limit / inject_Z side) == inject_Z limit)
    by (field; lra).
  assert (Hgt : inject_Z limit - 2 < inject_Z n).
  { assert (inject_Z limit * (1 - (1 # 9007199254740992)) <= inject_Z side * scale).
    { rewrite <- Hmul at 1. nra. }
    nra. }
  assert ((limit - 2 < n)%Z); [| lia].
  rewrite Zlt_Qlt. unfold Zminus. rewrite inject_Z_plus. 
  change (inject_Z (- (2))) with (- (2 # 1)). lra.
Qed.

(** X15. An image is resized exactly when it exceeds a limit.  With both
    limits set and not negative, an image with sides from 1 to below [2^26]
    is left as it is if and only if its width and its height are within the
    limits.  A side of zero makes the division of line 141 raise
    [ZeroDivisionError]. *)
Theorem resized_exactly_when_too_large (width height : Z) :
  (1 <= width < 2 ^ 26)%Z -> (1 <= height < 2 ^ 26)%Z ->
  (0 <= max_width)%Z -> (0 <= max_height)%Z ->
  (resize_target cfg width height = Ok None <->
   (width <= max_width)%Z /\ (height <= max_height)%Z) /\
  resize_target cfg 0 height = Raise ZeroDivisionError /\
  resize_target cfg width 0 = Raise ZeroDivisionError.
Proof.
  intros Hw Hh Hmw Hmh. split; [| split].
  - split.
    + now apply (resize_target_none cfg max_width max_height).
    + intros [H1 H2]. apply resize_target_fits; lia.
  - unfold resize_target, resize_scale, Float.truediv.
    now rewrite max_width_set, max_height_set.
  - unfold resize_target, resize_scale, Float.truediv.
    rewrite max_width_set, max_height_set.
    replace (width =? 0)%Z with false by (symmetry; apply Z.eqb_neq; lia).
    reflexivity.
Qed.

(** X16. A resized image fills a limit.  With limits and sides below
    [2^26], the new width is [MAX_WIDTH] or one pixel less, or the new
    height is [MAX_HEIGHT] or one pixel less: the image is not made smaller
    than the limits ask for, up to the pixel lost to rounding and
    truncation. *)
Theorem resized_image_fills_a_limit (width height new_width new_height : Z) :
  (1 <= width < 2 ^ 26)%Z -> (1 <= height < 2 ^ 26)%Z ->
  (0 <= max_width < 2 ^ 26)%Z -> (0 <= max_height < 2 ^ 26)%Z ->
  resize_target cfg width height = Ok (Some (new_width, new_height)) ->
  (max_width - 1 <= new_width <= max_width)%Z \/
  (max_height - 1 <= new_height <= max_height)%Z.
Proof.
  intros Hw Hh Hmw Hmh Hres.
  destruct (resize_target_bounds cfg max_width max_height max_width_set max_height_set
              width height new_width new_height Hw Hh Hmw Hmh Hres)
    as ([_ Hnw] & _ & [_ Hnh] & _).
  revert Hres. rewrite (resize_target_formula cfg max_width max_height) by
    (assumption || lia).
  cbv zeta.
  set (a := Float.round (inject_Z max_width / inject_Z width)).
  set (b := Float.round (inject_Z max_height / inject_Z height)).
  destruct (min3_spec a b 1) as (_ & _ & _ & Hmin).
  destruct (Float.ltb (Float.min3 a b 1) 1) eqn:Hlt; [| discriminate].
  apply ltb_lt in Hlt. intros [= <- <-].
  destruct Hmin as [E | [E | E]]; rewrite E in Hlt |- *.
  - left. split; [| rewrite <- E; exact Hnw].
    now apply binding_side_fills.
  - right. split; [| rewrite <- E; exact Hnh].
    now apply binding_side_fills.
  - lra.
Qed.

End ResizeExtent.

(** ** Running [optimize_image] again *)

Section ReplayLogic.

Context {pil : Pillow}.

Lemma tree_determined_ret {A : Type} (a : A) : tree_determined (ret a).
Proof. intros w w' H. now split. Qed.

Lemma tree_determined_raise {A : Type} (e : Exception) : tree_determined (@raise _ A e).
Proof. intros w w' H. now split. Qed.

Lemma tree_determined_lift {A : Type} (r : Result A) : tree_determined (lift r).
Proof. intros w w' H. destruct r; now split. Qed.

Lemma tree_determined_emit (e : Effect) : tree_determined (emit e).
Proof. intros w w' H. now split. Qed.

Lemma tree_determined_get_fs : tree_determined get_fs.
Proof. intros w w' H. cbn. now rewrite H. Qed.

Lemma tree_determined_put_fs (f : FS) : tree_determined (put_fs f).
Proof. intros w w' H. now split. Qed.

Lemma tree_determined_bind {A B : Type} (m : M A) (k : A -> M B) :
  tree_determined m -> (forall a, tree_determined (k a)) -> tree_determined (bind m k).
Proof.
  intros Hm Hk w w' H. unfold bind. destruct (Hm w w' H) as [Hr Hf].
  destruct (m w) as [[a|e] w1], (m w') as [[a'|e'] w1']; cbn [fst snd] in *;
    try discriminate.
  - injection Hr as <-. now apply Hk.
  - injection Hr as <-. split; [reflexivity | assumption].
Qed.

Lemma tree_determined_try {A : Type} (m : M A) (h : Exception -> M A) :
  tree_determined m -> (forall e, tree_determined (h e)) ->
  tree_determined (try_except m h).
Proof.
  intros Hm Hh w w' H. unfold try_except. destruct (Hm w w' H) as [Hr Hf].
  destruct (m w) as [[a|e] w1], (m w') as [[a'|e'] w1']; cbn [fst snd] in *;
    try discriminate.
  - split; assumption.
  - injection Hr as <-. now apply Hh.
Qed.

Lemma world_blind_ret {A : Type} (a : A) : world_blind (ret a).
Proof. now intros w w'. Qed.

Lemma world_blind_raise {A : Type} (e : Exception) : world_blind (@raise _ A e).
Proof. now intros w w'. Qed.

Lemma world_blind_lift {A : Type} (r : Result A) : world_blind (lift r).
Proof. intros w w'. now destruct r. Qed.

Lemma world_blind_emit (e : Effect) : world_blind (emit e).
Proof. now intros w w'. Qed.

Lemma world_blind_bind {A B : Type} (m : M A) (k : A -> M B) :
  world_blind m -> (forall a, world_blind (k a)) -> world_blind (bind m k).
Proof.
  intros Hm Hk w w'. unfold bind. specialize (Hm w w').
  destruct (m w) as [[a|e] w1], (m w') as [[a'|e'] w1']; cbn [fst snd] in *;
    try discriminate.
  - injection Hm as <-. apply Hk.
  - now injection Hm as <-.
Qed.

End ReplayLogic.

Ltac tree_determined_step :=
  first
    [ apply tree_determined_ret | apply tree_determined_raise
    | apply tree_determined_lift | apply tree_determined_emit
    | apply tree_determined_get_fs | apply tree_determined_put_fs
    | apply tree_determined_bind; [| intros ?]
    | apply tree_determined_try; [| intros ?]
    | match goal with
      | |- tree_determined (if ?b then _ else _) => destruct b eqn:?
      | |- tree_determined (match ?x with _ => _ end) => destruct x eqn:?
      | |- tree_determined (let '(_, _) := ?x in _) => destruct x eqn:?
      end ].

Ltac world_blind_step :=
  first
    [ apply world_blind_ret | apply world_blind_raise
    | apply world_blind_lift | apply world_blind_emit
    | apply world_blind_bind; [| intros ?]
    | match goal with
      | |- world_blind (if ?b then _ else _) => destruct b eqn:?
      | |- world_blind (match ?x with _ => _ end) => destruct x eqn:?
      | |- world_blind (let '(_, _) := ?x in _) => destruct x eqn:?
      end ].

Section Replay.

Context {pil : Pillow}.
Variable cfg : Config.

Lemma optimize_image_tree_determined (file_path root : Path)
  (backup_root : option Path) :
  tree_determined (optimize_image cfg file_path root backup_root).
Proof. unfold_script. repeat tree_determined_step. Qed.

Lemma save_image_tree_determined (img : Image) (p : Path) (kwargs : SaveKwargs) :
  tree_determined (save_image img p kwargs).
Proof. unfold_script. repeat tree_determined_step. Qed.

Lemma verify_and_delete_tree_determined (file_path output_path : Path) :
  tree_determined (verify_and_delete cfg file_path output_path).
Proof. unfold_script. repeat tree_determined_step. Qed.

Lemma bind_same {A B : Type} (m : M A) (k : A -> M B) (w w' : World) :
  fst (m w) = fst (m w') -> (forall a, world_blind (k a)) ->
  fst (bind m k w) = fst (bind m k w').
Proof.
  intros Hm Hk. unfold bind.
  destruct (m w) as [[a|e] w1], (m w') as [[a'|e'] w1']; cbn [fst snd] in *;
    try discriminate.
  - injection Hm as <-. apply Hk.
  - now injection Hm as <-.
Qed.

Lemma open_image_same (file_path : Path) (w w' : World) :
  Fs.read_bytes (fs w) file_path = Fs.read_bytes (fs w') file_path ->
  fst (open_image file_path w) = fst (open_image file_path w').
Proof.
  intros Hread. unfold open_image, bind, emit, get_fs, lift, ret, raise.
  cbn [fs stdin trace fst snd]. rewrite Hread.
  destruct (Fs.read_bytes (fs w') file_path) as [b|e]; [| reflexivity].
  now destruct (Image_open b).
Qed.

(** What [prepare_image] returns depends on the bytes of the file only. *)
Lemma prepare_image_same (file_path : Path) (w w' : World) :
  Fs.read_bytes (fs w) file_path = Fs.read_bytes (fs w') file_path ->
  fst (prepare_image cfg file_path w) = fst (prepare_image cfg file_path w').
Proof.
  intros Hread. unfold prepare_image.
  apply bind_same; [now apply open_image_same |].
  intros img. unfold resize_if_needed, strip_metadata, normalize_mode, print_status.
  repeat world_blind_step.
Qed.

(** The backup step of [optimize_image], lines 173-175. *)
Lemma finish_file_run (file_path root : Path) (backup_root : option Path)
  (output_path : Path) (img_to_save : Image) (is_animated : bool) (w : World) :
  finish_file cfg file_path root backup_root output_path img_to_save is_animated w
  = match match backup_root with
          | Some br => backup_original cfg root br file_path
          | None => ret tt
          end w with
    | (Raise e, w2) => report_failure file_path e w2
    | (Ok _, w2) =>
      match save_image img_to_save output_path (save_kwargs cfg is_animated) w2 with
      | (Raise e, w3) => report_failure file_path e w3
      | (Ok _, w3) =>
        match verify_and_delete cfg file_path output_path w3 with
        | (Ok a, w4) => (Ok a, w4)
        | (Raise e, w4) => report_failure file_path e w4
        end
      end
    end.
Proof.
  unfold finish_file, try_except, bind.
  destruct backup_root as [br|].
  - destruct (backup_original cfg root br file_path w) as [[[]|e] w2]; [| reflexivity].
    destruct (save_image _ _ _ w2) as [[[]|e] w3]; [| reflexivity].
    now destruct (verify_and_delete _ _ _ w3) as [[[]|e] w4].
  - cbn [ret].
    destruct (save_image _ _ _ w) as [[[]|e] w3]; [| reflexivity].
    now destruct (verify_and_delete _ _ _ w3) as [[[]|e] w4].
Qed.

Lemma save_image_cases (img : Image) (p : Path) (kwargs : SaveKwargs) (w : World) :
  (exists e, fst (save_image img p kwargs w) = Raise e /\
             fs (snd (save_image img p kwargs w)) = fs w) \/
  Fs.exists_ (fs (snd (save_image img p kwargs w))) p = true.
Proof.
  unfold save_image, encode_to.
  unfold bind, emit, get_fs, put_fs, lift, ret, raise. cbn [fs stdin trace fst snd].
  assert (Hins : forall f' b, Fs.write_file (fs w) p b = Ok f' -> Fs.exists_ f' p = true).
  { intros f' b Hw. apply write_file_Ok in Hw as (Hne & -> & _).
    unfold Fs.exists_. rewrite node_at_insert by assumption. now rewrite decide_True. }
  destruct (Image_save img kwargs) as [b | e [b|]].
  - destruct (Fs.write_file (fs w) p b) as [f'|e] eqn:Hw; cbn [fst snd fs].
    + right. now apply (Hins f' b).
    + left. now exists e.
  - destruct (Fs.write_file (fs w) p b) as [f'|e'] eqn:Hw; cbn [fst snd fs].
    + right. now apply (Hins f' b).
    + left. now exists e'.
  - destruct (Fs.write_file (fs w) p []) as [f'|e'] eqn:Hw; cbn [fst snd fs]; left; eauto.
Qed.

Lemma backup_outcome_cases (backup_root file_path rel : Path) (w : World) (b : Bytes) :
  Fs.read_bytes (fs w) file_path = Ok b ->
  (exists e, fst (backup_outcome backup_root file_path rel w) = Raise e /\
             fs (snd (backup_outcome backup_root file_path rel w)) = fs w) \/
  fst (backup_outcome backup_root file_path rel w) = Ok tt.
Proof.
  intros Hb. unfold backup_outcome. cbv zeta.
  set (dest := PathLib.joinpath backup_root rel).
  destruct (Fs.mkdir_parents (fs w) (PathLib.parent dest)) as [f1|e] eqn:Hdirs;
    [| left; now exists e].
  right. apply mkdir_parents_Ok in Hdirs as [Hadd Hdir].
  destruct (Fs.exists_ f1 dest) eqn:Hex; [reflexivity |].
  rewrite (read_bytes_extends _ _ _ _ (fs_adds_dirs_extends _ _ Hadd) Hb).
  rewrite write_file_success; [reflexivity | | assumption].
  apply exists_false in Hex. unfold Fs.is_dir. now rewrite Hex.
Qed.

(** After a backup that succeeded, a further one finds the backup made and
    the original as it was. *)
Lemma backup_outcome_twice (backup_root file_path rel : Path) (w w2 : World)
  (b : Bytes) :
  Fs.read_bytes (fs w) file_path = Ok b ->
  backup_outcome backup_root file_path rel w = (Ok tt, w2) ->
  fst (backup_outcome backup_root file_path rel w2) = Ok tt /\
  fs (snd (backup_outcome backup_root file_path rel w2)) = fs w2 /\
  Fs.read_bytes (fs w2) file_path = Ok b.
Proof.
  intros Hb. unfold backup_outcome. cbv zeta.
  set (dest := PathLib.joinpath backup_root rel).
  set (d := PathLib.parent dest).
  destruct (Fs.mkdir_parents (fs w) d) as [f1|e] eqn:Hdirs; [| discriminate].
  pose proof (mkdir_parents_Ok _ _ _ Hdirs) as [Hadd Hdir].
  pose proof (read_bytes_extends _ _ _ _ (fs_adds_dirs_extends _ _ Hadd) Hb) as Hb1.
  destruct (Fs.exists_ f1 dest) eqn:Hex.
  - intros [= <-]. cbn [fs world_after].
    rewrite (mkdir_parents_again _ _ _ _ Hdirs (fs_extends_refl f1)), Hex.
    now repeat split.
  - rewrite Hb1.
    destruct (Fs.write_file f1 dest b) as [f2|e] eqn:Hwrite; [| discriminate].
    intros [= <-]. cbn [fs world_after].
    apply write_file_Ok in Hwrite as (Hne & -> & _).
    assert (Hext : fs_extends f1 (<[dest := File b]> f1)).
    { apply fs_extends_insert; [assumption | now apply exists_false]. }
    rewrite (mkdir_parents_again _ _ _ _ Hdirs Hext).
    assert (Hthere : Fs.exists_ (<[dest := File b]> f1) dest = true).
    { unfold Fs.exists_. rewrite node_at_insert by assumption. now rewrite decide_True. }
    rewrite Hthere. cbn [fst snd fs world_after].
    repeat split. now apply (read_bytes_extends f1).
Qed.

Lemma prepare_image_reads (file_path : Path) (w w0 : World) (r : Image * bool) :
  prepare_image cfg file_path w = (Ok r, w0) ->
  exists b, Fs.read_bytes (fs w) file_path = Ok b.
Proof.
  unfold prepare_image, open_image. unfold bind at 1.
  unfold bind at 1, emit. cbn beta iota. unfold bind at 1, get_fs. cbn beta iota.
  cbn [fs]. unfold bind at 1.
  destruct (Fs.read_bytes (fs w) file_path) as [b|e]; [eauto | discriminate].
Qed.

Lemma exists_delete (f : FS) (p q : Path) :
  p <> [] -> p <> q -> Fs.exists_ (delete p f) q = Fs.exists_ f q.
Proof.
  intros Hp Hq. unfold Fs.exists_. rewrite node_at_delete by assumption.
  now rewrite decide_False.
Qed.

Lemma verify_and_delete_keeps_output (file_path output_path : Path) (w : World) :
  Fs.exists_ (fs w) output_path = true ->
  Fs.exists_ (fs (snd (verify_and_delete cfg file_path output_path w))) output_path
  = true.
Proof.
  intros Hex. pose proof (verify_and_delete_fs cfg file_path output_path w) as H.
  cbv zeta in H. destruct H as [-> | (-> & Hnil & _ & _ & Hne & _)]; [exact Hex |].
  now rewrite exists_delete.
Qed.

(** A second call of [optimize_image] right after a first leaves the tree
    as the first left it. *)
Lemma optimize_image_again (file_path root : Path) (backup_root : option Path)
  (w : World) :
  let w1 := snd (optimize_image cfg file_path root backup_root w) in
  fs (snd (optimize_image cfg file_path root backup_root w1)) = fs w1.
Proof.
  cbv zeta. set (w1 := snd (optimize_image cfg file_path root backup_root w)).
  assert (Hsame : fs w1 = fs w ->
            fs (snd (optimize_image cfg file_path root backup_root w1)) = fs w1).
  { intros H.
    destruct (optimize_image_tree_determined file_path root backup_root w1 w H)
      as [_ Hf].
    exact Hf. }
  destruct (PathLib.with_suffix file_path ".webp") as [out|] eqn:Hout.
  2:{ apply Hsame. unfold w1, optimize_image. now rewrite Hout. }
  destruct (Fs.exists_ (fs w1) out) eqn:Hex1.
  { now rewrite (optimize_image_skip cfg _ _ _ _ _ Hout Hex1). }
  destruct (Fs.exists_ (fs w) out) eqn:Hex.
  { apply Hsame. unfold w1. now rewrite (optimize_image_skip cfg _ _ _ _ _ Hout Hex). }
  (* the first call, stage by stage *)
  assert (Hw1 : w1 = snd (optimize_image cfg file_path root backup_root w))
    by reflexivity.
  rewrite (optimize_image_stages cfg _ _ _ _ _ Hout Hex) in Hw1.
  destruct (prepare_image_read_only cfg file_path w) as [Hfs0 _].
  destruct (prepare_image cfg file_path w) as [[[img is_animated]|e] w0] eqn:Hprep;
    cbn [snd] in Hfs0.
  2:{ apply Hsame. rewrite Hw1, report_failure_line. exact Hfs0. }
  destruct (prepare_image_reads _ _ _ _ Hprep) as [b Hb].
  rewrite finish_file_run in Hw1.
  set (backup := match backup_root with
                 | Some br => backup_original cfg root br file_path
                 | None => ret tt
                 end) in *.
  (* the second call, up to its backup step *)
  assert (Hnode : forall w2, fs w1 = fs w2 ->
            Fs.read_bytes (fs w2) file_path = Ok b ->
            fst (backup w2) = Ok tt ->
            fs (snd (backup w2)) = fs w2 ->
            (forall w2', fs w2' = fs w2 ->
               exists e, fst (save_image img out (save_kwargs cfg is_animated) w2')
                         = Raise e /\
                         fs (snd (save_image img out (save_kwargs cfg is_animated) w2'))
                         = fs w2) ->
            fs (snd (optimize_image cfg file_path root backup_root w1)) = fs w1).
  { intros w2 H12 Hread Hbk Hbkfs Hsave.
    rewrite (optimize_image_stages cfg _ _ _ _ _ Hout Hex1).
    destruct (prepare_image_read_only cfg file_path w1) as [Hfs1 _].
    assert (Hres : fst (prepare_image cfg file_path w1)
                   = fst (prepare_image cfg file_path w)).
    { apply prepare_image_same. rewrite H12, Hread. now rewrite Hb. }
    rewrite Hprep in Hres. cbn [fst] in Hres.
    destruct (prepare_image cfg file_path w1) as [r w0'] eqn:Hprep1.
    cbn [fst snd] in Hres, Hfs1. subst r.
    rewrite finish_file_run. fold backup.
    assert (Hb2 : fs w0' = fs w2) by congruence.
    assert (Hdet : tree_determined backup).
    { unfold backup. destruct backup_root; [| apply tree_determined_ret].
      unfold_script. repeat tree_determined_step. }
    destruct (Hdet w0' w2 Hb2) as [Hr Hf]. rewrite Hbk in Hr. rewrite Hbkfs in Hf.
    destruct (backup w0') as [rb w2']. cbn [fst snd] in Hr, Hf. subst rb.
    destruct (Hsave w2' Hf) as (e & Hse & Hsf).
    destruct (save_image img out (save_kwargs cfg is_animated) w2') as [rs w3'].
    cbn [fst snd] in Hse, Hsf. subst rs.
    rewrite report_failure_line. cbn [snd fs extend]. congruence. }
  (* the first call, from its backup step *)
  destruct (backup w0) as [rb w2] eqn:Hbackup.
  assert (Hcases : (exists e, rb = Raise e /\ fs w2 = fs w0) \/
                   (rb = Ok tt /\ fs (snd (backup w2)) = fs w2 /\
                    fst (backup w2) = Ok tt /\
                    Fs.read_bytes (fs w2) file_path = Ok b)).
  { assert (Hb0 : Fs.read_bytes (fs w0) file_path = Ok b) by now rewrite Hfs0.
    unfold backup in *. destruct backup_root as [br|].
    2:{ injection Hbackup as <- <-. right. now repeat split. }
    destruct (MAKE_BACKUP cfg) eqn:Hmk.
    2:{ assert (Hoff : forall w', backup_original cfg root br file_path w' = (Ok tt, w'))
          by (intros; unfold backup_original; now rewrite Hmk).
        rewrite Hoff in Hbackup. injection Hbackup as <- <-. right.
        rewrite Hoff. now repeat split. }
    destruct (PathLib.relative_to file_path root) as [rel|] eqn:Hrel.
    2:{ left. exists ValueError. unfold backup_original in Hbackup.
        rewrite Hmk, Hrel in Hbackup. cbn [negb raise] in Hbackup.
        injection Hbackup as <- <-. now split. }
    assert (Hrun : forall w', backup_original cfg root br file_path w'
                              = backup_outcome br file_path rel w')
      by (intros; now apply backup_original_run).
    rewrite Hrun in Hbackup. rewrite !Hrun.
    destruct (backup_outcome_cases br file_path rel w0 b Hb0) as [(e & He & Hf) | Hok].
    - left. exists e. rewrite Hbackup in He, Hf. now split.
    - right. rewrite Hbackup in Hok. cbn [fst] in Hok. subst rb.
      destruct (backup_outcome_twice br file_path rel w0 w2 b Hb0 Hbackup)
        as (H1 & H2 & H3).
      now repeat split. }
  destruct Hcases as [(e & -> & Hfs2) | (-> & Hagain & Hok & Hread2)].
  { apply Hsame. rewrite Hw1, report_failure_line. cbn [snd fs extend]. congruence. }
  destruct (save_image_cases img out (save_kwargs cfg is_animated) w2)
    as [(e & Hse & Hsf) | Hthere].
  - destruct (save_image img out (save_kwargs cfg is_animated) w2) as [rs w3] eqn:Hsave.
    cbn [fst snd] in Hse, Hsf. subst rs.
    rewrite report_failure_line in Hw1. cbn [snd] in Hw1.
    apply (Hnode w2); try assumption.
    + rewrite Hw1. cbn [fs extend]. exact Hsf.
    + intros w2' H2'.
      destruct (save_image_tree_determined img out (save_kwargs cfg is_animated)
                  w2' w2 H2') as [Hr Hf].
      rewrite Hsave in Hr, Hf. cbn [fst snd] in Hr, Hf. exists e. split; congruence.
  - exfalso.
    destruct (save_image img out (save_kwargs cfg is_animated) w2) as [[[]|e] w3];
      cbn [snd] in Hthere.
    + pose proof (verify_and_delete_keeps_output file_path out w3 Hthere) as Hkept.
      destruct (verify_and_delete cfg file_path out w3) as [[[]|e] w4];
        cbn [snd] in Hkept, Hw1.
      * rewrite Hw1 in Hex1. congruence.
      * rewrite report_failure_line in Hw1. rewrite Hw1 in Hex1.
        cbn [snd fs extend] in Hex1. congruence.
    + rewrite report_failure_line in Hw1. rewrite Hw1 in Hex1.
      cbn [snd fs extend] in Hex1. congruence.
Qed.

(** X17. Running [optimize_image] again changes nothing more.  However
    the first call on a file ends (converted, skipped or failed at any
    step), every further call on the same file leaves the tree exactly as
    the first call left it. *)
Theorem optimize_image_again_changes_nothing (file_path root : Path)
  (backup_root : option Path) (w : World) (n : nat) :
  fs (rerun cfg file_path root backup_root (S n) w)
  = fs (rerun cfg file_path root backup_root 1 w).
Proof.
  induction n as [|n IH]; [reflexivity |].
  rewrite <- IH. unfold rerun. cbn [Nat.iter].
  apply (optimize_image_again file_path root backup_root
           (Nat.iter n (fun w0 => snd (optimize_image cfg file_path root backup_root w0)) w)).
Qed.

End Replay.

(** ** The status line *)

Section StatusLine.







End StatusLine.

(** ** One verdict for each file *)

Section Verdicts.

Context {pil : Pillow}.
Variable cfg : Config.








End Verdicts.

(** ** More statements at work *)

Section MoreWitnesses.

Lemma resized_exactly_when_too_large_witness :
  resize_target source_config 0 3000 = Raise ZeroDivisionError.
Proof.
  apply (proj1 (proj2 (resized_exactly_when_too_large source_config 1920%Z 1920%Z
                         eq_refl eq_refl 4000%Z 3000%Z
                         ltac:(lia) ltac:(lia) ltac:(lia) ltac:(lia)))).
Defined.

Lemma resized_image_fills_a_limit_witness :
  (1920 - 1 <= 1920 <= 1920)%Z \/ (1920 - 1 <= 1440 <= 1920)%Z.
Proof.
  apply (resized_image_fills_a_limit source_config 1920%Z 1920%Z eq_refl eq_refl
           4000%Z 3000%Z 1920%Z 1440%Z); try lia.
  vm_compute. reflexivity.
Defined.



End MoreWitnesses.
